(** * PyPoE: the GGPK reader ([PyPoE/poe/file/ggpk.py])

    A shallow embedding of the record decoder, the offset table built by one
    linear scan, the directory builder and the navigation methods of
    [DirectoryNode], with the properties of the reader proved about it.

    Conventions.
    - Python [int] is [Z]; [bytes] is [list byte]; [str] is the list of its
      code points.
    - A Python call that may raise returns an [outcome]: [Return v],
      [Raise e] with the class of the exception, or [Diverge] when a [while]
      loop has not finished within the fuel the model was given.
    - [DirectoryNode] objects live in a heap (a list of node objects); a
      reference is an index, [is] is equality of indices, and allocation
      appends to the heap.
    - A Python list used as a stack ([l.pop()] / [l.append(x)]) is kept with
      its last element first, so that [pop] is a match on the head. *)

From Stdlib Require Import ZArith NArith List Lia Bool.
From Stdlib Require Import Init.Byte.
From stdpp Require Import base option list gmap relations strings.

(* ===================================================================== *)
(** ** Python values and outcomes                                          *)
(* ===================================================================== *)

(** The codecs the reader decodes with. *)
Inductive codec : Type := ascii_codec | utf_16 | utf_16_le.

(** The exception classes the reader can raise. [ValueError] is the bare
    [ValueError()] of [_read_record]; [UnicodeDecodeError], a subclass of
    [ValueError] in Python, carries its [encoding] attribute;
    [struct_error] is [struct.error]. [InvalidReference] is the model's
    own: it marks the use of a node reference outside the heap, which no
    Python program can hold. *)
Inductive exn : Type :=
| ValueError
| UnicodeDecodeError (encoding : codec)
| struct_error
| KeyError
| AttributeError
| UnboundLocalError
| ParserError
| InvalidReference.

Inductive outcome (A : Type) : Type :=
| Return (a : A)
| Raise (e : exn)
| Diverge.

Arguments Return {A} a.
Arguments Raise {A} e.
Arguments Diverge {A}.

Definition obind {A B} (c : outcome A) (k : A -> outcome B) : outcome B :=
  match c with
  | Return a => k a
  | Raise e => Raise e
  | Diverge => Diverge
  end.

Notation "'let!' x ':=' c 'in' k" := (obind c (fun x => k))
  (at level 10, x name, c at level 100, k at level 200).

(** [str]: a Python string, as the list of its code points. *)
Definition str : Type := list N.

(** A string literal of the source. *)
Definition py (s : string) : str :=
  map (fun a => Ascii.N_of_ascii a) (String.list_ascii_of_string s).

Definition bytes : Type := list byte.

Definition byte_val (b : byte) : Z := Z.of_N (Byte.to_N b).

(* ===================================================================== *)
(** ** [struct.unpack] and [int.from_bytes]                                *)
(* ===================================================================== *)

Module struct.

(** The unsigned value of a little-endian byte string. *)
Fixpoint le_unsigned (b : bytes) : Z :=
  match b with
  | [] => 0
  | x :: b' => byte_val x + 256 * le_unsigned b'
  end.

(** Two's complement reading of a [w]-bit unsigned value. *)
Definition signed (w : Z) (u : Z) : Z :=
  if (u <? 2 ^ (w - 1))%Z then u else (u - 2 ^ w)%Z.

(** [struct.unpack('<i', b)[0]]: exactly four bytes, or [struct.error]. *)
Definition unpack_i (b : bytes) : outcome Z :=
  if decide (length b = 4%nat) then Return (signed 32 (le_unsigned b))
  else Raise struct_error.

(** [struct.unpack('<I', b)[0]]. *)
Definition unpack_I (b : bytes) : outcome Z :=
  if decide (length b = 4%nat) then Return (le_unsigned b)
  else Raise struct_error.

(** [struct.unpack('<q', b)[0]]: exactly eight bytes. *)
Definition unpack_q (b : bytes) : outcome Z :=
  if decide (length b = 8%nat) then Return (signed 64 (le_unsigned b))
  else Raise struct_error.

(** [int.from_bytes(b, 'big')]: any length, never raises. *)
Definition from_bytes_big (b : bytes) : Z := le_unsigned (reverse b).

End struct.

(* ===================================================================== *)
(** ** Codecs: [bytes.decode]                                              *)
(* ===================================================================== *)

Module codecs.

(** [b.decode('ascii')]: every byte below 128. *)
Fixpoint decode_ascii (b : bytes) : outcome str :=
  match b with
  | [] => Return []
  | x :: b' =>
      if (N.ltb (Byte.to_N x) 128)
      then let! s := decode_ascii b' in Return (Byte.to_N x :: s)
      else Raise (UnicodeDecodeError ascii_codec)
  end.

(** The 16-bit code units of a byte string; [None] on a trailing odd
    byte (truncated data). *)
Fixpoint units (big_endian : bool) (b : bytes) : option (list N) :=
  match b with
  | [] => Some []
  | [_] => None
  | x :: y :: b' =>
      let u := if big_endian
               then (256 * Byte.to_N x + Byte.to_N y)%N
               else (Byte.to_N x + 256 * Byte.to_N y)%N in
      match units big_endian b' with
      | Some us => Some (u :: us)
      | None => None
      end
  end.

Definition is_high_surrogate (u : N) : bool :=
  (N.leb 55296 u && N.leb u 56319)%bool.
Definition is_low_surrogate (u : N) : bool :=
  (N.leb 56320 u && N.leb u 57343)%bool.

(** Code units to code points: a high surrogate must be followed by a
    low one, and a low one never stands alone. *)
Fixpoint code_points (enc : codec) (us : list N) : outcome str :=
  match us with
  | [] => Return []
  | u :: us' =>
      if is_high_surrogate u then
        match us' with
        | v :: us'' =>
            if is_low_surrogate v
            then match code_points enc us'' with
                 | Return s =>
                     Return ((65536 + (u - 55296) * 1024 + (v - 56320))%N :: s)
                 | o => o
                 end
            else Raise (UnicodeDecodeError enc)
        | [] => Raise (UnicodeDecodeError enc)
        end
      else if is_low_surrogate u then Raise (UnicodeDecodeError enc)
      else match code_points enc us' with
           | Return s => Return (u :: s)
           | o => o
           end
  end.

(** Decoding in a given byte order. *)
Definition decode_units (enc : codec) (big_endian : bool) (b : bytes)
  : outcome str :=
  match units big_endian b with
  | Some us => code_points enc us
  | None => Raise (UnicodeDecodeError enc)
  end.

(** [b.decode('UTF-16_LE')]. *)
Definition decode_utf_16_le (b : bytes) : outcome str :=
  decode_units utf_16_le false b.

(** [b.decode('UTF-16')]: a leading byte order mark selects the byte
    order and is dropped; without one the order is the machine's
    (little-endian). *)
Definition decode_utf_16 (b : bytes) : outcome str :=
  match b with
  | x :: y :: b' =>
      if decide (Byte.to_N x = 255%N /\ Byte.to_N y = 254%N)
      then decode_units utf_16 false b'
      else if decide (Byte.to_N x = 254%N /\ Byte.to_N y = 255%N)
      then decode_units utf_16 true b'
      else decode_units utf_16 false b
  | _ => decode_units utf_16 false b
  end.

End codecs.

(* ===================================================================== *)
(** ** The byte source: [io.BytesIO]                                       *)
(* ===================================================================== *)

(** The buffer [GGPKFile._read] is given: an in-memory seekable byte
    source with the semantics of [io.BytesIO]. *)
Record BytesIO : Type := mkBytesIO {
  getvalue : bytes;
  pos : Z
}.

(** Code that reads from the buffer and may raise. *)
Definition io (A : Type) : Type := BytesIO -> outcome (A * BytesIO).

Definition ret {A} (a : A) : io A := fun f => Return (a, f).

Definition bind {A B} (c : io A) (k : A -> io B) : io B :=
  fun f =>
    match c f with
    | Return (a, f') => k a f'
    | Raise e => Raise e
    | Diverge => Diverge
    end.

Definition lift {A} (o : outcome A) : io A :=
  fun f =>
    match o with
    | Return a => Return (a, f)
    | Raise e => Raise e
    | Diverge => Diverge
    end.

Notation "'do' x <- c ; k" := (bind c (fun x => k))
  (at level 10, x name, c at level 100, k at level 200).
Notation "'do_' c ; k" := (bind c (fun _ => k))
  (at level 10, c at level 100, k at level 200).

Module BytesIO_.

(** [f.read(n)]: at most [n] bytes from the position, all the rest when
    [n] is negative; the position moves by what was read. *)
Definition read (n : Z) : io bytes := fun f =>
  let rest := drop (Z.to_nat (pos f)) (getvalue f) in
  let out := if (n <? 0)%Z then rest else take (Z.to_nat n) rest in
  Return (out, mkBytesIO (getvalue f) (pos f + Z.of_nat (length out))).

(** [f.seek(k, os.SEEK_CUR)]: a position below zero is set to zero. *)
Definition seek_cur (k : Z) : io unit := fun f =>
  Return (tt, mkBytesIO (getvalue f) (Z.max 0 (pos f + k))).

(** [f.seek(0, os.SEEK_END)] returns the size. *)
Definition seek_end0 : io Z := fun f =>
  let size := Z.of_nat (length (getvalue f)) in
  Return (size, mkBytesIO (getvalue f) size).

(** [f.seek(0, os.SEEK_SET)]. *)
Definition seek_set0 : io unit := fun f =>
  Return (tt, mkBytesIO (getvalue f) 0).

Definition tell : io Z := fun f => Return (pos f, f).

End BytesIO_.


(* ===================================================================== *)
(** ** Records                                                             *)
(* ===================================================================== *)

(** [DirectoryRecordEntry]. *)
Record DirectoryRecordEntry : Type := mkEntry {
  entry_hash : Z;
  entry_offset : Z
}.

(** The four record classes, subclasses of [BaseRecord]; the arguments are
    the slots of each class ([_container] left out). *)
Inductive BaseRecord : Type :=
| GGPKRecord (length offset : Z) (offsets : list Z)
| DirectoryRecord (length offset : Z) (_name : str)
    (_name_length entries_length : Z) (hash : Z)
    (entries : list DirectoryRecordEntry)
| FileRecord (length offset : Z) (_name : str) (_name_length : Z)
    (hash : Z) (data_start data_length : Z)
| FreeRecord (length offset : Z) (next_free : Z).

Definition rec_length (r : BaseRecord) : Z :=
  match r with
  | GGPKRecord l _ _ | DirectoryRecord l _ _ _ _ _ _
  | FileRecord l _ _ _ _ _ _ | FreeRecord l _ _ => l
  end.

Definition rec_offset (r : BaseRecord) : Z :=
  match r with
  | GGPKRecord _ o _ | DirectoryRecord _ o _ _ _ _ _
  | FileRecord _ o _ _ _ _ _ | FreeRecord _ o _ => o
  end.

(** [isinstance(record, DirectoryRecord)] and [isinstance(record, FileRecord)]. *)
Definition is_DirectoryRecord (r : BaseRecord) : bool :=
  match r with DirectoryRecord _ _ _ _ _ _ _ => true | _ => false end.

Definition is_FileRecord (r : BaseRecord) : bool :=
  match r with FileRecord _ _ _ _ _ _ _ => true | _ => false end.

(** [record.name] ([MixinRecord._get_name]): only the directory and the
    file class have the property. *)
Definition rec_name (r : BaseRecord) : outcome str :=
  match r with
  | DirectoryRecord _ _ n _ _ _ _ | FileRecord _ _ n _ _ _ _ => Return n
  | _ => Raise AttributeError
  end.

(** [record.entries]: a slot of [DirectoryRecord] alone. *)
Definition rec_entries (r : BaseRecord) : outcome (list DirectoryRecordEntry) :=
  match r with
  | DirectoryRecord _ _ _ _ _ _ es => Return es
  | _ => Raise AttributeError
  end.

(* ===================================================================== *)
(** ** The record decoder                                                  *)
(* ===================================================================== *)

(** [for i in range(0, records): offsets.append(unpack('<q', read(8)))]. *)
Fixpoint read_offsets (n : nat) : io (list Z) :=
  match n with
  | O => ret []
  | S n' =>
      do b <- BytesIO_.read 8;
      do o <- lift (struct.unpack_q b);
      do os <- read_offsets n';
      ret (o :: os)
  end.

(** [GGPKRecord.read]. *)
Definition GGPKRecord_read (length offset : Z) : io BaseRecord :=
  do b <- BytesIO_.read 4;
  do records <- lift (struct.unpack_i b);
  do offsets <- read_offsets (Z.to_nat records);
  ret (GGPKRecord length offset offsets).

(** [for i in range(0, self.entries_length): entries.append(...)]. *)
Fixpoint read_entries (n : nat) : io (list DirectoryRecordEntry) :=
  match n with
  | O => ret []
  | S n' =>
      do bh <- BytesIO_.read 4;
      do h <- lift (struct.unpack_I bh);
      do bo <- BytesIO_.read 8;
      do o <- lift (struct.unpack_q bo);
      do es <- read_entries n';
      ret (mkEntry h o :: es)
  end.

(** [DirectoryRecord.read]. *)
Definition DirectoryRecord_read (length offset : Z) : io BaseRecord :=
  do b1 <- BytesIO_.read 4;
  do name_length <- lift (struct.unpack_i b1);
  do b2 <- BytesIO_.read 4;
  do entries_length <- lift (struct.unpack_i b2);
  do bh <- BytesIO_.read 32;
  do bn <- BytesIO_.read (2 * (name_length - 1));
  do name <- lift (codecs.decode_utf_16_le bn);
  do_ BytesIO_.seek_cur 2;
  do entries <- read_entries (Z.to_nat entries_length);
  ret (DirectoryRecord length offset name name_length entries_length
         (struct.from_bytes_big bh) entries).

(** [FileRecord.read]. *)
Definition FileRecord_read (length offset : Z) : io BaseRecord :=
  do b1 <- BytesIO_.read 4;
  do name_length <- lift (struct.unpack_i b1);
  do bh <- BytesIO_.read 32;
  do bn <- BytesIO_.read (2 * (name_length - 1));
  do name <- lift (codecs.decode_utf_16 bn);
  do_ BytesIO_.seek_cur 2;
  do data_start <- BytesIO_.tell;
  let data_length := (length - 44 - name_length * 2)%Z in
  do_ BytesIO_.seek_cur data_length;
  ret (FileRecord length offset name name_length
         (struct.from_bytes_big bh) data_start data_length).

(** [FreeRecord.read]. *)
Definition FreeRecord_read (length offset : Z) : io BaseRecord :=
  do b <- BytesIO_.read 8;
  do next_free <- lift (struct.unpack_q b);
  do_ BytesIO_.seek_cur (length - 16);
  ret (FreeRecord length offset next_free).

(** The header of a record: its length and its tag, as [_read_record]
    reads them. *)
Definition read_header : io (Z * str) :=
  do b <- BytesIO_.read 4;
  do length <- lift (struct.unpack_i b);
  do bt <- BytesIO_.read 4;
  do tag <- lift (codecs.decode_ascii bt);
  ret (length, tag).

(** The dispatch of [_read_record] on the tag, and [record.read]. *)
Definition read_tagged (length : Z) (tag : str) (offset : Z) : io BaseRecord :=
  if decide (tag = py "FILE") then FileRecord_read length offset
  else if decide (tag = py "FREE") then FreeRecord_read length offset
  else if decide (tag = py "PDIR") then DirectoryRecord_read length offset
  else if decide (tag = py "GGPK") then GGPKRecord_read length offset
  else lift (Raise ValueError).

(** [GGPKFile._read_record]: the table with the decoded record stored at
    [offset]. *)
Definition _read_record (records : gmap Z BaseRecord) (offset : Z)
  : io (gmap Z BaseRecord) :=
  do h <- read_header;
  do record <- read_tagged h.1 h.2 offset;
  ret (<[offset := record]> records).

(** The [while offset < size] loop of [GGPKFile._read]. *)
Fixpoint _read_loop (fuel : nat) (size offset : Z)
    (records : gmap Z BaseRecord) : io (gmap Z BaseRecord) :=
  if (offset <? size)%Z then
    match fuel with
    | O => fun _ => Diverge
    | S fuel' =>
        do records' <- _read_record records offset;
        do offset' <- BytesIO_.tell;
        _read_loop fuel' size offset' records'
    end
  else ret records.

(** [GGPKFile._read]: the value assigned to [self.records]. *)
Definition _read (fuel : nat) : io (gmap Z BaseRecord) :=
  do size <- BytesIO_.seek_end0;
  do_ BytesIO_.seek_set0;
  _read_loop fuel size 0 ∅.

(** [_read] on a byte string, from a fresh buffer over it. *)
Definition scan (fuel : nat) (data : bytes) : outcome (gmap Z BaseRecord) :=
  match _read fuel (mkBytesIO data 0) with
  | Return (records, _) => Return records
  | Raise e => Raise e
  | Diverge => Diverge
  end.


(* ===================================================================== *)
(** ** Synthetic archives                                                  *)
(* ===================================================================== *)

(** Little-endian bytes of an integer, for building archives to run the
    reader on. *)
Module synth.

Definition byte_of (z : Z) : byte :=
  match Byte.of_N (Z.to_N (z mod 256)) with
  | Some b => b
  | None => x00
  end.

Fixpoint le (n : nat) (z : Z) : bytes :=
  match n with
  | O => []
  | S n' => byte_of z :: le n' (z / 256)
  end.

Definition ascii_bytes (s : string) : bytes :=
  map Ascii.byte_of_ascii (String.list_ascii_of_string s).

(** An ASCII name in UTF-16-LE with its terminator. *)
Definition utf16z (s : string) : bytes :=
  flat_map (fun a => [Ascii.byte_of_ascii a; x00]) (String.list_ascii_of_string s)
  ++ [x00; x00].

Definition name_length (s : string) : Z := Z.of_nat (String.length s) + 1.

Definition zeros (n : nat) : bytes := repeat x00 n.

Definition ggpk (offsets : list Z) : bytes :=
  le 4 (12 + 8 * Z.of_nat (length offsets)) ++ ascii_bytes "GGPK"
  ++ le 4 (Z.of_nat (length offsets)) ++ flat_map (le 8) offsets.

Definition pdir (name : string) (entries : list (Z * Z)) : bytes :=
  le 4 (48 + 2 * name_length name + 12 * Z.of_nat (length entries))
  ++ ascii_bytes "PDIR" ++ le 4 (name_length name)
  ++ le 4 (Z.of_nat (length entries)) ++ zeros 32 ++ utf16z name
  ++ flat_map (fun e => le 4 e.1 ++ le 8 e.2) entries.

Definition file (name : string) (data : bytes) : bytes :=
  le 4 (44 + 2 * name_length name + Z.of_nat (length data))
  ++ ascii_bytes "FILE" ++ le 4 (name_length name) ++ zeros 32
  ++ utf16z name ++ data.

Definition free (next_free : Z) (filler : nat) : bytes :=
  le 4 (16 + Z.of_nat filler) ++ ascii_bytes "FREE" ++ le 8 next_free
  ++ zeros filler.

End synth.


(* ===================================================================== *)
(** ** [posixpath.split] and [str.join]                                    *)
(* ===================================================================== *)

(** [os.path] on a POSIX platform, where it is [posixpath]. *)
Module posixpath.

(** The path separator ['/']. *)
Definition sep : N := 47%N.

(** [p.rfind(c)]: the index of the last [c], or [-1]. *)
Fixpoint rfind (c : N) (p : str) : Z :=
  match p with
  | [] => (-1)%Z
  | x :: p' =>
      let r := rfind c p' in
      if (0 <=? r)%Z then (r + 1)%Z
      else if decide (x = c) then 0%Z else (-1)%Z
  end.

Fixpoint lstrip (c : N) (p : str) : str :=
  match p with
  | [] => []
  | x :: p' => if decide (x = c) then lstrip c p' else p
  end.

(** [p.rstrip(c)]. *)
Definition rstrip (c : N) (p : str) : str :=
  reverse (lstrip c (reverse p)).

(** [posixpath.split]:
    [i = p.rfind(sep) + 1; head, tail = p[:i], p[i:]] and the trailing
    separators of a head that is not all separators are stripped. *)
Definition split (p : str) : str * str :=
  let i := (rfind sep p + 1)%Z in
  let head := take (Z.to_nat i) p in
  let tail := drop (Z.to_nat i) p in
  let head' :=
    if decide (head ≠ [] ∧ head ≠ repeat sep (length head))
    then rstrip sep head else head in
  (head', tail).

(** ['/'.join(parts)]. *)
Fixpoint join (parts : list str) : str :=
  match parts with
  | [] => []
  | [s] => s
  | s :: rest => s ++ sep :: join rest
  end.

End posixpath.

(* ===================================================================== *)
(** ** [DirectoryNode]                                                     *)
(* ===================================================================== *)

(** A reference to a [DirectoryNode] object. *)
Abbreviation ref := nat.

(** The slots of a [DirectoryNode]. *)
Record DirectoryNode : Type := mkNode {
  children : list ref;
  parent : option ref;
  record : BaseRecord;
  hash : option Z
}.

(** The node objects allocated so far. *)
Abbreviation heap := (list DirectoryNode).

(** Following a reference. Every reference a Python program holds is
    valid; the model flags one outside the heap. *)
Definition deref (h : heap) (r : ref) : outcome DirectoryNode :=
  match h !! r with
  | Some nd => Return nd
  | None => Raise InvalidReference
  end.

(** [DirectoryNode._get_name], the [name] property. *)
Definition _get_name (nd : DirectoryNode) : outcome str :=
  let! n := rec_name (record nd) in
  Return (match n with [] => py "ROOT" | _ => n end).

(** [node.name] through a reference. *)
Definition name_of (h : heap) (r : ref) : outcome str :=
  let! nd := deref h r in _get_name nd.

(** The first loop of [__getitem__]:
    [while item: item, result = os.path.split(item); path.insert(0, result)]. *)
Fixpoint split_path (fuel : nat) (item : str) (path : list str)
  : outcome (list str) :=
  match item with
  | [] => Return path
  | _ =>
      match fuel with
      | O => Diverge
      | S fuel' =>
          let hr := posixpath.split item in
          split_path fuel' hr.1 (hr.2 :: path)
      end
  end.

(** [for child in obj.children: if child.name == item: obj = child; break]
    with [None] for the [else] branch of the loop. *)
Fixpoint find_child (h : heap) (cs : list ref) (item : str)
  : outcome (option ref) :=
  match cs with
  | [] => Return None
  | child :: cs' =>
      let! n := name_of h child in
      if decide (n = item) then Return (Some child)
      else find_child h cs' item
  end.

(** The second loop of [__getitem__], over the segments of the path. *)
Fixpoint walk_path (h : heap) (obj : ref) (path : list str)
  : outcome (option ref) :=
  match path with
  | [] => Return (Some obj)
  | item :: path' =>
      let! nd := deref h obj in
      let! c := find_child h (children nd) item in
      match c with
      | Some child => walk_path h child path'
      | None => Return None
      end
  end.

(** [DirectoryNode.__getitem__]. *)
Definition __getitem__ (fuel : nat) (h : heap) (self : ref) (item : str)
  : outcome (option ref) :=
  let! path := split_path fuel item [] in
  walk_path h self path.

(** The condition of [search] on one node: the record class is asked for
    and the name matches ([matches s] is [re.search(regex, s)] seen as a
    boolean); the name is evaluated only when the class test holds. *)
Definition search_hit (matches : str -> bool)
    (search_files search_directories : bool) (nd : DirectoryNode)
  : outcome bool :=
  if (search_files && is_FileRecord (record nd)
      || search_directories && is_DirectoryRecord (record nd))%bool
  then let! n := _get_name nd in Return (matches n)
  else Return false.

(** The [while len(q) > 0] loop of [search]; [q] is a stack. *)
Fixpoint search_loop (fuel : nat) (matches : str -> bool)
    (search_files search_directories : bool) (h : heap)
    (q : list ref) (nodes : list ref) : outcome (list ref) :=
  match q with
  | [] => Return nodes
  | node :: q' =>
      match fuel with
      | O => Diverge
      | S fuel' =>
          let! nd := deref h node in
          let! hit := search_hit matches search_files search_directories nd in
          search_loop fuel' matches search_files search_directories h
            (reverse (children nd) ++ q')
            (if hit then nodes ++ [node] else nodes)
      end
  end.

(** [DirectoryNode.search]. *)
Definition search (fuel : nat) (h : heap) (self : ref)
    (matches : str -> bool) (search_files search_directories : bool)
  : outcome (list ref) :=
  search_loop fuel matches search_files search_directories h [self] [].

(** The loop of [get_parent]; returns the final [nodes] and [node]. *)
Fixpoint get_parent_loop (fuel : nat) (h : heap) (node : ref) (n : Z)
    (stop_at : option ref) (make_list : bool) (nodes : list ref)
  : outcome (list ref * ref) :=
  if decide (n = 0%Z) then Return (nodes, node)
  else
    let! nd := deref h node in
    match parent nd with
    | None => Return (nodes, node)
    | Some p =>
        if decide (stop_at = Some node) then Return (nodes, node)
        else
          match fuel with
          | O => Diverge
          | S fuel' =>
              get_parent_loop fuel' h p (n - 1)%Z stop_at make_list
                (if make_list then node :: nodes else nodes)
          end
    end.

(** [DirectoryNode.get_parent]: [nodes if make_list else node]. *)
Definition get_parent (fuel : nat) (h : heap) (self : ref) (n : Z)
    (stop_at : option ref) (make_list : bool) : outcome (list ref + ref) :=
  let! r := get_parent_loop fuel h self n stop_at make_list [] in
  Return (if make_list then inl r.1 else inr r.2).

(* ===================================================================== *)
(** ** [GGPKFile.directory_build]                                          *)
(* ===================================================================== *)

#[global] Instance DirectoryRecordEntry_eq_dec : EqDecision DirectoryRecordEntry.
Proof. solve_decision. Defined.

#[global] Instance BaseRecord_eq_dec : EqDecision BaseRecord.
Proof. solve_decision. Defined.

(** [self.records[offset]]. *)
Definition getrecord (records : gmap Z BaseRecord) (offset : Z)
  : outcome BaseRecord :=
  match records !! offset with
  | Some r => Return r
  | None => Raise KeyError
  end.

(** [ggpkrecord.offsets]: a slot of [GGPKRecord] alone. *)
Definition rec_offsets (r : BaseRecord) : outcome (list Z) :=
  match r with
  | GGPKRecord _ _ os => Return os
  | _ => Raise AttributeError
  end.

(** [for offset in ggpkrecord.offsets: record = self.records[offset];
     if isinstance(record, DirectoryRecord): break].
    The result is the binding of [record] after the loop, [None] while it
    is unbound. *)
Fixpoint root_scan (records : gmap Z BaseRecord) (offsets : list Z)
    (record : option BaseRecord) : outcome (option BaseRecord) :=
  match offsets with
  | [] => Return record
  | offset :: rest =>
      let! r := getrecord records offset in
      if is_DirectoryRecord r then Return (Some r)
      else root_scan records rest (Some r)
  end.

(** The [if parent is None] branch up to the record the root wraps. *)
Definition build_root (records : gmap Z BaseRecord) : outcome BaseRecord :=
  let! ggpkrecord := getrecord records 0 in
  let! offsets := rec_offsets ggpkrecord in
  let! record := root_scan records offsets None in
  match record with
  | None => Raise UnboundLocalError
  | Some r => if is_DirectoryRecord r then Return r else Raise ParserError
  end.

(** [parent.children.append(node)]. *)
Definition append_child (p c : ref) (h : heap) : heap :=
  alter (fun nd => mkNode (children nd ++ [c]) (parent nd) (record nd) (hash nd))
        p h.

(** The work list items pushed for the entries of a record, the last
    entry on top. *)
Definition push_entries (es : list DirectoryRecordEntry) (node : ref)
    (l : list (Z * Z * ref)) : list (Z * Z * ref) :=
  reverse ((fun e => (entry_offset e, entry_hash e, node)) <$> es) ++ l.

(** The body of the [while True] loop of [directory_build] for the item
    popped: the work list and the heap after it. *)
Definition build_step (records : gmap Z BaseRecord) (item : Z * Z * ref)
    (l' : list (Z * Z * ref)) (h : heap)
  : outcome (list (Z * Z * ref) * heap) :=
  let '(offset, hash, parent) := item in
  let! record := getrecord records offset in
  let node := length h in
  Return (match record with
          | DirectoryRecord _ _ _ _ _ _ es => push_entries es node l'
          | _ => l'
          end,
          append_child parent node
            (h ++ [mkNode [] (Some parent) record (Some hash)])).

(** The [while True] loop of [directory_build]; it ends when [l.pop()]
    raises [IndexError] on the empty list. *)
Fixpoint build_loop (fuel : nat) (records : gmap Z BaseRecord)
    (l : list (Z * Z * ref)) (h : heap) : outcome heap :=
  match l with
  | [] => Return h
  | item :: l' =>
      match fuel with
      | O => Diverge
      | S fuel' =>
          let! s := build_step records item l' h in
          build_loop fuel' records s.1 s.2
      end
  end.

(** The work list and the heap after [n] iterations of the loop (fewer
    when the list empties before). *)
Fixpoint build_iter (n : nat) (records : gmap Z BaseRecord)
    (l : list (Z * Z * ref)) (h : heap)
  : outcome (list (Z * Z * ref) * heap) :=
  match n, l with
  | S n', item :: l' =>
      let! s := build_step records item l' h in
      build_iter n' records s.1 s.2
  | _, _ => Return (l, h)
  end.

(** [GGPKFile.directory_build]: the heap after the call and the node
    returned. With [parent = None] the root is a new node, and it is what
    [self.directory] is set to. *)
Definition directory_build (fuel : nat) (records : gmap Z BaseRecord)
    (h : heap) (parent : option ref) : outcome (heap * ref) :=
  if decide (records = ∅) then Raise ParserError
  else
    let! hr :=
      match parent with
      | None =>
          let! record := build_root records in
          Return (h ++ [mkNode [] None record None], length h)
      | Some p => Return (h, p)
      end in
    let! rnd := deref hr.1 hr.2 in
    let! es := rec_entries (record rnd) in
    let! h' := build_loop fuel records (push_entries es hr.2 []) hr.1 in
    Return (h', hr.2).

(** The path of a node, as the spec words it: the names of its ancestors
    below the root and its own, joined by the separator. *)
Definition names_of (h : heap) (nodes : list ref) : outcome (list str) :=
  foldr (fun r acc => let! n := name_of h r in let! ns := acc in Return (n :: ns))
        (Return []) nodes.

Definition pathOf (fuel : nat) (h : heap) (node : ref) : outcome str :=
  let! r := get_parent_loop fuel h node (-1) None true [] in
  let! ns := names_of h r.1 in
  Return (posixpath.join ns).

(* ===================================================================== *)
(** ** Archives and trees the properties are run on                        *)
(* ===================================================================== *)

(** An archive whose root directory holds one file with an empty name. *)
Definition nameless_child_archive : bytes :=
  synth.ggpk [28; 136]%Z ++ synth.pdir "" [(7, 90)]%Z
  ++ synth.file "" [] ++ synth.free 0 0.

(** An archive whose root directory record carries a name of its own. *)
Definition named_root_archive : bytes :=
  synth.ggpk [28; 78]%Z ++ synth.pdir "Data" [] ++ synth.free 0 0.

(** Scan, then build from an empty heap. *)
Definition load (fuel : nat) (data : bytes) : outcome (heap * ref) :=
  let! records := scan fuel data in
  directory_build fuel records [] None.

(** A root and one child. *)
Definition two_nodes : heap :=
  [ mkNode [1%nat] None (DirectoryRecord 50 28 [] 1 1 0 [mkEntry 7 78]) None;
    mkNode [] (Some 0%nat) (FileRecord 46 78 [] 1 0 124 0) (Some 7%Z) ].


(* ===================================================================== *)
(** ** Notions about the record table                                      *)
(* ===================================================================== *)

(** The table holds something other than a directory at [x]. *)
Definition not_directory_at (records : gmap Z BaseRecord) (x : Z) : Prop :=
  exists r, records !! x = Some r /\ is_DirectoryRecord r = false.

(** [o'] is the offset of an entry of the directory record at [o]. *)
Definition edge (records : gmap Z BaseRecord) (o o' : Z) : Prop :=
  exists r es, records !! o = Some r /\ rec_entries r = Return es
               /\ o' ∈ entry_offset <$> es.

(** The offset chain from [o] revisits an offset: it reaches some [c]
    that leads back to itself. *)
Definition chain_revisits (records : gmap Z BaseRecord) (o : Z) : Prop :=
  exists c, rtc (edge records) o c /\ tc (edge records) c c.

(** No entry of a directory record of the table dangles. *)
Definition no_dangling (records : gmap Z BaseRecord) : Prop :=
  forall o o', edge records o o' -> is_Some (records !! o').

(** The subtree of the record at [o] has height below [n]. *)
Fixpoint unfolds_within (records : gmap Z BaseRecord) (n : nat) (o : Z)
  : Prop :=
  match n with
  | O => False
  | S n' =>
      match records !! o with
      | Some (DirectoryRecord _ _ _ _ _ _ es) =>
          Forall (fun e => unfolds_within records n' (entry_offset e)) es
      | _ => True
      end
  end.

(** A table whose second root offset dangles before the directory. *)
Definition dangling_root_table : gmap Z BaseRecord :=
  {[ 0%Z := GGPKRecord 28 0 [7; 28]%Z;
     28%Z := DirectoryRecord 50 28 [] 1 0 0 [] ]}.

(** A table whose root record lists no offset. *)
Definition empty_root_table : gmap Z BaseRecord :=
  {[ 0%Z := GGPKRecord 12 0 [];
     12%Z := DirectoryRecord 50 12 [] 1 0 0 [] ]}.

(** A table with a free record before the root directory. *)
Definition free_first_table : gmap Z BaseRecord :=
  {[ 0%Z := GGPKRecord 28 0 [28; 44]%Z;
     28%Z := FreeRecord 16 28 0;
     44%Z := DirectoryRecord 50 44 [] 1 0 0 [] ]}.

(** A table whose root directory lists itself. *)
Definition self_cycle_table : gmap Z BaseRecord :=
  {[ 0%Z := GGPKRecord 20 0 [20]%Z;
     20%Z := DirectoryRecord 62 20 [] 1 1 0 [mkEntry 5 20] ]}.

(** A table with a cycle through two directories. *)
Definition two_cycle_table : gmap Z BaseRecord :=
  {[ 0%Z := GGPKRecord 20 0 [20]%Z;
     20%Z := DirectoryRecord 62 20 [] 1 1 0 [mkEntry 5 82];
     82%Z := DirectoryRecord 64 82 (py "a") 2 1 0 [mkEntry 6 20] ]}.

(* ===================================================================== *)
(** ** The layout of a stream of records                                   *)
(* ===================================================================== *)

(** [data[o : o + n]]. *)
Definition slice (data : bytes) (o n : Z) : bytes :=
  take (Z.to_nat n) (drop (Z.to_nat o) data).

(** The little-endian signed 32-bit integer at [o]. *)
Definition i32_at (data : bytes) (o : Z) : Z :=
  struct.signed 32 (struct.le_unsigned (slice data o 4)).

(** The payload after the eight header bytes of a record of [L] bytes at
    [o] follows the layout of its tag: a count and that many offsets; a
    name length, an entry count, a digest, the name and the entries; a
    name length, a digest, the name and the data; or a pointer and
    filler. *)
Definition payload_at (data : bytes) (o L : Z) : Prop :=
  (slice data (o + 4) 4 = synth.ascii_bytes "GGPK" /\
   (0 <= i32_at data (o + 8))%Z /\
   L = (12 + 8 * i32_at data (o + 8))%Z)
  \/
  (slice data (o + 4) 4 = synth.ascii_bytes "PDIR" /\
   (1 <= i32_at data (o + 8))%Z /\ (0 <= i32_at data (o + 12))%Z /\
   L = (48 + 2 * i32_at data (o + 8) + 12 * i32_at data (o + 12))%Z /\
   exists name,
     codecs.decode_utf_16_le
       (slice data (o + 48) (2 * (i32_at data (o + 8) - 1))) = Return name)
  \/
  (slice data (o + 4) 4 = synth.ascii_bytes "FILE" /\
   (1 <= i32_at data (o + 8))%Z /\
   (44 + 2 * i32_at data (o + 8) <= L)%Z /\
   exists name,
     codecs.decode_utf_16
       (slice data (o + 44) (2 * (i32_at data (o + 8) - 1))) = Return name)
  \/
  (slice data (o + 4) 4 = synth.ascii_bytes "FREE" /\ (16 <= L)%Z).

(** A well-formed record of declared length [L] lies at [o]. *)
Definition record_at (data : bytes) (o L : Z) : Prop :=
  (0 <= o)%Z /\ (o + L <= Z.of_nat (length data))%Z /\
  i32_at data o = L /\ payload_at data o L.

(** From [o] to its end the stream is well-formed records back to back, of
    the declared lengths [ls]. *)
Inductive records_from (data : bytes) : Z -> list Z -> Prop :=
| records_end : records_from data (Z.of_nat (length data)) []
| records_next o L ls :
    record_at data o L -> records_from data (o + L) ls ->
    records_from data o (L :: ls).

(** The offsets of records of lengths [ls] laid back to back from [o]. *)
Fixpoint offsets_from (o : Z) (ls : list Z) : list Z :=
  match ls with
  | [] => []
  | L :: ls' => o :: offsets_from (o + L) ls'
  end.

(** The tags of the four record classes, as bytes. *)
Definition known_tags : list bytes :=
  synth.ascii_bytes <$> ["GGPK"; "PDIR"; "FILE"; "FREE"].

(** The error of the spec for an unrecognized tag: the [ValueError] of
    [_read_record], bare when the tag is ASCII text and as the
    [UnicodeDecodeError] of the tag's own decoding when it is not. *)
Definition UnknownRecordKind (e : exn) : Prop :=
  e = ValueError \/ e = UnicodeDecodeError ascii_codec.

(** Records of 40, 24 and 56 bytes back to back. *)
Definition three_records : bytes :=
  synth.free 0 24 ++ synth.free 0 8 ++ synth.pdir "abc" [].

(** A file record of 100 bytes with a name of five characters. *)
Definition hundred_byte_file : bytes :=
  synth.file "hello" (synth.zeros 44).

(** The errors of decoding a payload: a short read seen by [struct.unpack]
    and a name that is not UTF-16. *)
Definition payload_error (e : exn) : Prop :=
  e = struct_error \/ e = UnicodeDecodeError utf_16
  \/ e = UnicodeDecodeError utf_16_le.

(** [c] raises nothing outside [P]. *)
Definition raises_only {A} (P : exn -> Prop) (c : io A) : Prop :=
  forall f e, c f = Raise e -> P e.

(** A cursor on a record with an unknown tag, and one on a file record
    whose name is cut short by the end of the buffer. *)
Definition unknown_tag_buffer : BytesIO :=
  mkBytesIO (synth.le 4 16 ++ synth.ascii_bytes "JUNK" ++ synth.zeros 8) 0.

Definition short_file_buffer : BytesIO :=
  mkBytesIO (synth.le 4 60 ++ synth.ascii_bytes "FILE" ++ synth.le 4 6
             ++ synth.zeros 32 ++ [x68; x00; x69]) 0.

(* ===================================================================== *)
(** ** Notions about the node heap                                         *)
(* ===================================================================== *)

(** [c] is among the children of [p]. *)
Definition child (h : heap) (p c : ref) : Prop :=
  exists nd, h !! p = Some nd /\ c ∈ children nd.

(** The heap is a forest: children are allocated after their parent and
    point back to it, no child is listed twice, and a node with a parent
    is among that parent's children. *)
Record tree_heap (h : heap) : Prop := mkTreeHeap {
  th_child : forall p nd c,
    h !! p = Some nd -> c ∈ children nd ->
    (p < c)%nat /\ exists cd, h !! c = Some cd /\ parent cd = Some p;
  th_nodup : forall p nd, h !! p = Some nd -> NoDup (children nd);
  th_parent : forall c cd p,
    h !! c = Some cd -> parent cd = Some p ->
    exists nd, h !! p = Some nd /\ c ∈ children nd
}.

(** [cs] is the chain of nodes from a child of [r] down to [x]. *)
Fixpoint linked (h : heap) (r : ref) (cs : list ref) (x : ref) : Prop :=
  match cs with
  | [] => x = r
  | c :: cs' => child h r c /\ linked h c cs' x
  end.

(** The nodes below [r] and [r] itself, in the order [search] and [walk]
    pop them; [k] bounds the depth. *)
Fixpoint subtree (k : nat) (h : heap) (r : ref) : list ref :=
  match k with
  | O => []
  | S k' =>
      match h !! r with
      | None => []
      | Some nd => r :: flat_map (subtree k' h) (reverse (children nd))
      end
  end.

(** The test of [search] on the node behind a reference. *)
Definition hits (matches : str -> bool)
    (search_files search_directories : bool) (h : heap) (x : ref) : bool :=
  match h !! x with
  | Some nd =>
      match search_hit matches search_files search_directories nd with
      | Return b => b
      | _ => false
      end
  | None => false
  end.

(** Names fit for paths: every node has a display name without the
    separator, and the children of a node have distinct display names. *)
Definition well_named (h : heap) : Prop :=
  (forall x nd, h !! x = Some nd ->
                exists n, _get_name nd = Return n /\ posixpath.sep ∉ n) /\
  (forall p nd c1 c2,
      h !! p = Some nd -> c1 ∈ children nd -> c2 ∈ children nd ->
      name_of h c1 = name_of h c2 -> c1 = c2).

(** [s] starts with [prefix]: [re.search('^' + prefix, s)] for a prefix
    of ordinary characters. *)
Fixpoint starts_with (prefix s : str) : bool :=
  match prefix, s with
  | [], _ => true
  | a :: prefix', b :: s' => if decide (a = b) then starts_with prefix' s' else false
  | _ :: _, [] => false
  end.

(** An archive with the files [AbstractRing.ot] and [AbstractAmulet.ot],
    the directory [AbstractStuff] and the file [Ring.ot] inside it. *)
Definition abstract_archive : bytes :=
  synth.ggpk [28; 420]%Z
  ++ synth.pdir "" [(1, 114); (2, 192); (3, 272)]%Z
  ++ synth.file "AbstractRing.ot" (synth.zeros 2)
  ++ synth.file "AbstractAmulet.ot" []
  ++ synth.pdir "AbstractStuff" [(4, 360)]%Z
  ++ synth.file "Ring.ot" []
  ++ synth.free 0 0.

(** The tree of [abstract_archive]. *)
Definition abstract_tree : heap :=
  match load 8 abstract_archive with
  | Return hr => hr.1
  | _ => []
  end.

(** Path segments: not empty and without the separator. *)
Definition segment (n : str) : Prop := n <> [] /\ posixpath.sep ∉ n.

(** An archive with a directory inside the root and files at both
    levels, all with different names. *)
Definition nested_archive : bytes :=
  synth.ggpk [28; 286]%Z
  ++ synth.pdir "" [(1, 102); (2, 230)]%Z
  ++ synth.pdir "Art" [(3, 170)]%Z
  ++ synth.file "a.dds" (synth.zeros 4)
  ++ synth.file "b.dds" []
  ++ synth.free 0 0.

(** The tree of [nested_archive]. *)
Definition nested_tree : heap :=
  match load 8 nested_archive with
  | Return hr => hr.1
  | _ => []
  end.

(** The table of [nested_archive]. *)
Definition nested_records : gmap Z BaseRecord :=
  match scan 8 nested_archive with
  | Return records => records
  | _ => ∅
  end.

(* ===================================================================== *)
(** ** More of the reader: tags, views, [walk], [extract], the container   *)
(* ===================================================================== *)

(** The class attribute [tag] of a record. *)
Definition tag (r : BaseRecord) : str :=
  match r with
  | GGPKRecord _ _ _ => py "GGPK"
  | DirectoryRecord _ _ _ _ _ _ _ => py "PDIR"
  | FileRecord _ _ _ _ _ _ _ => py "FILE"
  | FreeRecord _ _ _ => py "FREE"
  end.




(** The loop of [DirectoryNode.walk]. The result is the sequence of the
    calls of [function], each with the node and the depth of the dict it
    was given; [q] is a stack. *)
Fixpoint walk_loop (fuel : nat) (h : heap) (q : list (ref * Z))
    (calls : list (ref * Z)) : outcome (list (ref * Z)) :=
  match q with
  | [] => Return calls
  | data :: q' =>
      match fuel with
      | O => Diverge
      | S fuel' =>
          let! nd := deref h data.1 in
          walk_loop fuel' h
            (reverse ((fun c => (c, (data.2 + 1)%Z)) <$> children nd) ++ q')
            (calls ++ [data])
      end
  end.

(** [DirectoryNode.walk]. *)
Definition walk (fuel : nat) (h : heap) (self : ref)
  : outcome (list (ref * Z)) :=
  walk_loop fuel h [(self, 0%Z)] [].

(** [f.seek(k)] from the start: a negative position is refused. *)
Definition seek_set (k : Z) : io Z := fun f =>
  if (k <? 0)%Z then Raise ValueError
  else Return (k, mkBytesIO (getvalue f) k).

(** [FileRecord.extract(buffer)] with a buffer given: the memory file
    returned, positioned at its start. Only file records have the
    method. *)
Definition extract (r : BaseRecord) : io BytesIO :=
  match r with
  | FileRecord _ _ _ _ _ data_start data_length =>
      do_ seek_set data_start;
      do b <- BytesIO_.read data_length;
      ret (mkBytesIO b 0)
  | _ => lift (Raise AttributeError)
  end.

(** The attributes of a [GGPKFile] that the reader sets. *)
Record GGPKFile : Type := mkGGPKFile {
  directory : option ref;
  records : gmap Z BaseRecord
}.

(** [GGPKFile.__init__]. *)
Definition GGPKFile_new : GGPKFile := mkGGPKFile None ∅.

(** [GGPKFile._is_parsed]. *)
Definition _is_parsed (self : GGPKFile) : bool :=
  match directory self with Some _ => true | None => false end.

(** [GGPKFile.__getitem__]. *)
Definition GGPKFile_getitem (fuel : nat) (h : heap) (self : GGPKFile)
    (item : str) : outcome (option ref) :=
  match directory self with
  | None => Raise ValueError
  | Some d =>
      if decide (item = py "ROOT") then Return (Some d)
      else __getitem__ fuel h d item
  end.

(** [GGPKFile._read] and then [GGPKFile.directory_build()] on a new
    container with an empty heap: the container and the heap after
    them. *)
Definition GGPKFile_load (fuel : nat) (data : bytes)
  : outcome (GGPKFile * heap) :=
  let! rs := scan fuel data in
  let! hr := directory_build fuel rs [] None in
  Return (mkGGPKFile (Some hr.2) rs, hr.1).

(** [c] leaves the bytes of the buffer alone and keeps its position from
    going below zero. *)
Definition keeps_buffer {A} (c : io A) : Prop :=
  forall f a f',
    c f = Return (a, f') ->
    getvalue f' = getvalue f /\ ((0 <= pos f)%Z -> (0 <= pos f')%Z).

(** What the table says at key [k] of a scan of [data]: the key is a
    position inside the buffer, the record carries it as its offset, the
    record's length is the integer read there, and its class is the one of
    the tag read after it. *)
Definition entry_sound (data : bytes) (k : Z) (r : BaseRecord) : Prop :=
  (0 <= k < Z.of_nat (length data))%Z /\
  rec_offset r = k /\
  rec_length r = i32_at data k /\
  codecs.decode_ascii (slice data (k + 4) 4) = Return (tag r).

(** The table of [abstract_archive]. *)
Definition abstract_records : gmap Z BaseRecord :=
  match scan 8 abstract_archive with
  | Return rs => rs
  | _ => ∅
  end.

(** From [o] to [o'] the stream is well-formed records back to back, of
    the declared lengths [ls]. *)
Inductive records_between (data : bytes) : Z -> list Z -> Z -> Prop :=
| between_nil o : records_between data o [] o
| between_cons o L ls o' :
    record_at data o L -> records_between data (o + L) ls o' ->
    records_between data o (L :: ls) o'.

(** At [o] lies the head of a free record or of a file record that
    declares the length [L], whatever [L] is: the header, and for a free
    record the pointer, for a file record the name length, the digest and
    a name that decodes, are inside the buffer. *)
Definition skippable_at (data : bytes) (o L : Z) : Prop :=
  (0 <= o)%Z /\ i32_at data o = L /\
  ((slice data (o + 4) 4 = synth.ascii_bytes "FREE" /\
    (o + 16 <= Z.of_nat (length data))%Z)
   \/
   (slice data (o + 4) 4 = synth.ascii_bytes "FILE" /\
    (1 <= i32_at data (o + 8))%Z /\
    (o + 44 + 2 * (i32_at data (o + 8) - 1) <= Z.of_nat (length data))%Z /\
    exists name,
      codecs.decode_utf_16
        (slice data (o + 44) (2 * (i32_at data (o + 8) - 1))) = Return name)).

(** A free record that declares the length 0, after a well-formed one. *)
Definition zero_length_stream : bytes :=
  synth.free 0 8
  ++ synth.le 4 0 ++ synth.ascii_bytes "FREE" ++ synth.le 8 0.

(** A file record that declares 1000 bytes in a buffer that ends after
    its name, behind a well-formed free record. *)
Definition truncated_stream : bytes :=
  synth.free 0 0
  ++ synth.le 4 1000 ++ synth.ascii_bytes "FILE" ++ synth.le 4 3
  ++ synth.zeros 32 ++ synth.utf16z "ab".

(** A cursor behind the header of a directory record with two entries,
    and one behind the header of a directory record whose name length
    is 0. *)
Definition two_entry_cursor : BytesIO :=
  mkBytesIO (synth.pdir "ab" [(1, 100); (2, 200)]%Z) 8.

Definition zero_name_cursor : BytesIO :=
  mkBytesIO (synth.le 4 52 ++ synth.ascii_bytes "PDIR" ++ synth.le 4 0
             ++ synth.le 4 0 ++ synth.zeros 32 ++ [x41; x00; x42; x00]) 8.

(* ===================================================================== *)
(** ** Notions about what [directory_build] builds                         *)
(* ===================================================================== *)

(** The entries [directory_build] pushes for a record: those of a
    directory record, none for a record of another class. *)
Definition entries_of (r : BaseRecord) : list DirectoryRecordEntry :=
  match r with
  | DirectoryRecord _ _ _ _ _ _ es => es
  | _ => []
  end.

(** The node [c] is the one built for the entry [e] of the node [x]: it
    wraps the record the table has at the entry's offset, carries the
    entry's hash and points back to [x]. *)
Definition mirrors (records : gmap Z BaseRecord) (h : heap) (x c : ref)
    (e : DirectoryRecordEntry) : Prop :=
  exists cd,
    h !! c = Some cd /\
    records !! entry_offset e = Some (record cd) /\
    hash cd = Some (entry_hash e) /\
    parent cd = Some x.

(** The work list item of an entry of the node [x]. *)
Definition item_of (x : ref) (e : DirectoryRecordEntry) : Z * Z * ref :=
  (entry_offset e, entry_hash e, x).

(** The items of the work list that belong to the node [x]. *)
Definition pend (x : ref) (l : list (Z * Z * ref)) : list (Z * Z * ref) :=
  filter (fun it => it.2 = x) l.

(** The children [x] had in the heap [hs]. *)
Definition oldc (hs : heap) (x : ref) : list ref :=
  match hs !! x with
  | Some nd => children nd
  | None => []
  end.

(** The state of the loop of [directory_build] that started on the heap
    [hs] for the node [p0]: nodes of [hs] other than [p0] are as they
    were; for [p0] and for every new node the entries of its record, last
    entry first, are those already built as children followed by those
    still on the work list. *)
Definition build_inv (records : gmap Z BaseRecord) (hs : heap) (p0 : ref)
    (l : list (Z * Z * ref)) (h : heap) : Prop :=
  (length hs <= length h)%nat /\
  Forall (fun it => (it.2 < length h)%nat /\
                    (it.2 = p0 \/ (length hs <= it.2)%nat)) l /\
  (forall i, (i < length hs)%nat -> i <> p0 -> h !! i = hs !! i) /\
  (forall x nd,
      x = p0 \/ (length hs <= x)%nat -> h !! x = Some nd ->
      exists done todo newc,
        reverse (entries_of (record nd)) = done ++ todo /\
        pend x l = item_of x <$> todo /\
        children nd = oldc hs x ++ newc /\
        Forall2 (mirrors records h x) newc done /\
        Forall (fun c => (length hs <= c)%nat) newc).

(** The number of nodes [directory_build] makes for the entry at offset
    [o], when every entry below it resolves and the nesting is less than
    [n] deep. *)
Fixpoint tree_size (records : gmap Z BaseRecord) (n : nat) (o : Z)
  : option nat :=
  match n with
  | O => None
  | S n' =>
      match records !! o with
      | None => None
      | Some r =>
          match mapM (fun e => tree_size records n' (entry_offset e))
                  (entries_of r) with
          | Some sizes => Some (S (sum_list sizes))
          | None => None
          end
      end
  end.

(** The calls [walk] makes for [r] at depth [d] and for the nodes below
    it, in order; [k] bounds the depth. *)
Fixpoint walk_order (k : nat) (h : heap) (r : ref) (d : Z)
  : list (ref * Z) :=
  match k with
  | O => []
  | S k' =>
      match h !! r with
      | None => []
      | Some nd =>
          (r, d) :: flat_map (fun c => walk_order k' h c (d + 1))
                      (reverse (children nd))
      end
  end.


(** A table whose root directory lists a free record and then a file. *)
Definition free_entry_table : gmap Z BaseRecord :=
  {[ 0%Z := GGPKRecord 20 0 [20]%Z;
     20%Z := DirectoryRecord 74 20 [] 1 2 0 [mkEntry 5 94; mkEntry 6 110];
     94%Z := FreeRecord 16 94 0;
     110%Z := FileRecord 50 110 (py "a") 2 0 158 2 ]}.

(** The tree of [free_entry_table]. *)
Definition free_entry_tree : heap :=
  match directory_build 4 free_entry_table [] None with
  | Return hr => hr.1
  | _ => []
  end.

(** The little-endian unsigned 32-bit and signed 64-bit integers at
    [o]. *)
Definition u32_at (data : bytes) (o : Z) : Z :=
  struct.le_unsigned (slice data o 4).

Definition i64_at (data : bytes) (o : Z) : Z :=
  struct.signed 64 (struct.le_unsigned (slice data o 8)).

(** The directory entry whose twelve bytes start at [o]: the hash and
    then the offset. *)
Definition entry_at (data : bytes) (o : Z) : DirectoryRecordEntry :=
  mkEntry (u32_at data o) (i64_at data (o + 4)).

(* ===================================================================== *)
(** * Properties                                                           *)
(* ===================================================================== *)

(** ** Outcomes *)

Lemma obind_Return {A B} (c : outcome A) (k : A -> outcome B) (b : B) :
  obind c k = Return b -> exists a, c = Return a /\ k a = Return b.
Proof. destruct c; simpl; intros H; try discriminate. eauto. Qed.

Lemma bind_Return {A B} (c : io A) (k : A -> io B) f b f' :
  bind c k f = Return (b, f') ->
  exists a f1, c f = Return (a, f1) /\ k a f1 = Return (b, f').
Proof.
  unfold bind. destruct (c f) as [[a f1]| |]; intros H; try discriminate.
  eauto.
Qed.

Lemma lift_Return {A} (o : outcome A) f a f' :
  lift o f = Return (a, f') -> o = Return a /\ f' = f.
Proof. destruct o; simpl; intros H; inversion H; auto. Qed.

(* ===================================================================== *)
(** ** Path lookup on the empty path                                       *)
(* ===================================================================== *)

(** C10. Indexing a node with the empty string returns the node itself:
    the first loop of [__getitem__] does not run, the path has no segment
    and the walk returns [self]. *)
Theorem getitem_empty_path (fuel : nat) (h : heap) (self : ref) :
  __getitem__ fuel h self (py "") = Return (Some self).
Proof. destruct fuel; reflexivity. Qed.

(* ===================================================================== *)
(** ** The display name                                                    *)
(* ===================================================================== *)

(** C6, as stated, fails: in the tree of [nameless_child_archive] node 1
    has the root as its parent and an empty record name, and displays
    ["ROOT"]; the root of [named_root_archive] has no parent and displays
    ["Data"]. *)
Lemma display_name_not_by_parent :
  (exists h root nd,
      load 8 nameless_child_archive = Return (h, root) /\
      h !! 1%nat = Some nd /\ parent nd = Some root /\
      rec_name (record nd) = Return (py "") /\
      _get_name nd = Return (py "ROOT")) /\
  (exists h root nd,
      load 8 named_root_archive = Return (h, root) /\
      h !! root = Some nd /\ parent nd = None /\
      _get_name nd = Return (py "Data")).
Proof.
  split.
  - vm_compute. do 3 eexists. repeat split; reflexivity.
  - vm_compute. do 3 eexists. repeat split; reflexivity.
Qed.

(** C6, amended. The display name depends on the record alone: it is the
    record's decoded name when that is not empty and ["ROOT"] when it is
    empty, whatever the parent; so it is ["ROOT"] exactly when the record's
    name is empty or is ["ROOT"] itself. A node wrapping a record without a
    name (a GGPK or a free record) has no display name. *)
Theorem display_name_by_record (nd : DirectoryNode) :
  (forall n, rec_name (record nd) = Return n -> n <> [] ->
             _get_name nd = Return n) /\
  (rec_name (record nd) = Return [] -> _get_name nd = Return (py "ROOT")) /\
  (forall n, _get_name nd = Return n ->
             (n = py "ROOT" <->
              rec_name (record nd) = Return []
              \/ rec_name (record nd) = Return (py "ROOT"))) /\
  (is_DirectoryRecord (record nd) = false ->
   is_FileRecord (record nd) = false ->
   _get_name nd = Raise AttributeError).
Proof.
  unfold _get_name.
  destruct (record nd) as [l o os|l o n nl el hs es|l o n nl hs ds dl|l o nf];
    simpl.
  1, 4: repeat split; intros; simplify_eq; done.
  all: destruct n as [|c n]; repeat split; intros; simplify_eq; try done.
  all: try (by left).
  all: try (by right).
  all: match goal with H : _ \/ _ |- _ => destruct H; by simplify_eq end.
Qed.

(* ===================================================================== *)
(** ** [get_parent]                                                        *)
(* ===================================================================== *)

(** C7. The docstring of [get_parent] promises the list
    [[n-th parent, ..., self]]; the loop stops before it inserts the node
    it stops at, so the list lacks that ancestor. With [n = 0] the list is
    empty for every node; one link up from a node with a parent it is
    [[self]], while without [make_list] the parent itself comes back. On
    [two_nodes], from the child of the root: [[self]] instead of
    [[root, self]] for [n = 1] and for [n = -1]. *)
Theorem get_parent_list_lacks_ancestor :
  (forall fuel (h : heap) self,
      get_parent fuel h self 0 None true = Return (inl [])) /\
  (forall fuel (h : heap) self nd p,
      h !! self = Some nd -> parent nd = Some p ->
      get_parent (S fuel) h self 1 None true = Return (inl [self]) /\
      get_parent (S fuel) h self 1 None false = Return (inr p)) /\
  get_parent 4 two_nodes 1%nat 1 None true = Return (inl [1%nat]) /\
  get_parent 4 two_nodes 1%nat (-1) None true = Return (inl [1%nat]) /\
  get_parent 4 two_nodes 1%nat 0 None true = Return (inl []) /\
  get_parent 4 two_nodes 1%nat 1 None false = Return (inr 0%nat).
Proof.
  split; [|split].
  - intros fuel h self. by destruct fuel.
  - intros fuel h self nd p Hnd Hp. unfold get_parent. simpl.
    unfold deref. rewrite Hnd. simpl. rewrite Hp. simpl.
    split; by destruct fuel.
  - repeat split; reflexivity.
Qed.

(* ===================================================================== *)
(** ** The directory builder                                               *)
(* ===================================================================== *)

Lemma lookup_append_child_eq (p c : ref) (h : heap) :
  append_child p c h !! p =
  (fun nd => mkNode (children nd ++ [c]) (parent nd) (record nd) (hash nd))
    <$> h !! p.
Proof. unfold append_child. by rewrite list_lookup_alter_eq. Qed.

Lemma lookup_append_child_ne (p c : ref) (h : heap) (i : ref) :
  i <> p -> append_child p c h !! i = h !! i.
Proof. intros. unfold append_child. by rewrite list_lookup_alter_ne. Qed.

Lemma length_append_child (p c : ref) (h : heap) :
  length (append_child p c h) = length h.
Proof. unfold append_child. apply length_alter. Qed.

Lemma build_step_Return records item l h l1 h1 :
  build_step records item l h = Return (l1, h1) ->
  exists r,
    records !! item.1.1 = Some r /\
    l1 = match r with
         | DirectoryRecord _ _ _ _ _ _ es => push_entries es (length h) l
         | _ => l
         end /\
    h1 = append_child item.2 (length h)
           (h ++ [mkNode [] (Some item.2) r (Some item.1.2)]).
Proof.
  destruct item as [[o hs] p]. unfold build_step, getrecord. simpl.
  destruct (records !! o) as [r|]; simpl; intros H; simplify_eq. eauto.
Qed.

Lemma build_step_Raise records item l h e :
  build_step records item l h = Raise e ->
  e = KeyError /\ records !! item.1.1 = None.
Proof.
  destruct item as [[o hs] p]. unfold build_step, getrecord. simpl.
  destruct (records !! o) as [r|]; simpl; intros H; by simplify_eq.
Qed.

Lemma build_step_not_Diverge records item l h :
  build_step records item l h <> Diverge.
Proof.
  destruct item as [[o hs] p]. unfold build_step, getrecord. simpl.
  by destruct (records !! o).
Qed.

(** The fields of a node other than [children] are never written again,
    and no node is removed. *)
Lemma build_step_preserves records item l h l1 h1 i nd :
  build_step records item l h = Return (l1, h1) ->
  h !! i = Some nd ->
  exists nd', h1 !! i = Some nd' /\ record nd' = record nd
              /\ parent nd' = parent nd /\ hash nd' = hash nd.
Proof.
  intros (r & _ & _ & ->)%build_step_Return Hi.
  assert ((h ++ [mkNode [] (Some item.2) r (Some item.1.2)]) !! i = Some nd)
    as Hi'.
  { rewrite lookup_app_l by (by eapply lookup_lt_Some). done. }
  destruct (decide (i = item.2)) as [->|Hne].
  - rewrite lookup_append_child_eq, Hi'. simpl. eauto.
  - rewrite lookup_append_child_ne by done. eauto.
Qed.

Lemma build_loop_preserves fuel records l h h' i nd :
  build_loop fuel records l h = Return h' ->
  h !! i = Some nd ->
  exists nd', h' !! i = Some nd' /\ record nd' = record nd
              /\ parent nd' = parent nd /\ hash nd' = hash nd.
Proof.
  revert l h nd. induction fuel as [|fuel IH]; intros l h nd.
  - destruct l; simpl; intros H Hi; simplify_eq. eauto.
  - destruct l as [|item l]; simpl; intros H Hi; simplify_eq; [eauto|].
    apply obind_Return in H as ([l1 h1] & Hs & H). simpl in H.
    destruct (build_step_preserves _ _ _ _ _ _ _ _ Hs Hi)
      as (nd1 & Hi1 & E1 & E2 & E3).
    destruct (IH _ _ _ H Hi1) as (nd' & ? & ? & ? & ?).
    exists nd'. repeat split; congruence.
Qed.

(** The loop raises nothing but [KeyError]. *)
Lemma build_loop_Raise fuel records l h e :
  build_loop fuel records l h = Raise e -> e = KeyError.
Proof.
  revert l h. induction fuel as [|fuel IH]; intros l h.
  - destruct l; simpl; intros H; simplify_eq.
  - destruct l as [|item l]; simpl; intros H; simplify_eq.
    destruct (build_step records item l h) as [[l1 h1]|e1|] eqn:Hs;
      simpl in H; simplify_eq.
    + eauto.
    + by apply build_step_Raise in Hs as [-> _].
Qed.

(** *** The choice of the root *)

Lemma root_scan_first_directory records pre o post d rec0 :
  Forall (not_directory_at records) pre ->
  records !! o = Some d -> is_DirectoryRecord d = true ->
  root_scan records (pre ++ o :: post) rec0 = Return (Some d).
Proof.
  intros Hpre Ho Hd. revert rec0.
  induction Hpre as [|x pre (r & Hx & Hr) _ IH]; intros rec0; simpl.
  - unfold getrecord. rewrite Ho. simpl. by rewrite Hd.
  - unfold getrecord. rewrite Hx. simpl. rewrite Hr. apply IH.
Qed.

Lemma root_scan_no_directory records offsets rec0 :
  Forall (not_directory_at records) offsets ->
  exists last,
    root_scan records offsets rec0 = Return last /\
    (offsets = [] -> last = rec0) /\
    (offsets <> [] -> exists r, last = Some r /\ is_DirectoryRecord r = false).
Proof.
  intros H. revert rec0.
  induction H as [|x rest (r & Hx & Hr) Hrest IH]; intros rec0; simpl.
  - exists rec0. repeat split; done.
  - unfold getrecord. rewrite Hx. simpl. rewrite Hr.
    destruct (IH (Some r)) as (last & E & Hnil & Hcons).
    exists last. split; [done|]. split; [done|]. intros _.
    destruct rest as [|y rest'].
    + rewrite Hnil by done. eauto.
    + apply Hcons. done.
Qed.

Lemma directory_build_root fuel records h h' root d :
  build_root records = Return d ->
  directory_build fuel records h None = Return (h', root) ->
  root = length h /\
  exists nd, h' !! root = Some nd /\ record nd = d /\ parent nd = None.
Proof.
  intros Hd. unfold directory_build. case_decide as Hempty; [done|].
  rewrite Hd. simpl. unfold deref.
  rewrite lookup_app_r, Nat.sub_diag by lia. simpl.
  intros H. apply obind_Return in H as (es & _ & H).
  apply obind_Return in H as (h1 & Hloop & H). simplify_eq.
  split; [done|].
  destruct (build_loop_preserves _ _ _ _ _ (length h)
              (mkNode [] None d None) Hloop) as (nd & ? & ? & ? & _).
  { by rewrite lookup_app_r, Nat.sub_diag by lia. }
  eauto.
Qed.

(** C5, as stated, fails: in [dangling_root_table] the first root offset
    with a directory behind it is 28, but the offset 7 before it has no
    entry and the build stops there with [KeyError]; and on
    [empty_root_table], whose root record lists no offset at all, it stops
    with [UnboundLocalError] instead of the parser's error. *)
Lemma root_choice_needs_resolving_offsets :
  build_root dangling_root_table = Raise KeyError /\
  directory_build 8 dangling_root_table [] None = Raise KeyError /\
  directory_build 8 empty_root_table [] None = Raise UnboundLocalError.
Proof. repeat split; vm_compute; reflexivity. Qed.

(** C5, amended. On a table whose record at offset 0 is a GGPK record:
    when the root offsets before the first one with a directory behind it
    all have an entry in the table, the root node wraps the record at that
    first offset; and when there is at least one root offset, all of them
    have an entry and none is a directory, the build fails with
    [ParserError]. *)
Theorem root_is_first_directory records length offset offsets :
  records !! 0%Z = Some (GGPKRecord length offset offsets) ->
  (forall pre o post d,
      offsets = pre ++ o :: post ->
      Forall (not_directory_at records) pre ->
      records !! o = Some d -> is_DirectoryRecord d = true ->
      build_root records = Return d /\
      forall fuel h h' root,
        directory_build fuel records h None = Return (h', root) ->
        root = List.length h /\
        exists nd, h' !! root = Some nd /\ record nd = d /\ parent nd = None)
  /\
  (offsets <> [] -> Forall (not_directory_at records) offsets ->
   forall fuel h, directory_build fuel records h None = Raise ParserError).
Proof.
  intros H0. split.
  - intros pre o post d -> Hpre Ho Hd.
    assert (build_root records = Return d) as Hroot.
    { unfold build_root, getrecord. rewrite H0. simpl.
      rewrite (root_scan_first_directory _ _ _ _ d) by done. simpl.
      by rewrite Hd. }
    split; [done|]. intros fuel h h' root. by apply directory_build_root.
  - intros Hne Hall fuel h. unfold directory_build.
    case_decide as Hempty; [done|].
    unfold build_root, getrecord. rewrite H0. simpl.
    destruct (root_scan_no_directory records offsets None Hall)
      as (last & -> & _ & Hlast).
    destruct (Hlast Hne) as (r & -> & Hr). simpl. by rewrite Hr.
Qed.

(** The root of [free_first_table] is the directory at 44, behind the free
    record at 28. *)
Lemma root_is_first_directory_witness :
  build_root free_first_table = Return (DirectoryRecord 50 44 [] 1 0 0 []) /\
  directory_build 4 free_first_table [] None
  = Return ([mkNode [] None (DirectoryRecord 50 44 [] 1 0 0 []) None], 0%nat).
Proof.
  pose proof (root_is_first_directory free_first_table 28 0 [28; 44]%Z
                eq_refl) as [H _].
  destruct (H [28%Z] 44%Z [] (DirectoryRecord 50 44 [] 1 0 0 []) eq_refl)
    as [Hroot _].
  - repeat constructor. exists (FreeRecord 16 28 0). split; reflexivity.
  - reflexivity.
  - reflexivity.
  - split; [exact Hroot | reflexivity].
Defined.

(** *** Reference cycles *)

Lemma unfolds_within_mono records n o :
  unfolds_within records n o -> unfolds_within records (S n) o.
Proof.
  revert o. induction n as [|n IH]; intros o; [done|].
  intros H. simpl in H |- *.
  destruct (records !! o) as [[| l f nm nl el hs es | |]|]; try done.
  eapply Forall_impl; [exact H|]. intros e He. by apply IH.
Qed.

Lemma unfolds_within_edge records n o o' :
  edge records o o' -> unfolds_within records (S n) o ->
  unfolds_within records n o'.
Proof.
  intros (r & es & Hr & Hes & Hin) H. simpl in H. rewrite Hr in H.
  destruct r; simpl in Hes; simplify_eq.
  apply list_elem_of_fmap in Hin as (e & -> & He).
  rewrite Forall_forall in H. by apply H.
Qed.

Lemma cycle_never_unfolds records c n :
  tc (edge records) c c -> ~ unfolds_within records n c.
Proof.
  revert c. induction n as [|n IH]; intros c Hc; [simpl; tauto|].
  intros H. inversion Hc as [? ? Hcc|? y ? Hcy Hyc]; subst.
  - eapply IH; [exact Hc|]. by eapply unfolds_within_edge.
  - apply (IH y).
    + eapply tc_r; eauto.
    + by eapply unfolds_within_edge.
Qed.

Lemma revisiting_never_unfolds records o n :
  chain_revisits records o -> ~ unfolds_within records n o.
Proof.
  intros (c & Hoc & Hc). revert n.
  induction Hoc as [c|o o1 c Hedge _ IH]; intros n.
  - by apply cycle_never_unfolds.
  - intros H. destruct n as [|n]; [done|].
    apply (IH Hc n). by eapply unfolds_within_edge.
Qed.

(** When the loop finishes within [fuel] iterations, the record behind
    every item of the work list unfolds to a tree of height below [fuel]. *)
Lemma build_loop_Return_unfolds fuel records l h h' :
  build_loop fuel records l h = Return h' ->
  Forall (fun it => unfolds_within records fuel it.1.1) l.
Proof.
  revert l h. induction fuel as [|fuel IH]; intros l h.
  - destruct l; simpl; intros H; simplify_eq. constructor.
  - destruct l as [|item l]; simpl; intros H; [constructor|].
    apply obind_Return in H as ([l1 h1] & Hs & H). simpl in H.
    apply IH in H.
    apply build_step_Return in Hs as (r & Hr & -> & _).
    assert (Forall (fun it => unfolds_within records fuel it.1.1) l) as Hl.
    { destruct r; try done. unfold push_entries in H.
      by apply Forall_app in H as [_ H]. }
    constructor.
    + simpl. rewrite Hr. destruct r as [| lg f nm nl el hs es | |]; try done.
      unfold push_entries in H. apply Forall_app in H as [H _].
      rewrite Forall_reverse, Forall_fmap in H.
      eapply Forall_impl; [exact H|]. by intros e He.
    + eapply Forall_impl; [exact Hl|]. intros it. apply unfolds_within_mono.
Qed.

(** With no dangling entry the loop never raises. *)
Lemma build_loop_no_dangling fuel records l h e :
  no_dangling records ->
  Forall (fun it => is_Some (records !! it.1.1)) l ->
  build_loop fuel records l h <> Raise e.
Proof.
  intros Hnd. revert l h. induction fuel as [|fuel IH]; intros l h Hl.
  - by destruct l.
  - destruct l as [|item l]; simpl; [done|].
    apply Forall_cons in Hl as [[r Hr] Hl].
    destruct (build_step records item l h) as [[l1 h1]|e1|] eqn:Hs; simpl.
    + apply IH.
      apply build_step_Return in Hs as (r' & Hr' & -> & _).
      destruct r' as [| lg f nm nl el hs es | |]; try done.
      unfold push_entries. apply Forall_app. split; [|done].
      rewrite Forall_reverse, Forall_fmap. apply Forall_forall.
      intros en Hen. simpl. apply (Hnd item.1.1).
      exists (DirectoryRecord lg f nm nl el hs es), es.
      repeat split; [done|]. by apply list_elem_of_fmap_2.
    + apply build_step_Raise in Hs as [_ Hs]. by rewrite Hs in Hr.
    + by apply build_step_not_Diverge in Hs.
Qed.

(** Each iteration allocates one node and, on a table without dangling
    entries whose work list holds an offset on a revisiting chain, leaves
    the work list non-empty. *)
Lemma build_iter_length n records l h l' h' :
  build_iter n records l h = Return (l', h') ->
  l' <> [] -> length h' = (length h + n)%nat.
Proof.
  revert l h. induction n as [|n IH]; intros l h.
  - simpl. intros H; simplify_eq. lia.
  - destruct l as [|item l]; simpl; intros H Hne; simplify_eq.
    apply obind_Return in H as ([l1 h1] & Hs & H). simpl in H.
    rewrite (IH _ _ H Hne).
    apply build_step_Return in Hs as (r & _ & _ & ->).
    rewrite length_append_child, length_app. simpl. lia.
Qed.

Lemma build_loop_iter fuel records l h :
  build_loop fuel records l h =
  let! s := build_iter fuel records l h in
  match s.1 with [] => Return s.2 | _ => Diverge end.
Proof.
  revert l h. induction fuel as [|fuel IH]; intros l h.
  - by destruct l.
  - destruct l as [|item l]; simpl; [done|].
    destruct (build_step records item l h) as [[l1 h1]|e1|]; simpl; [|done..].
    apply IH.
Qed.

(** The entries of the root found by [build_root] and the start of the
    loop, for the statements below. *)
Lemma directory_build_unfold fuel records h d :
  build_root records = Return d ->
  exists es,
    rec_entries d = Return es /\
    directory_build fuel records h None =
    let! h' := build_loop fuel records (push_entries es (length h) [])
                 (h ++ [mkNode [] None d None]) in
    Return (h', length h).
Proof.
  intros Hd. unfold directory_build.
  assert (records <> ∅) as Hne.
  { intros ->. unfold build_root, getrecord in Hd.
    by rewrite lookup_empty in Hd. }
  case_decide; [done|]. rewrite Hd. simpl.
  unfold deref. rewrite lookup_app_r, Nat.sub_diag by lia. simpl.
  assert (is_DirectoryRecord d = true) as Hdir.
  { unfold build_root in Hd.
    apply obind_Return in Hd as (g & _ & Hd).
    apply obind_Return in Hd as (os & _ & Hd).
    apply obind_Return in Hd as ([r|] & _ & Hd); [|done].
    destruct (is_DirectoryRecord r) eqn:E; by simplify_eq. }
  destruct d; try done. simpl. eauto.
Qed.

Lemma directory_build_revisiting records d es o fuel h :
  build_root records = Return d ->
  rec_entries d = Return es -> o ∈ entry_offset <$> es ->
  chain_revisits records o ->
  (directory_build fuel records h None = Diverge
   \/ directory_build fuel records h None = Raise KeyError) /\
  (no_dangling records -> is_Some (records !! o) ->
   (forall e, e ∈ es -> is_Some (records !! entry_offset e)) ->
   directory_build fuel records h None = Diverge).
Proof.
  intros Hd Hes Ho Hrev.
  destruct (directory_build_unfold fuel records h d Hd) as (es' & Hes' & ->).
  rewrite Hes in Hes'. simplify_eq.
  destruct (build_loop fuel records (push_entries es' (length h) [])
              (h ++ [mkNode [] None d None])) as [h'|e|] eqn:Hloop; simpl.
  - exfalso. apply build_loop_Return_unfolds in Hloop.
    unfold push_entries in Hloop. rewrite app_nil_r in Hloop.
    rewrite Forall_reverse, Forall_fmap, Forall_forall in Hloop.
    apply list_elem_of_fmap in Ho as (en & -> & Hen).
    eapply revisiting_never_unfolds; [exact Hrev|]. by apply (Hloop en).
  - pose proof (build_loop_Raise _ _ _ _ _ Hloop) as ->.
    split; [by right|]. intros Hnd _ Hall. exfalso.
    eapply build_loop_no_dangling; [exact Hnd| |exact Hloop].
    unfold push_entries. rewrite app_nil_r, Forall_reverse, Forall_fmap.
    apply Forall_forall. intros en Hen. simpl. by apply Hall.
  - split; [by left|done].
Qed.

Lemma root_scan_in_table records offsets rec0 r :
  root_scan records offsets rec0 = Return (Some r) ->
  rec0 = Some r \/ exists x, records !! x = Some r.
Proof.
  revert rec0. induction offsets as [|x rest IH]; intros rec0; simpl.
  - intros H; simplify_eq. by left.
  - unfold getrecord. destruct (records !! x) as [rx|] eqn:Hx; simpl; [|done].
    destruct (is_DirectoryRecord rx).
    + intros H; simplify_eq. right. eauto.
    + intros [H|H]%IH; simplify_eq; right; eauto.
Qed.

Lemma build_root_in_table records d :
  build_root records = Return d -> exists x, records !! x = Some d.
Proof.
  unfold build_root. intros H.
  apply obind_Return in H as (g & _ & H).
  apply obind_Return in H as (os & _ & H).
  apply obind_Return in H as ([r|] & Hscan & H); [|done].
  destruct (is_DirectoryRecord r); simplify_eq.
  by apply root_scan_in_table in Hscan as [?|?].
Qed.

Lemma build_iter_not_Diverge n records l h :
  build_iter n records l h <> Diverge.
Proof.
  revert l h. induction n as [|n IH]; intros l h; [by destruct l|].
  destruct l as [|item l]; simpl; [done|].
  destruct (build_step records item l h) as [[l1 h1]|e1|] eqn:Hs; simpl;
    [apply IH|done|]. by apply build_step_not_Diverge in Hs.
Qed.

Lemma build_iter_total n records l h :
  build_loop n records l h = Diverge ->
  exists l' h', build_iter n records l h = Return (l', h') /\ l' <> [].
Proof.
  rewrite build_loop_iter.
  destruct (build_iter n records l h) as [[l' h']| |] eqn:E; simpl; try done.
  - destruct l'; [done|]. eauto.
  - by apply build_iter_not_Diverge in E.
Qed.

(** Deciding [edge] on a table given by its entries. *)
Ltac table_edge H :=
  destruct H as (?r & ?es & Hr & Hes & Hin);
  repeat (apply lookup_insert_Some in Hr as [[<- <-]|[_ Hr]];
          [simpl in Hes; simplify_eq|]);
  try (apply lookup_singleton_Some in Hr as [<- <-];
       simpl in Hes; simplify_eq);
  try (rewrite lookup_empty in Hr; discriminate).

Lemma self_cycle_no_dangling : no_dangling self_cycle_table.
Proof.
  intros o o' H. unfold self_cycle_table in H. table_edge H.
  apply list_elem_of_singleton in Hin as ->. by eexists.
Qed.

Lemma self_cycle_revisits : chain_revisits self_cycle_table 20.
Proof.
  exists 20%Z. split; [done|]. apply tc_once.
  exists (DirectoryRecord 62 20 [] 1 1 0 [mkEntry 5 20]), [mkEntry 5 20].
  repeat split. apply list_elem_of_singleton. done.
Qed.

(** C1, as stated, fails: [self_cycle_table] has a directory that lists
    itself, and [directory_build] neither stops nor raises on it, whatever
    the number of iterations it is allowed; after two iterations of its
    loop the heap holds two child nodes built for the same offset 20. *)
Lemma cycle_is_not_rejected :
  (forall fuel, directory_build fuel self_cycle_table [] None = Diverge) /\
  (exists l h n1 n2,
      build_iter 2 self_cycle_table [(20%Z, 5%Z, 0%nat)]
        [mkNode [] None (DirectoryRecord 62 20 [] 1 1 0 [mkEntry 5 20]) None]
      = Return (l, h) /\
      h !! 1%nat = Some n1 /\ h !! 2%nat = Some n2 /\
      rec_offset (record n1) = 20%Z /\ rec_offset (record n2) = 20%Z).
Proof.
  split.
  - intros fuel.
    eapply (directory_build_revisiting self_cycle_table
              (DirectoryRecord 62 20 [] 1 1 0 [mkEntry 5 20])
              [mkEntry 5 20] 20%Z).
    + reflexivity.
    + reflexivity.
    + apply list_elem_of_singleton. done.
    + apply self_cycle_revisits.
    + apply self_cycle_no_dangling.
    + by eexists.
    + intros e ->%list_elem_of_singleton. by eexists.
  - vm_compute. do 4 eexists. repeat split; reflexivity.
Qed.

(** C1, amended. [directory_build] keeps no set of visited offsets. On a
    table in which the offset chain of an entry of the root directory
    revisits an offset it never returns: after any number of iterations of
    its loop it is still running or has stopped with [KeyError] on a
    dangling offset, the only error the loop raises; and when no entry of
    the table dangles it runs for ever, allocating one node in each
    iteration. *)
Theorem directory_build_cycle_never_returns records d es o :
  build_root records = Return d ->
  rec_entries d = Return es -> o ∈ entry_offset <$> es ->
  chain_revisits records o ->
  forall fuel h,
    (directory_build fuel records h None = Diverge
     \/ directory_build fuel records h None = Raise KeyError) /\
    (no_dangling records ->
     directory_build fuel records h None = Diverge /\
     exists l' h',
       build_iter fuel records (push_entries es (length h) [])
         (h ++ [mkNode [] None d None]) = Return (l', h') /\
       l' <> [] /\ length h' = (length h + 1 + fuel)%nat).
Proof.
  intros Hd Hes Ho Hrev fuel h.
  destruct (directory_build_revisiting records d es o fuel h Hd Hes Ho Hrev)
    as [H1 H2].
  split; [exact H1|]. intros Hnd.
  destruct (build_root_in_table _ _ Hd) as (x & Hx).
  assert (forall e, e ∈ es -> is_Some (records !! entry_offset e)) as Hall.
  { intros e He. apply (Hnd x). exists d, es. repeat split; try done.
    by apply list_elem_of_fmap_2. }
  assert (directory_build fuel records h None = Diverge) as Hdiv.
  { apply H2; [done| |done].
    apply list_elem_of_fmap in Ho as (e & -> & He). by apply Hall. }
  split; [done|].
  destruct (directory_build_unfold fuel records h d Hd) as (es' & Hes' & E).
  rewrite Hes in Hes'. simplify_eq. rewrite E in Hdiv.
  destruct (build_loop fuel records (push_entries es' (length h) [])
              (h ++ [mkNode [] None d None])) as [?|?|] eqn:Hloop;
    simpl in Hdiv; try done.
  apply build_iter_total in Hloop as (l' & h' & Hit & Hne).
  exists l', h'. repeat split; try done.
  rewrite (build_iter_length _ _ _ _ _ _ Hit Hne), length_app. simpl. lia.
Qed.

Lemma two_cycle_no_dangling : no_dangling two_cycle_table.
Proof.
  intros o o' H. unfold two_cycle_table in H. table_edge H.
  - apply list_elem_of_singleton in Hin as ->. by eexists.
  - apply list_elem_of_singleton in Hin as ->. by eexists.
Qed.

(** On [two_cycle_table] the build is still running after five
    iterations. *)
Lemma directory_build_cycle_never_returns_witness :
  directory_build 5 two_cycle_table [] None = Diverge.
Proof.
  refine (proj1 (proj2
    (directory_build_cycle_never_returns two_cycle_table
       (DirectoryRecord 62 20 [] 1 1 0 [mkEntry 5 82]) [mkEntry 5 82] 82%Z
       eq_refl eq_refl _ _ 5%nat []) two_cycle_no_dangling)).
  - apply list_elem_of_singleton. reflexivity.
  - exists 82%Z. split; [apply rtc_refl|].
    eapply tc_l; [|apply tc_once].
    + exists (DirectoryRecord 64 82 (py "a") 2 1 0 [mkEntry 6 20]),
        [mkEntry 6 20].
      repeat split. apply list_elem_of_singleton. reflexivity.
    + exists (DirectoryRecord 62 20 [] 1 1 0 [mkEntry 5 82]),
        [mkEntry 5 82].
      repeat split. apply list_elem_of_singleton. reflexivity.
Defined.

(* ===================================================================== *)
(** ** The record decoder                                                  *)
(* ===================================================================== *)

Lemma length_slice data o n :
  (0 <= o)%Z -> (0 <= n)%Z -> (o + n <= Z.of_nat (length data))%Z ->
  length (slice data o n) = Z.to_nat n.
Proof.
  intros. unfold slice. rewrite length_take, length_drop. lia.
Qed.

(** A read that stays inside the buffer returns the slice and moves the
    position by its length. *)
Lemma read_in_bounds data p n :
  (0 <= p)%Z -> (0 <= n)%Z -> (p + n <= Z.of_nat (length data))%Z ->
  BytesIO_.read n (mkBytesIO data p)
  = Return (slice data p n, mkBytesIO data (p + n)).
Proof.
  intros Hp Hn Hb. unfold BytesIO_.read. simpl.
  destruct (Z.ltb_spec n 0); [lia|].
  fold (slice data p n). rewrite length_slice by done.
  by rewrite Z2Nat.id.
Qed.

Lemma bind_step {A B} (c : io A) (k : A -> io B) f a f1 :
  c f = Return (a, f1) -> bind c k f = k a f1.
Proof. unfold bind. by intros ->. Qed.

Lemma unpack_i_slice data p :
  (0 <= p)%Z -> (p + 4 <= Z.of_nat (length data))%Z ->
  struct.unpack_i (slice data p 4) = Return (i32_at data p).
Proof.
  intros. unfold struct.unpack_i. rewrite length_slice by lia.
  by case_decide.
Qed.

Lemma read_i32 {B} data p (k : Z -> io B) :
  (0 <= p)%Z -> (p + 4 <= Z.of_nat (length data))%Z ->
  bind (BytesIO_.read 4) (fun b => bind (lift (struct.unpack_i b)) k)
    (mkBytesIO data p)
  = k (i32_at data p) (mkBytesIO data (p + 4)).
Proof.
  intros. erewrite bind_step by (by apply read_in_bounds; lia).
  unfold bind at 1. by rewrite unpack_i_slice.
Qed.

Lemma read_offsets_in_bounds data n p :
  (0 <= p)%Z -> (p + 8 * Z.of_nat n <= Z.of_nat (length data))%Z ->
  exists os,
    read_offsets n (mkBytesIO data p)
    = Return (os, mkBytesIO data (p + 8 * Z.of_nat n)).
Proof.
  revert p. induction n as [|n IH]; intros p Hp Hb.
  - exists []. simpl. unfold ret. do 2 f_equal. f_equal. lia.
  - simpl. erewrite bind_step by (by apply read_in_bounds; lia).
    unfold bind at 1. unfold struct.unpack_q.
    rewrite length_slice by lia. case_decide; [|done]. simpl.
    destruct (IH (p + 8)%Z) as (os & Hos); [lia..|].
    erewrite bind_step by exact Hos. eexists. unfold ret.
    do 2 f_equal. f_equal. lia.
Qed.

Lemma read_entries_in_bounds data n p :
  (0 <= p)%Z -> (p + 12 * Z.of_nat n <= Z.of_nat (length data))%Z ->
  exists es,
    read_entries n (mkBytesIO data p)
    = Return (es, mkBytesIO data (p + 12 * Z.of_nat n)).
Proof.
  revert p. induction n as [|n IH]; intros p Hp Hb.
  - exists []. simpl. unfold ret. do 2 f_equal. f_equal. lia.
  - simpl. erewrite bind_step by (by apply read_in_bounds; lia).
    unfold bind at 1. unfold struct.unpack_I.
    rewrite length_slice by lia. case_decide; [|done]. simpl.
    erewrite bind_step by (by apply read_in_bounds; lia).
    unfold bind at 1. unfold struct.unpack_q.
    rewrite length_slice by lia. case_decide; [|done]. simpl.
    destruct (IH (p + 4 + 8)%Z) as (es & Hes); [lia..|].
    erewrite bind_step by exact Hes. eexists. unfold ret.
    do 2 f_equal. f_equal. lia.
Qed.

Lemma Z_nat_scaled (k z : Z) : (0 <= z)%Z -> (0 <= k)%Z ->
  (k * Z.of_nat (Z.to_nat z) = k * z)%Z.
Proof. intros. by rewrite Z2Nat.id. Qed.

(** Dispatch on each of the four tags. *)
Lemma read_tagged_FILE L o : read_tagged L (py "FILE") o = FileRecord_read L o.
Proof. reflexivity. Qed.
Lemma read_tagged_FREE L o : read_tagged L (py "FREE") o = FreeRecord_read L o.
Proof. reflexivity. Qed.
Lemma read_tagged_PDIR L o :
  read_tagged L (py "PDIR") o = DirectoryRecord_read L o.
Proof. reflexivity. Qed.
Lemma read_tagged_GGPK L o : read_tagged L (py "GGPK") o = GGPKRecord_read L o.
Proof. reflexivity. Qed.

(** A well-formed record decodes, and the decode leaves the cursor at the
    end of the record. *)
Lemma record_at_decodes data o L :
  record_at data o L ->
  exists r,
    rec_length r = L /\ rec_offset r = o /\
    forall records,
      _read_record records o (mkBytesIO data o)
      = Return (<[o := r]> records, mkBytesIO data (o + L)).
Proof.
  intros (Ho & Hfit & HL & Hpay).
  assert (forall tag records (body : io BaseRecord) r,
             slice data (o + 4) 4 = synth.ascii_bytes tag ->
             codecs.decode_ascii (synth.ascii_bytes tag)
             = Return (py tag) ->
             (12 <= L)%Z ->
             read_tagged L (py tag) o = body ->
             body (mkBytesIO data (o + 4 + 4))
             = Return (r, mkBytesIO data (o + L)) ->
             _read_record records o (mkBytesIO data o)
             = Return (<[o := r]> records, mkBytesIO data (o + L))) as Hhead.
  { intros tag records body r Htag Hdec HL12 Hbody Hrun.
    unfold _read_record.
    assert (read_header (mkBytesIO data o)
            = Return ((L, py tag), mkBytesIO data (o + 4 + 4))) as Hh.
    { unfold read_header. rewrite read_i32 by lia.
      erewrite bind_step by (by apply read_in_bounds; lia).
      unfold bind. rewrite Htag, Hdec, HL. done. }
    erewrite bind_step by exact Hh. simpl.
    rewrite Hbody. erewrite bind_step by exact Hrun. done. }
  destruct Hpay as [(Htag & Hc & HLc)|[(Htag & Hnl & Hel & HLc & name & Hname)
                   |[(Htag & Hnl & HLc & name & Hname)|(Htag & HLc)]]].
  - (* GGPK *)
    destruct (read_offsets_in_bounds data (Z.to_nat (i32_at data (o + 8)))
                (o + 12)%Z) as (os & Hos).
    { lia. } { rewrite Z_nat_scaled by lia. lia. }
    exists (GGPKRecord L o os). repeat split. intros records.
    eapply (Hhead "GGPK"); [done|done|lia|apply read_tagged_GGPK|].
    unfold GGPKRecord_read. replace (o + 4 + 4)%Z with (o + 8)%Z by lia.
    rewrite read_i32 by lia.
    replace (o + 8 + 4)%Z with (o + 12)%Z by lia.
    erewrite bind_step by exact Hos. unfold ret.
    do 2 f_equal. f_equal. rewrite Z_nat_scaled by lia. lia.
  - (* PDIR *)
    set (nl := i32_at data (o + 8)) in *.
    set (el := i32_at data (o + 12)) in *.
    destruct (read_entries_in_bounds data (Z.to_nat el)
                (o + 48 + 2 * (nl - 1) + 2)%Z) as (es & Hes).
    { lia. } { rewrite Z_nat_scaled by lia. lia. }
    eexists (DirectoryRecord L o name nl el _ es). repeat split.
    intros records.
    eapply (Hhead "PDIR"); [done|done|lia|apply read_tagged_PDIR|].
    unfold DirectoryRecord_read. replace (o + 4 + 4)%Z with (o + 8)%Z by lia.
    rewrite read_i32 by lia. fold nl.
    replace (o + 8 + 4)%Z with (o + 12)%Z by lia.
    rewrite read_i32 by lia. fold el.
    erewrite bind_step by (by apply read_in_bounds; lia).
    erewrite bind_step by (by apply read_in_bounds; lia).
    replace (o + 12 + 4 + 32)%Z with (o + 48)%Z by lia.
    unfold bind at 1. rewrite Hname. simpl.
    unfold bind at 1. simpl.
    replace (Z.max 0 (o + 48 + 2 * (nl - 1) + 2))
      with (o + 48 + 2 * (nl - 1) + 2)%Z by lia.
    erewrite bind_step by exact Hes. unfold ret.
    do 2 f_equal. f_equal. rewrite Z_nat_scaled by lia. lia.
  - (* FILE *)
    set (nl := i32_at data (o + 8)) in *.
    eexists (FileRecord L o name nl _ _ _). repeat split.
    intros records.
    eapply (Hhead "FILE"); [done|done|lia|apply read_tagged_FILE|].
    unfold FileRecord_read. replace (o + 4 + 4)%Z with (o + 8)%Z by lia.
    rewrite read_i32 by lia. fold nl.
    erewrite bind_step by (by apply read_in_bounds; lia).
    erewrite bind_step by (by apply read_in_bounds; lia).
    replace (o + 8 + 4 + 32)%Z with (o + 44)%Z by lia.
    unfold bind at 1. rewrite Hname. simpl.
    unfold bind, ret. simpl. do 2 f_equal. f_equal. lia.
  - (* FREE *)
    eexists (FreeRecord L o _). repeat split. intros records.
    eapply (Hhead "FREE"); [done|done|lia|apply read_tagged_FREE|].
    unfold FreeRecord_read.
    erewrite bind_step by (by apply read_in_bounds; lia).
    unfold bind at 1. unfold struct.unpack_q.
    rewrite length_slice by lia. case_decide; [|done]. simpl.
    unfold bind, ret. simpl. do 2 f_equal. f_equal. lia.
Qed.

Lemma record_at_length data o L : record_at data o L -> (12 <= L)%Z.
Proof.
  intros (_ & _ & _ & [(_ & ? & ?)|[(_ & ? & ? & ? & _)|[(_ & ? & ? & _)|(_ & ?)]]]);
    lia.
Qed.

(** The scan loop over a well-formed stream: it ends at the end of the
    stream, keeps the entries below the offset it started at, and adds one
    entry for each record. *)
Lemma _read_loop_records_from data o ls :
  records_from data o ls ->
  forall fuel (records : gmap Z BaseRecord),
    (length ls <= fuel)%nat ->
    exists records',
      _read_loop fuel (Z.of_nat (length data)) o records (mkBytesIO data o)
      = Return (records', mkBytesIO data (Z.of_nat (length data))) /\
      (forall k, (k < o)%Z -> records' !! k = records !! k) /\
      dom records' = dom records ∪ list_to_set (offsets_from o ls) /\
      (forall i oi Li,
          offsets_from o ls !! i = Some oi -> ls !! i = Some Li ->
          exists r,
            records' !! oi = Some r /\ rec_length r = Li /\
            rec_offset r = oi /\
            forall recs,
              _read_record recs oi (mkBytesIO data oi)
              = Return (<[oi := r]> recs, mkBytesIO data (oi + Li))).
Proof.
  induction 1 as [|o L ls Hrec Hrest IH]; intros fuel records Hfuel.
  - exists records. repeat split.
    + destruct fuel; simpl; by rewrite Z.ltb_irrefl.
    + simpl. by rewrite (right_id_L ∅ (∪)).
    + intros i oi Li Hi. by destruct i.
  - pose proof (record_at_length _ _ _ Hrec) as HL.
    destruct Hrec as (Ho & Hfit & Hrec').
    assert (record_at data o L) as Hrec by done.
    destruct (record_at_decodes _ _ _ Hrec) as (r & Hlen & Hoff & Hdec).
    destruct fuel as [|fuel]; [simpl in Hfuel; lia|].
    destruct (IH fuel (<[o := r]> records)) as (records' & Hrun & Hlow & Hdom & Hidx).
    { simpl in Hfuel. lia. }
    exists records'. repeat split.
    + simpl. destruct (Z.ltb_spec o (Z.of_nat (length data))); [|lia].
      erewrite bind_step by apply Hdec.
      erewrite bind_step by reflexivity. exact Hrun.
    + intros k Hk. rewrite Hlow by lia. apply lookup_insert_ne. lia.
    + rewrite Hdom, dom_insert_L. simpl.
      rewrite (assoc_L (∪)). f_equal. apply (comm_L (∪)).
    + intros i oi Li Hi HLi. destruct i as [|i]; simpl in Hi, HLi.
      * simplify_eq. exists r. repeat split; try done.
        rewrite Hlow by lia. apply lookup_insert_eq.
      * by apply (Hidx i).
Qed.

(** C3. On a stream of well-formed records laid back to back from offset
    0 the scan succeeds; the keys of its table are the prefix sums of the
    declared lengths; the entry at each of them has that offset and that
    length, and decoding at that offset leaves the cursor exactly that
    many bytes further. For lengths 40, 24 and 56 the keys are 0, 40 and
    64. *)
Theorem scan_offsets_are_prefix_sums data lengths fuel :
  records_from data 0 lengths ->
  (length lengths <= fuel)%nat ->
  exists records : gmap Z BaseRecord,
    scan fuel data = Return records /\
    dom records = list_to_set (offsets_from 0 lengths) /\
    (forall i o L,
        offsets_from 0 lengths !! i = Some o -> lengths !! i = Some L ->
        exists r,
          records !! o = Some r /\ rec_length r = L /\ rec_offset r = o /\
          forall recs,
            _read_record recs o (mkBytesIO data o)
            = Return (<[o := r]> recs, mkBytesIO data (o + L))) /\
    (lengths = [40; 24; 56]%Z -> dom records = ({[0; 40; 64]}%Z : gset Z)).
Proof.
  intros Hwf Hfuel.
  destruct (_read_loop_records_from _ _ _ Hwf fuel ∅ Hfuel)
    as (records & Hrun & _ & Hdom & Hidx).
  exists records. split; [|split; [|split]].
  - unfold scan, _read.
    erewrite bind_step by reflexivity. erewrite bind_step by reflexivity.
    simpl. by rewrite Hrun.
  - rewrite Hdom, dom_empty_L. apply (left_id_L ∅ (∪)).
  - exact Hidx.
  - intros ->. rewrite Hdom, dom_empty_L, (left_id_L ∅ (∪)). simpl.
    by rewrite (right_id_L ∅ (∪)), !(assoc_L (∪)).
Qed.

Lemma three_records_well_formed : records_from three_records 0 [40; 24; 56]%Z.
Proof.
  apply records_next.
  { repeat split; [lia|vm_compute; discriminate|].
    right; right; right. split; [reflexivity|lia]. }
  apply records_next.
  { repeat split; [lia|vm_compute; discriminate|].
    right; right; right. split; [reflexivity|lia]. }
  apply records_next.
  { repeat split; [lia|vm_compute; discriminate|].
    right; left. repeat split; try (vm_compute; discriminate).
    eexists. vm_compute. reflexivity. }
  apply records_end.
Qed.

(** The scan of [three_records]. *)
Lemma scan_offsets_are_prefix_sums_witness :
  exists records : gmap Z BaseRecord,
    scan 3 three_records = Return records /\
    dom records = ({[0; 40; 64]}%Z : gset Z).
Proof.
  destruct (scan_offsets_are_prefix_sums three_records [40; 24; 56]%Z 3
              three_records_well_formed (le_n 3))
    as (records & Hscan & _ & _ & Hdom).
  exists records. split; [exact Hscan | exact (Hdom eq_refl)].
Defined.

(** *** File records *)

Lemma read_pos_nonneg n f b f' :
  BytesIO_.read n f = Return (b, f') ->
  getvalue f' = getvalue f /\ pos f' = (pos f + Z.of_nat (length b))%Z.
Proof. unfold BytesIO_.read. intros H. by simplify_eq. Qed.

(** C4. A decoded file record has [data_length = length - 44 -
    2 * name_length]; its [data_start] is the position of the cursor two
    bytes (the terminator) after the last byte read for the name, which is
    [44 + 2 * name_length] bytes after the start of the record when the
    name lies inside the buffer; and the decode leaves the cursor
    [data_length] bytes after [data_start]. With [length = 100] and
    [name_length = 6] the data length is 44. *)
Theorem FileRecord_read_data length offset f r f' :
  (0 <= pos f)%Z ->
  FileRecord_read length offset f = Return (r, f') ->
  exists name nl hs ds dl,
    r = FileRecord length offset name nl hs ds dl /\
    dl = (length - 44 - 2 * nl)%Z /\
    (exists b1 f1 bh f2 bn f3,
        BytesIO_.read 4 f = Return (b1, f1) /\
        struct.unpack_i b1 = Return nl /\
        BytesIO_.read 32 f1 = Return (bh, f2) /\
        BytesIO_.read (2 * (nl - 1)) f2 = Return (bn, f3) /\
        codecs.decode_utf_16 bn = Return name /\
        ds = (pos f3 + 2)%Z) /\
    ((1 <= nl)%Z ->
     (pos f + 36 + 2 * (nl - 1) <= Z.of_nat (List.length (getvalue f)))%Z ->
     ds = (pos f + 36 + 2 * nl)%Z) /\
    pos f' = Z.max 0 (ds + dl) /\
    (length = 100%Z -> nl = 6%Z -> dl = 44%Z).
Proof.
  intros Hpos H. unfold FileRecord_read in H.
  apply bind_Return in H as (b1 & f1 & H1 & H).
  apply bind_Return in H as (nl & f1' & Hnl & H).
  apply lift_Return in Hnl as [Hnl ->].
  apply bind_Return in H as (bh & f2 & H2 & H).
  apply bind_Return in H as (bn & f3 & H3 & H).
  apply bind_Return in H as (name & f3' & Hname & H).
  apply lift_Return in Hname as [Hname ->].
  apply bind_Return in H as ([] & f4 & H4 & H).
  apply bind_Return in H as (ds & f4' & H5 & H).
  apply bind_Return in H as ([] & f5 & H6 & H).
  unfold ret in H. unfold BytesIO_.seek_cur in H4, H6.
  unfold BytesIO_.tell in H5. simplify_eq. simpl.
  pose proof (read_pos_nonneg _ _ _ _ H1) as [Hv1 Hp1].
  pose proof (read_pos_nonneg _ _ _ _ H2) as [Hv2 Hp2].
  pose proof (read_pos_nonneg _ _ _ _ H3) as [Hv3 Hp3].
  assert (Z.max 0 (pos f3 + 2) = pos f3 + 2)%Z as Hmax by lia.
  eexists name, nl, _, _, _. split; [reflexivity|].
  split; [lia|]. split; [|split; [|split]].
  - exists b1, f1, bh, f2, bn, f3. repeat split; try done.
  - intros Hnl1 Hfit. rewrite Hmax.
    clear Hv1 Hv2 Hv3 Hp1 Hp2 Hp3. destruct f as [data p]. simpl in *.
    rewrite (read_in_bounds data p 4) in H1 by lia. simplify_eq.
    rewrite (read_in_bounds data (p + 4) 32) in H2 by lia. simplify_eq.
    rewrite (read_in_bounds data (p + 4 + 32) (2 * (nl - 1))) in H3 by lia.
    simplify_eq. simpl. lia.
  - reflexivity.
  - lia.
Qed.

(** The file record of [hundred_byte_file], read after its header. *)
Lemma FileRecord_read_data_witness :
  exists name hs,
    FileRecord_read 100 0 (mkBytesIO hundred_byte_file 8)
    = Return (FileRecord 100 0 name 6 hs 56 44,
              mkBytesIO hundred_byte_file 100).
Proof.
  assert (FileRecord_read 100 0 (mkBytesIO hundred_byte_file 8)
          = Return (FileRecord 100 0 (py "hello") 6 0 56 44,
                    mkBytesIO hundred_byte_file 100)) as E
    by (vm_compute; reflexivity).
  assert (0 <= pos (mkBytesIO hundred_byte_file 8))%Z as Hp
    by (simpl; lia).
  destruct (FileRecord_read_data 100 0 _ _ _ Hp E)
    as (name & nl & hs & ds & dl & Hr & _).
  inversion Hr; subst. exists (py "hello"), 0%Z. exact E.
Defined.

(** *** Unknown tags *)

Lemma raises_only_bind {A B} P (c : io A) (k : A -> io B) :
  raises_only P c -> (forall a, raises_only P (k a)) ->
  raises_only P (bind c k).
Proof.
  intros Hc Hk f e. unfold bind.
  destruct (c f) as [[a f1]|e1|] eqn:E; intros H; simplify_eq.
  - by eapply Hk.
  - by eapply Hc.
Qed.

Lemma raises_only_ret {A} P (a : A) : raises_only P (ret a).
Proof. by intros f e. Qed.

Lemma raises_only_read P n : raises_only P (BytesIO_.read n).
Proof. by intros f e. Qed.

Lemma raises_only_seek_cur P k : raises_only P (BytesIO_.seek_cur k).
Proof. by intros f e. Qed.

Lemma raises_only_tell P : raises_only P BytesIO_.tell.
Proof. by intros f e. Qed.

Lemma raises_only_lift {A} (P : exn -> Prop) (o : outcome A) :
  (forall e, o = Raise e -> P e) -> raises_only P (lift o).
Proof. intros Ho f e. destruct o; simpl; intros H; simplify_eq. eauto. Qed.

Lemma unpack_i_Raise b e : struct.unpack_i b = Raise e -> payload_error e.
Proof. unfold struct.unpack_i. case_decide; intros; simplify_eq. by left. Qed.

Lemma unpack_I_Raise b e : struct.unpack_I b = Raise e -> payload_error e.
Proof. unfold struct.unpack_I. case_decide; intros; simplify_eq. by left. Qed.

Lemma unpack_q_Raise b e : struct.unpack_q b = Raise e -> payload_error e.
Proof. unfold struct.unpack_q. case_decide; intros; simplify_eq. by left. Qed.

Lemma code_points_Raise enc us e :
  codecs.code_points enc us = Raise e -> e = UnicodeDecodeError enc.
Proof.
  remember (length us) as n eqn:Hn. revert us Hn.
  induction (lt_wf n) as [n _ IH]. intros us -> H.
  destruct us as [|u us]; simpl in H; [done|].
  destruct (codecs.is_high_surrogate u).
  - destruct us as [|v us]; [by simplify_eq|].
    destruct (codecs.is_low_surrogate v); [|by simplify_eq].
    destruct (codecs.code_points enc us) eqn:E; simplify_eq.
    eapply (IH (length us)); [simpl; lia|done|done].
  - destruct (codecs.is_low_surrogate u); [by simplify_eq|].
    destruct (codecs.code_points enc us) eqn:E; simplify_eq.
    eapply (IH (length us)); [simpl; lia|done|done].
Qed.

Lemma decode_units_Raise enc be b e :
  codecs.decode_units enc be b = Raise e -> e = UnicodeDecodeError enc.
Proof.
  unfold codecs.decode_units. destruct (codecs.units be b).
  - apply code_points_Raise.
  - intros H. by simplify_eq.
Qed.

Lemma decode_utf_16_le_Raise b e :
  codecs.decode_utf_16_le b = Raise e -> payload_error e.
Proof. intros ->%decode_units_Raise. right. by right. Qed.

Lemma decode_utf_16_Raise b e :
  codecs.decode_utf_16 b = Raise e -> payload_error e.
Proof.
  unfold codecs.decode_utf_16. intros H. right. left.
  destruct b as [|x [|y b]]; repeat case_decide;
    by apply decode_units_Raise in H.
Qed.

Lemma read_offsets_raises n : raises_only payload_error (read_offsets n).
Proof.
  induction n as [|n IH]; simpl; [apply raises_only_ret|].
  apply raises_only_bind; [apply raises_only_read|]. intros b.
  apply raises_only_bind; [apply raises_only_lift, unpack_q_Raise|]. intros o.
  apply raises_only_bind; [exact IH|]. intros os. apply raises_only_ret.
Qed.

Lemma read_entries_raises n : raises_only payload_error (read_entries n).
Proof.
  induction n as [|n IH]; simpl; [apply raises_only_ret|].
  apply raises_only_bind; [apply raises_only_read|]. intros bh.
  apply raises_only_bind; [apply raises_only_lift, unpack_I_Raise|]. intros h.
  apply raises_only_bind; [apply raises_only_read|]. intros bo.
  apply raises_only_bind; [apply raises_only_lift, unpack_q_Raise|]. intros o.
  apply raises_only_bind; [exact IH|]. intros es. apply raises_only_ret.
Qed.

(** One step of a proof that a decoder raises payload errors only. *)
Ltac raises_step :=
  first
    [ apply raises_only_ret
    | apply raises_only_read
    | apply raises_only_seek_cur
    | apply raises_only_tell
    | apply read_offsets_raises
    | apply read_entries_raises
    | apply raises_only_lift;
      first [ apply unpack_i_Raise | apply unpack_I_Raise
            | apply unpack_q_Raise | apply decode_utf_16_le_Raise
            | apply decode_utf_16_Raise ]
    | apply raises_only_bind; [|intros ?] ].

Lemma GGPKRecord_read_raises L o :
  raises_only payload_error (GGPKRecord_read L o).
Proof. unfold GGPKRecord_read. repeat raises_step. Qed.

Lemma DirectoryRecord_read_raises L o :
  raises_only payload_error (DirectoryRecord_read L o).
Proof. unfold DirectoryRecord_read. repeat raises_step. Qed.

Lemma FileRecord_read_raises L o :
  raises_only payload_error (FileRecord_read L o).
Proof. unfold FileRecord_read. repeat raises_step. Qed.

Lemma FreeRecord_read_raises L o :
  raises_only payload_error (FreeRecord_read L o).
Proof. unfold FreeRecord_read. repeat raises_step. Qed.

Lemma decode_ascii_Return b s :
  codecs.decode_ascii b = Return s -> s = Byte.to_N <$> b.
Proof.
  revert s. induction b as [|x b IH]; intros s; simpl.
  - intros H. by simplify_eq.
  - destruct (N.ltb (Byte.to_N x) 128); [|done].
    destruct (codecs.decode_ascii b) as [s'| |]; simpl; intros H;
      simplify_eq. by rewrite (IH s').
Qed.

Lemma decode_ascii_Raise b e :
  codecs.decode_ascii b = Raise e -> e = UnicodeDecodeError ascii_codec.
Proof.
  induction b as [|x b IH]; simpl; [done|].
  destruct (N.ltb (Byte.to_N x) 128); [|intros H; by simplify_eq].
  destruct (codecs.decode_ascii b) as [s'| |]; simpl; intros H;
    simplify_eq. by apply IH.
Qed.

Lemma decode_ascii_not_Diverge b : codecs.decode_ascii b <> Diverge.
Proof.
  induction b as [|x b IH]; simpl; [done|].
  destruct (N.ltb (Byte.to_N x) 128); [|done].
  by destruct (codecs.decode_ascii b).
Qed.

Lemma to_N_fmap_inj (b b' : bytes) :
  Byte.to_N <$> b = Byte.to_N <$> b' -> b = b'.
Proof.
  revert b'. induction b as [|x b IH]; intros [|y b'] H; simplify_eq/=;
    try done.
  f_equal; [|by apply IH].
  assert (Some x = Some y) as E
    by (rewrite <- (Byte.of_to_N x), <- (Byte.of_to_N y); congruence).
  by simplify_eq.
Qed.

Lemma read_tagged_unknown L bt o :
  bt ∉ known_tags ->
  read_tagged L (Byte.to_N <$> bt) o = lift (Raise ValueError).
Proof.
  intros Hbt. unfold read_tagged.
  repeat case_decide; try done; exfalso; apply Hbt;
    match goal with
    | H : Byte.to_N <$> bt = py ?t |- _ =>
        change (py t) with (Byte.to_N <$> synth.ascii_bytes t) in H;
        apply to_N_fmap_inj in H as ->
    end; unfold known_tags; simpl; repeat constructor.
Qed.

(** C9. At a cursor with the four bytes of a length and then the bytes
    [bt] of a tag: when [bt] is not one of the four tags the decode fails
    with the error of an unknown tag, the bare [ValueError] whenever the
    tag is ASCII text; when it is one of them, no failure of the decode is
    that error. *)
Theorem unknown_tag_is_rejected records offset f bl f1 bt f2 :
  BytesIO_.read 4 f = Return (bl, f1) ->
  length bl = 4%nat ->
  BytesIO_.read 4 f1 = Return (bt, f2) ->
  (bt ∉ known_tags ->
   (exists e, _read_record records offset f = Raise e /\ UnknownRecordKind e)
   /\ (forall tag, codecs.decode_ascii bt = Return tag ->
                   _read_record records offset f = Raise ValueError))
  /\
  (bt ∈ known_tags ->
   forall e, _read_record records offset f = Raise e -> ~ UnknownRecordKind e).
Proof.
  intros Hl Hlen Ht.
  assert (exists L, struct.unpack_i bl = Return L) as [L HL].
  { unfold struct.unpack_i. case_decide; [eauto|done]. }
  assert (_read_record records offset f =
          match codecs.decode_ascii bt with
          | Return tag =>
              bind (read_tagged L tag offset)
                (fun record => ret (<[offset := record]> records)) f2
          | Raise e => Raise e
          | Diverge => Diverge
          end) as Hrun.
  { unfold _read_record, read_header. unfold bind at 1.
    erewrite bind_step by exact Hl.
    erewrite bind_step by (rewrite HL; reflexivity).
    erewrite bind_step by exact Ht.
    unfold bind at 1. by destruct (codecs.decode_ascii bt). }
  split.
  - intros Hbt.
    assert (forall tag, codecs.decode_ascii bt = Return tag ->
                        _read_record records offset f = Raise ValueError)
      as Hascii.
    { intros tag Htag. rewrite Hrun, Htag.
      apply decode_ascii_Return in Htag as ->.
      rewrite read_tagged_unknown by done. reflexivity. }
    split; [|exact Hascii].
    destruct (codecs.decode_ascii bt) as [tag|e|] eqn:Htag.
    + exists ValueError. split; [by eapply Hascii|by left].
    + exists e. split; [by rewrite Hrun|].
      apply decode_ascii_Raise in Htag as ->. by right.
    + by apply decode_ascii_not_Diverge in Htag.
  - intros Hbt e He Hunk. rewrite Hrun in He.
    assert (exists t, codecs.decode_ascii bt = Return (py t) /\
                      raises_only payload_error (read_tagged L (py t) offset))
      as (t & Hdec & Hr).
    { unfold known_tags in Hbt.
      repeat (apply elem_of_cons in Hbt as [->|Hbt]); [..|by inversion Hbt].
      - exists "GGPK". split; [reflexivity|].
        rewrite read_tagged_GGPK. apply GGPKRecord_read_raises.
      - exists "PDIR". split; [reflexivity|].
        rewrite read_tagged_PDIR. apply DirectoryRecord_read_raises.
      - exists "FILE". split; [reflexivity|].
        rewrite read_tagged_FILE. apply FileRecord_read_raises.
      - exists "FREE". split; [reflexivity|].
        rewrite read_tagged_FREE. apply FreeRecord_read_raises. }
    rewrite Hdec in He.
    assert (payload_error e) as Hpe.
    { eapply raises_only_bind; [exact Hr| |exact He].
      intros a. apply raises_only_ret. }
    destruct Hunk as [->| ->]; by destruct Hpe as [?|[?|?]].
Qed.

(** The tag [JUNK] is rejected with [ValueError]; a file record cut short
    fails with another error. *)
Lemma unknown_tag_is_rejected_witness :
  _read_record ∅ 0 unknown_tag_buffer = Raise ValueError /\
  forall e, _read_record ∅ 0 short_file_buffer = Raise e ->
            ~ UnknownRecordKind e.
Proof.
  split.
  - refine (proj2 (proj1 (unknown_tag_is_rejected ∅ 0 unknown_tag_buffer
                            _ _ _ _ eq_refl eq_refl eq_refl) _) _ _).
    + unfold known_tags. vm_compute. intros H.
      repeat (apply elem_of_cons in H as [H|H]; [discriminate|]).
      inversion H.
    + vm_compute. reflexivity.
  - refine (proj2 (unknown_tag_is_rejected ∅ 0 short_file_buffer
                     _ _ _ _ eq_refl eq_refl eq_refl) _).
    unfold known_tags. simpl. repeat constructor.
Defined.

(* ===================================================================== *)
(** ** The heap built by [directory_build] is a tree                       *)
(* ===================================================================== *)

(** The heap after one iteration, node by node. *)
Lemma build_step_lookup records item l h l1 h1 :
  build_step records item l h = Return (l1, h1) ->
  (item.2 < length h)%nat ->
  exists r pd,
    h !! item.2 = Some pd /\
    length h1 = S (length h) /\
    h1 !! length h = Some (mkNode [] (Some item.2) r (Some item.1.2)) /\
    h1 !! item.2
    = Some (mkNode (children pd ++ [length h]) (parent pd) (record pd)
              (hash pd)) /\
    (forall i, i <> item.2 -> i <> length h -> h1 !! i = h !! i).
Proof.
  intros (r & _ & _ & ->)%build_step_Return Hp.
  destruct (lookup_lt_is_Some_2 h item.2 Hp) as [pd Hpd].
  exists r, pd. split; [done|]. split; [|split; [|split]].
  - rewrite length_append_child, length_app. simpl. lia.
  - rewrite lookup_append_child_ne by lia.
    by rewrite lookup_app_r, Nat.sub_diag by lia.
  - rewrite lookup_append_child_eq, lookup_app_l, Hpd by lia. done.
  - intros i Hi Hn. rewrite lookup_append_child_ne by done.
    destruct (decide (i < length h)%nat).
    + by rewrite lookup_app_l by lia.
    + rewrite lookup_app_r by lia.
      rewrite (lookup_ge_None_2 h) by lia.
      destruct (i - length h)%nat eqn:E; [lia|done].
Qed.

Lemma build_step_tree_heap records item l h l1 h1 :
  build_step records item l h = Return (l1, h1) ->
  (item.2 < length h)%nat ->
  tree_heap h -> tree_heap h1.
Proof.
  intros Hs Hp [Hchild Hnodup Hparent].
  destruct (build_step_lookup _ _ _ _ _ _ Hs Hp)
    as (r & pd & Hpd & Hlen & Hnew & Hpar & Hother).
  set (p := item.2) in *. set (n := length h) in *.
  assert (forall c, c ∈ children pd -> (c < n)%nat) as Hold.
  { intros c Hc. destruct (Hchild p pd c Hpd Hc) as (_ & cd & Hcd & _).
    by eapply lookup_lt_Some. }
  (* every node of [h1] in terms of [h] *)
  assert (forall i nd1, h1 !! i = Some nd1 ->
            (i = n /\ nd1 = mkNode [] (Some p) r (Some item.1.2)) \/
            (i = p /\ nd1 = mkNode (children pd ++ [n]) (parent pd)
                              (record pd) (hash pd)) \/
            (i <> n /\ i <> p /\ h !! i = Some nd1)) as Hcases.
  { intros i nd1 Hi. destruct (decide (i = n)) as [->|Hn].
    - left. rewrite Hnew in Hi. by simplify_eq.
    - destruct (decide (i = p)) as [->|Hip].
      + right; left. rewrite Hpar in Hi. by simplify_eq.
      + right; right. rewrite Hother in Hi by done. done. }
  (* an old node keeps its parent *)
  assert (forall c cd q, h !! c = Some cd -> parent cd = Some q ->
            exists cd1, h1 !! c = Some cd1 /\ parent cd1 = Some q) as Hkeep.
  { intros c cd q Hc Hq.
    assert (c <> n) by (apply lookup_lt_Some in Hc; lia).
    destruct (decide (c = p)) as [->|Hcp].
    - rewrite Hpar. eexists. split; [done|]. simpl. congruence.
    - rewrite Hother by done. eauto. }
  split.
  - intros i nd1 c Hi Hc.
    destruct (Hcases i nd1 Hi) as [[-> ->]|[[-> ->]|(Hn & Hip & Hi')]].
    + simpl in Hc. by apply elem_of_nil in Hc.
    + simpl in Hc. apply elem_of_app in Hc as [Hc|Hc].
      * destruct (Hchild p pd c Hpd Hc) as (Hlt & cd & Hcd & Hq).
        split; [done|]. by eapply Hkeep.
      * apply list_elem_of_singleton in Hc as ->. split; [done|]. eauto.
    + destruct (Hchild i nd1 c Hi' Hc) as (Hlt & cd & Hcd & Hq).
      split; [done|]. by eapply Hkeep.
  - intros i nd1 Hi.
    destruct (Hcases i nd1 Hi) as [[-> ->]|[[-> ->]|(Hn & Hip & Hi')]].
    + simpl. constructor.
    + simpl. apply NoDup_app. split; [by eapply Hnodup|].
      split; [|apply NoDup_singleton].
      intros c Hc ->%list_elem_of_singleton. apply Hold in Hc. lia.
    + by eapply Hnodup.
  - intros c cd1 q Hc Hq.
    destruct (Hcases c cd1 Hc) as [[-> ->]|[[-> ->]|(Hn & Hcp & Hc')]].
    + simpl in Hq. simplify_eq. rewrite Hpar. eexists. split; [done|].
      simpl. apply elem_of_app. right. by apply list_elem_of_singleton.
    + simpl in Hq. destruct (Hparent p pd q Hpd Hq) as (qd & Hqd & Hin).
      assert (q <> n) by (apply lookup_lt_Some in Hqd; lia).
      destruct (decide (q = p)) as [->|Hqp].
      * rewrite Hpar. eexists. split; [done|]. simpl.
        apply elem_of_app. left. by simplify_eq.
      * rewrite Hother by done. eauto.
    + destruct (Hparent c cd1 q Hc' Hq) as (qd & Hqd & Hin).
      assert (q <> n) by (apply lookup_lt_Some in Hqd; lia).
      destruct (decide (q = p)) as [->|Hqp].
      * rewrite Hpar. eexists. split; [done|]. simpl.
        apply elem_of_app. left. by simplify_eq.
      * rewrite Hother by done. eauto.
Qed.

Lemma build_step_worklist records item l h l1 h1 :
  build_step records item l h = Return (l1, h1) ->
  (item.2 < length h)%nat ->
  Forall (fun it => (it.2 < length h)%nat) l ->
  Forall (fun it => (it.2 < length h1)%nat) l1.
Proof.
  intros Hs Hp Hl.
  destruct (build_step_lookup _ _ _ _ _ _ Hs Hp) as (_ & _ & _ & Hlen & _).
  apply build_step_Return in Hs as (r & _ & -> & _).
  assert (Forall (fun it => (it.2 < length h1)%nat) l) as Hl'.
  { eapply Forall_impl; [exact Hl|]. intros it. simpl. lia. }
  destruct r; try done.
  unfold push_entries. apply Forall_app. split; [|done].
  rewrite Forall_reverse, Forall_fmap. apply Forall_forall.
  intros e _. simpl. lia.
Qed.

Lemma build_loop_tree_heap fuel records l h h' :
  build_loop fuel records l h = Return h' ->
  Forall (fun it => (it.2 < length h)%nat) l ->
  tree_heap h -> tree_heap h'.
Proof.
  revert l h. induction fuel as [|fuel IH]; intros l h.
  - destruct l; simpl; intros H; by simplify_eq.
  - destruct l as [|item l]; simpl; intros H Hl Ht; simplify_eq; [done|].
    apply obind_Return in H as ([l1 h1] & Hs & H). simpl in H.
    apply Forall_cons in Hl as [Hp Hl].
    eapply IH; [exact H| |].
    + by eapply build_step_worklist.
    + by eapply build_step_tree_heap.
Qed.

Lemma tree_heap_root d : tree_heap [mkNode [] None d None].
Proof.
  split.
  - intros [|p] nd c H Hc; simplify_eq/=. by apply elem_of_nil in Hc.
  - intros [|p] nd H; simplify_eq/=. constructor.
  - intros [|c] cd p H Hp; simplify_eq/=.
Qed.

(** The result of a build from the empty heap: a tree whose root is node
    0, the only node without a parent being recorded for it. *)
Lemma directory_build_tree fuel records h root :
  directory_build fuel records [] None = Return (h, root) ->
  tree_heap h /\ exists rd, h !! root = Some rd /\ parent rd = None.
Proof.
  intros H. unfold directory_build in H. case_decide; [done|].
  apply obind_Return in H as ([h0 r0] & Hroot & H). simpl in H.
  apply obind_Return in Hroot as (d & Hd & Hroot). simplify_eq.
  apply obind_Return in H as (rnd & Hrnd & H). simpl in Hrnd.
  apply obind_Return in H as (es & Hes & H).
  apply obind_Return in H as (h' & Hloop & H). simplify_eq.
  unfold deref in Hrnd. simpl in Hrnd. simplify_eq. simpl in *.
  split.
  - eapply build_loop_tree_heap; [exact Hloop| |apply tree_heap_root].
    unfold push_entries. rewrite app_nil_r, Forall_reverse, Forall_fmap.
    apply Forall_forall. intros e _. simpl. lia.
  - destruct (build_loop_preserves _ _ _ _ _ 0%nat _ Hloop eq_refl)
      as (nd' & ? & _ & ? & _).
    eauto.
Qed.

(* ===================================================================== *)
(** ** Descendants in a tree heap                                          *)
(* ===================================================================== *)

Lemma flat_map_bind {A B} (f : A -> list B) (l : list A) :
  flat_map f l = l ≫= f.
Proof. induction l as [|x l IH]; [done|]. simpl. by rewrite IH. Qed.

Lemma flat_map_ext_elem {A B} (f g : A -> list B) (l : list A) :
  (forall x, x ∈ l -> f x = g x) -> flat_map f l = flat_map g l.
Proof.
  induction l as [|x l IH]; intros H; [done|]. simpl.
  rewrite H by left. rewrite IH; [done|]. intros y Hy. apply H. by right.
Qed.

Lemma elem_of_flat_map {A B} (f : A -> list B) (x : B) (l : list A) :
  x ∈ flat_map f l <-> exists y, x ∈ f y /\ y ∈ l.
Proof. rewrite flat_map_bind. apply list_elem_of_bind. Qed.

Lemma NoDup_flat_map {A B} (f : A -> list B) (l : list A) :
  (forall x1 x2 y, x1 ∈ l -> x2 ∈ l -> y ∈ f x1 -> y ∈ f x2 -> x1 = x2) ->
  (forall x, x ∈ l -> NoDup (f x)) -> NoDup l -> NoDup (flat_map f l).
Proof. rewrite flat_map_bind. apply NoDup_bind. Qed.

Section Tree.

Variable h : heap.
Hypothesis Htree : tree_heap h.

Lemma child_lt p c : child h p c -> (p < c)%nat.
Proof. intros (nd & Hp & Hc). by destruct (th_child h Htree p nd c). Qed.

Lemma child_valid p c : child h p c -> (c < length h)%nat.
Proof.
  intros (nd & Hp & Hc).
  destruct (th_child h Htree p nd c Hp Hc) as (_ & cd & Hcd & _).
  by eapply lookup_lt_Some.
Qed.

Lemma child_parent_unique p p' c : child h p c -> child h p' c -> p = p'.
Proof.
  intros (nd & Hp & Hc) (nd' & Hp' & Hc').
  destruct (th_child h Htree p nd c Hp Hc) as (_ & cd & Hcd & Hq).
  destruct (th_child h Htree p' nd' c Hp' Hc') as (_ & cd' & Hcd' & Hq').
  congruence.
Qed.

Lemma descendant_le r x : rtc (child h) r x -> (r <= x)%nat.
Proof.
  induction 1 as [|r c x Hc _ IH]; [lia|]. apply child_lt in Hc. lia.
Qed.

Lemma descendant_valid r x :
  (r < length h)%nat -> rtc (child h) r x -> (x < length h)%nat.
Proof.
  intros Hr H. apply rtc_inv_r in H as [->|(y & _ & Hy)]; [done|].
  by eapply child_valid.
Qed.

(** Two ancestors of one node are comparable. *)
Lemma ancestors_comparable a b z :
  rtc (child h) a z -> rtc (child h) b z ->
  rtc (child h) a b \/ rtc (child h) b a.
Proof.
  intros Ha. revert z Ha b.
  refine (rtc_ind_r _ a _ _).
  - intros b Hb. by right.
  - intros y z Hay Hyz IH b Hb.
    apply rtc_inv_r in Hb as [->|(y' & Hby' & Hy'z)].
    + left. by eapply rtc_r.
    + rewrite (child_parent_unique y' y z Hy'z Hyz) in Hby'. by apply IH.
Qed.

(** The subtrees of two children of one node do not meet. *)
Lemma siblings_disjoint r c1 c2 z :
  child h r c1 -> child h r c2 ->
  rtc (child h) c1 z -> rtc (child h) c2 z -> c1 = c2.
Proof.
  assert (forall a b, child h r a -> child h r b -> rtc (child h) a b ->
                      a = b) as Hone.
  { intros a b Ha Hb Hab.
    apply rtc_inv_r in Hab as [->|(y & Hay & Hyb)]; [done|].
    rewrite (child_parent_unique y r b Hyb Hb) in Hay.
    apply descendant_le in Hay. apply child_lt in Ha. lia. }
  intros H1 H2 Hz1 Hz2.
  destruct (ancestors_comparable c1 c2 z Hz1 Hz2) as [H|H].
  - by apply Hone.
  - symmetry. by apply Hone.
Qed.

Lemma subtree_depth k k' r :
  (length h <= k + r)%nat -> (length h <= k' + r)%nat ->
  subtree k h r = subtree k' h r.
Proof.
  revert k' r. induction k as [|k IH]; intros k' r Hk Hk'.
  - destruct k'; simpl; [done|]. by rewrite (lookup_ge_None_2 h r) by lia.
  - destruct k' as [|k'].
    + simpl. by rewrite (lookup_ge_None_2 h r) by lia.
    + simpl. destruct (h !! r) as [nd|] eqn:Hr; [|done]. f_equal.
      apply flat_map_ext_elem.
      intros c Hc. rewrite elem_of_reverse in Hc.
      assert (r < c)%nat by (apply child_lt; exists nd; by split).
      apply IH; lia.
Qed.

Lemma subtree_unfold r nd :
  h !! r = Some nd ->
  subtree (length h) h r
  = r :: flat_map (subtree (length h) h) (reverse (children nd)).
Proof.
  intros Hr. pose proof (lookup_lt_Some _ _ _ Hr) as Hlt.
  rewrite (subtree_depth (length h) (S (length h)) r) by lia.
  simpl. by rewrite Hr.
Qed.

Lemma subtree_descendant k r x : x ∈ subtree k h r -> rtc (child h) r x.
Proof.
  revert r. induction k as [|k IH]; intros r; simpl.
  - by intros ?%elem_of_nil.
  - destruct (h !! r) as [nd|] eqn:Hr; [|by intros ?%elem_of_nil].
    intros [->|Hx]%elem_of_cons; [done|].
    apply elem_of_flat_map in Hx as (c & Hx & Hc).
    rewrite elem_of_reverse in Hc.
    eapply rtc_l; [exists nd; by split|]. by apply IH.
Qed.

Lemma descendant_subtree r x :
  (r < length h)%nat -> rtc (child h) r x -> x ∈ subtree (length h) h r.
Proof.
  intros Hr H. induction H as [r|r c x Hc Hcx IH].
  - destruct (lookup_lt_is_Some_2 h r Hr) as [nd Hnd].
    rewrite (subtree_unfold r nd Hnd). by left.
  - destruct Hc as (nd & Hnd & Hin).
    rewrite (subtree_unfold r nd Hnd). right.
    apply elem_of_flat_map. exists c. split.
    + apply IH. apply child_valid with r. exists nd. by split.
    + by apply elem_of_reverse.
Qed.

Lemma NoDup_subtree k r : NoDup (subtree k h r).
Proof.
  revert r. induction k as [|k IH]; intros r; simpl; [constructor|].
  destruct (h !! r) as [nd|] eqn:Hr; [|constructor].
  constructor.
  - intros Hx.
    apply elem_of_flat_map in Hx as (c & Hx & Hc).
    rewrite elem_of_reverse in Hc.
    apply subtree_descendant, descendant_le in Hx.
    assert (r < c)%nat by (apply child_lt; exists nd; by split). lia.
  - apply NoDup_flat_map.
    + intros c1 c2 z Hc1 Hc2 Hz1 Hz2.
      rewrite elem_of_reverse in Hc1, Hc2.
      apply (siblings_disjoint r c1 c2 z); try (exists nd; by split);
        by eapply subtree_descendant.
    + intros c _. apply IH.
    + rewrite reverse_Permutation. by eapply th_nodup.
Qed.

End Tree.

(* ===================================================================== *)
(** ** [search]                                                            *)
(* ===================================================================== *)

Lemma search_hit_total matches sf sd nd :
  exists b, search_hit matches sf sd nd = Return b.
Proof.
  unfold search_hit, _get_name.
  destruct (record nd); simpl; destruct sf, sd; simpl; eauto.
Qed.

Lemma hits_search_hit matches sf sd (h : heap) x nd :
  h !! x = Some nd ->
  search_hit matches sf sd nd = Return (hits matches sf sd h x).
Proof.
  intros Hx. unfold hits. rewrite Hx.
  by destruct (search_hit_total matches sf sd nd) as [b ->].
Qed.

(** What the test of [search] says about a node. *)
Lemma hits_spec matches sf sd (h : heap) x :
  hits matches sf sd h x = true <->
  exists nd n,
    h !! x = Some nd /\
    (sf && is_FileRecord (record nd)
     || sd && is_DirectoryRecord (record nd) = true) /\
    _get_name nd = Return n /\ matches n = true.
Proof.
  unfold hits, search_hit. split.
  - destruct (h !! x) as [nd|]; [|done].
    destruct (sf && is_FileRecord (record nd)
              || sd && is_DirectoryRecord (record nd)) eqn:E; [|done].
    destruct (_get_name nd) as [n| |] eqn:En; simpl; [|done..].
    intros Hm. exists nd, n. done.
  - intros (nd & n & -> & -> & -> & Hm). done.
Qed.

(** The loop of [search] pops the nodes of the subtrees on its stack in
    the order of [subtree] and keeps those that pass the test. *)
Lemma search_loop_subtrees matches sf sd (h : heap) :
  tree_heap h ->
  forall fuel q nodes,
    Forall (fun x => (x < length h)%nat) q ->
    (length (flat_map (subtree (length h) h) q) <= fuel)%nat ->
    search_loop fuel matches sf sd h q nodes
    = Return (nodes ++ filter (fun x => hits matches sf sd h x)
                         (flat_map (subtree (length h) h) q)).
Proof.
  intros Htree. induction fuel as [|fuel IH]; intros q nodes Hq Hfuel.
  - destruct q as [|x q]; simpl; [by rewrite app_nil_r|].
    apply Forall_cons in Hq as [Hx _].
    destruct (lookup_lt_is_Some_2 h x Hx) as [nd Hnd].
    simpl in Hfuel. rewrite (subtree_unfold h Htree x nd Hnd) in Hfuel.
    simpl in Hfuel. lia.
  - destruct q as [|x q]; simpl; [by rewrite app_nil_r|].
    apply Forall_cons in Hq as [Hx Hq].
    destruct (lookup_lt_is_Some_2 h x Hx) as [nd Hnd].
    unfold deref. rewrite Hnd. simpl.
    rewrite (hits_search_hit matches sf sd h x nd Hnd). simpl.
    simpl in Hfuel.
    rewrite (subtree_unfold h Htree x nd Hnd) in Hfuel |- *.
    simpl in Hfuel. rewrite IH.
    + rewrite flat_map_app. simpl.
      destruct (hits matches sf sd h x) eqn:Ehit.
      * rewrite filter_cons_True by (by apply Is_true_true).
        by rewrite <- app_assoc.
      * rewrite filter_cons_False by (by apply Is_true_false). done.
    + apply Forall_app. split; [|done]. apply Forall_forall.
      intros c Hc. rewrite elem_of_reverse in Hc.
      apply (child_valid h Htree x). exists nd. by split.
    + rewrite flat_map_app, length_app in *. lia.
Qed.

Lemma NoDup_bounded_length (l : list nat) n :
  NoDup l -> (forall x, x ∈ l -> (x < n)%nat) -> (length l <= n)%nat.
Proof.
  intros Hnd Hlt.
  transitivity (length (seq 0 n)); [|by rewrite length_seq].
  apply submseteq_length, NoDup_submseteq; [done|].
  intros x Hx. apply elem_of_seq. specialize (Hlt x Hx). lia.
Qed.

(** C8. In a tree, [search] returns, each once, exactly the nodes of the
    subtree of [self] whose record class is asked for by the flags and
    whose display name matches. On the tree with the files
    [AbstractRing.ot] and [AbstractAmulet.ot] and the directory
    [AbstractStuff], searching [^Abstract] among files only returns the
    two files. *)
Theorem search_is_exact (h : heap) self matches sf sd fuel :
  tree_heap h -> (self < length h)%nat -> (length h <= fuel)%nat ->
  (exists nodes,
      search fuel h self matches sf sd = Return nodes /\
      NoDup nodes /\
      forall x,
        x ∈ nodes <->
        rtc (child h) self x /\
        exists nd n,
          h !! x = Some nd /\
          (sf && is_FileRecord (record nd)
           || sd && is_DirectoryRecord (record nd) = true) /\
          _get_name nd = Return n /\ matches n = true)
  /\
  (load 8 abstract_archive = Return (abstract_tree, 0%nat) /\
   name_of abstract_tree 4 = Return (py "AbstractRing.ot") /\
   name_of abstract_tree 3 = Return (py "AbstractAmulet.ot") /\
   name_of abstract_tree 1 = Return (py "AbstractStuff") /\
   search 5 abstract_tree 0 (starts_with (py "Abstract")) true false
   = Return [4; 3]%nat).
Proof.
  intros Htree Hself Hfuel. split.
  - assert (NoDup (subtree (length h) h self)) as Hnd
      by apply (NoDup_subtree h Htree).
    exists (filter (fun x => hits matches sf sd h x)
              (subtree (length h) h self)).
    split; [|split].
    + unfold search. rewrite (search_loop_subtrees matches sf sd h Htree).
      * simpl. by rewrite app_nil_r.
      * by repeat constructor.
      * simpl. rewrite app_nil_r.
        etransitivity; [|exact Hfuel].
        apply NoDup_bounded_length; [done|].
        intros x Hx. apply (descendant_valid h Htree self); [done|].
        by eapply subtree_descendant.
    + by apply NoDup_filter.
    + intros x. rewrite list_elem_of_filter.
      rewrite <- hits_spec. split.
      * intros [Hhit Hx]. split; [by eapply subtree_descendant|].
        by apply Is_true_true.
      * intros [Hx Hhit]. split; [by apply Is_true_true|].
        by apply descendant_subtree.
  - repeat split; vm_compute; reflexivity.
Qed.

Lemma load_Return fuel data h root :
  load fuel data = Return (h, root) ->
  exists records,
    scan fuel data = Return records /\
    directory_build fuel records [] None = Return (h, root).
Proof. unfold load. intros H. by apply obind_Return in H. Qed.

Lemma abstract_tree_is_tree : tree_heap abstract_tree.
Proof.
  assert (load 8 abstract_archive = Return (abstract_tree, 0%nat)) as H
    by (vm_compute; reflexivity).
  apply load_Return in H as (records & _ & H).
  by apply directory_build_tree in H as [H _].
Qed.

(** A search below the directory of [abstract_tree]. *)
Lemma search_is_exact_witness :
  exists nodes,
    search 5 abstract_tree 1 (starts_with (py "Ring")) true true
    = Return nodes /\ NoDup nodes.
Proof.
  destruct (search_is_exact abstract_tree 1 (starts_with (py "Ring"))
              true true 5 abstract_tree_is_tree) as [(nodes & H & Hnd & _) _].
  - vm_compute. lia.
  - vm_compute. lia.
  - exists nodes. split; [exact H | exact Hnd].
Defined.

(* ===================================================================== *)
(** ** Paths                                                               *)
(* ===================================================================== *)

Lemma rfind_absent c p : c ∉ p -> posixpath.rfind c p = (-1)%Z.
Proof.
  induction p as [|x p IH]; intros H; simpl; [done|].
  rewrite IH by (intros ?; apply H; by right). simpl.
  case_decide; [|done]. subst. exfalso. apply H. by left.
Qed.

Lemma rfind_last c pre n :
  c ∉ n -> posixpath.rfind c (pre ++ c :: n) = Z.of_nat (length pre).
Proof.
  intros Hn. induction pre as [|x pre IH]; simpl.
  - rewrite rfind_absent by done. simpl. by case_decide.
  - rewrite IH. destruct (Z.leb_spec 0 (Z.of_nat (length pre))); lia.
Qed.

Lemma join_snoc ns n :
  ns <> [] -> posixpath.join (ns ++ [n]) = posixpath.join ns ++ posixpath.sep :: n.
Proof.
  induction ns as [|m ns IH]; intros H; [done|].
  destruct ns as [|m' ns]; [done|].
  change (posixpath.join ((m :: m' :: ns) ++ [n]))
    with (m ++ posixpath.sep :: posixpath.join ((m' :: ns) ++ [n])).
  rewrite IH by done.
  change (posixpath.join (m :: m' :: ns))
    with (m ++ posixpath.sep :: posixpath.join (m' :: ns)).
  by rewrite <- app_assoc.
Qed.

Lemma join_first ns :
  ns <> [] -> Forall segment ns ->
  exists c rest, posixpath.join ns = c :: rest /\ c <> posixpath.sep.
Proof.
  destruct ns as [|m ns]; [done|]. intros _ Hns.
  apply Forall_cons in Hns as [[Hm Hsep] _].
  destruct m as [|c m]; [done|].
  exists c. destruct ns as [|m' ns]; simpl; eexists; (split; [done|]);
    intros ->; apply Hsep; by left.
Qed.

Lemma join_last ns :
  ns <> [] -> Forall segment ns ->
  exists init c, posixpath.join ns = init ++ [c] /\ c <> posixpath.sep.
Proof.
  induction ns as [|m ns IH] using rev_ind; [done|]. intros _ Hns.
  apply Forall_app in Hns as [_ [[Hm Hsep] _]%Forall_cons].
  destruct (exists_last Hm) as (m0 & c & ->).
  assert (c <> posixpath.sep).
  { intros ->. apply Hsep. apply elem_of_app. right. by left. }
  destruct ns as [|m' ns'].
  - exists m0, c. done.
  - rewrite join_snoc by done. eexists _, c.
    split; [|done]. by rewrite app_comm_cons, app_assoc.
Qed.

Lemma rstrip_sep_snoc c init x :
  x <> c -> posixpath.rstrip c ((init ++ [x]) ++ [c]) = init ++ [x].
Proof.
  intros Hx. unfold posixpath.rstrip.
  rewrite !reverse_snoc. simpl. repeat case_decide; try done.
  by rewrite reverse_cons, reverse_involutive.
Qed.

(** [posixpath.split] takes the last segment off a joined path. *)
Lemma split_join ns n :
  Forall segment ns -> segment n ->
  posixpath.split (posixpath.join (ns ++ [n])) = (posixpath.join ns, n).
Proof.
  intros Hns [Hn Hsep]. unfold posixpath.split.
  destruct ns as [|m ns'] eqn:E.
  - simpl. rewrite rfind_absent by done. simpl.
    change (Z.to_nat (-1 + 1)) with 0%nat. by rewrite take_0, drop_0.
  - rewrite <- E in *. assert (ns <> []) as Hne by (by subst).
    rewrite join_snoc by done. rewrite rfind_last by done.
    replace (Z.to_nat (Z.of_nat (length (posixpath.join ns)) + 1))
      with (length (posixpath.join ns ++ [posixpath.sep]))
      by (rewrite length_app; simpl; lia).
    replace (posixpath.join ns ++ posixpath.sep :: n)
      with ((posixpath.join ns ++ [posixpath.sep]) ++ n)
      by (by rewrite <- app_assoc).
    rewrite take_app_length, drop_app_length.
    destruct (join_last ns Hne Hns) as (init & c & Hj & Hc).
    destruct (join_first ns Hne Hns) as (c0 & rest & Hj0 & Hc0).
    case_decide as Hd.
    + by rewrite Hj, rstrip_sep_snoc, <- Hj.
    + exfalso. apply Hd. split.
      * rewrite Hj0. done.
      * rewrite Hj0. simpl. intros H. by simplify_eq.
Qed.

Lemma join_nil_iff ns :
  Forall segment ns -> posixpath.join ns = [] -> ns = [].
Proof.
  intros Hns H. destruct ns as [|m ns]; [done|]. exfalso.
  destruct (join_first (m :: ns)) as (c & rest & E & _); [done|done|].
  congruence.
Qed.

Lemma length_join ns :
  Forall segment ns -> (length ns <= length (posixpath.join ns))%nat.
Proof.
  induction ns as [|m ns IH]; intros Hns; [done|].
  apply Forall_cons in Hns as [[Hm _] Hns]. specialize (IH Hns).
  destruct ns as [|m' ns].
  - destruct m; [done|]. simpl. lia.
  - change (posixpath.join (m :: m' :: ns))
      with (m ++ posixpath.sep :: posixpath.join (m' :: ns)).
    rewrite length_app. simpl in *. lia.
Qed.

Lemma split_path_step fuel item path :
  item <> [] ->
  split_path (S fuel) item path
  = split_path fuel (posixpath.split item).1
      ((posixpath.split item).2 :: path).
Proof. by destruct item. Qed.

(** The first loop of [__getitem__] on a joined path gives back the
    segments. *)
Lemma split_path_join ns :
  Forall segment ns ->
  forall fuel acc,
    (length ns <= fuel)%nat ->
    split_path fuel (posixpath.join ns) acc = Return (ns ++ acc).
Proof.
  induction ns as [|n ns IH] using rev_ind; intros Hns fuel acc Hfuel.
  - by destruct fuel.
  - apply Forall_app in Hns as [Hns [Hn _]%Forall_cons].
    rewrite length_app in Hfuel. simpl in Hfuel.
    destruct fuel as [|fuel]; [lia|].
    assert (posixpath.join (ns ++ [n]) <> []) as Hne.
    { intros H. apply join_nil_iff in H.
      - by destruct ns.
      - apply Forall_app. split; [done|]. by constructor. }
    rewrite split_path_step, split_join by done. simpl.
    rewrite IH by (done || lia). by rewrite <- app_assoc.
Qed.

(* ===================================================================== *)
(** ** Path lookup finds the node of a path                                *)
(* ===================================================================== *)

Lemma _get_name_nonempty nd n : _get_name nd = Return n -> n <> [].
Proof.
  unfold _get_name. intros H. apply obind_Return in H as (m & _ & H).
  destruct m; by simplify_eq.
Qed.

Lemma linked_snoc (h : heap) r cs y z :
  linked h r cs y -> child h y z -> linked h r (cs ++ [z]) z.
Proof.
  revert r. induction cs as [|c cs IH]; intros r; simpl.
  - intros ->. done.
  - intros [Hc Hl] Hz. split; [done|]. by apply IH.
Qed.

Section Lookup.

Variable h : heap.
Hypothesis Htree : tree_heap h.

Lemma linked_length r cs x : linked h r cs x -> (r + length cs <= x)%nat.
Proof.
  revert r. induction cs as [|c cs IH]; intros r; simpl.
  - intros ->. lia.
  - intros [Hc Hl]. apply child_lt in Hc; [|done]. apply IH in Hl. lia.
Qed.

(** The climb of [get_parent] from a node of the tree to the root, when
    asked for the list: the chain from below the root down to the node. *)
Lemma get_parent_chain root rd x :
  h !! root = Some rd -> parent rd = None ->
  rtc (child h) root x ->
  exists cs,
    linked h root cs x /\
    forall fuel n nodes,
      (n < 0)%Z -> (length cs <= fuel)%nat ->
      get_parent_loop fuel h x n None true nodes
      = Return (cs ++ nodes, root).
Proof.
  intros Hroot Hpar. revert x. refine (rtc_ind_r _ root _ _).
  - exists []. split; [done|]. intros fuel n nodes Hn _.
    destruct fuel; simpl; (case_decide; [lia|]);
      unfold deref; rewrite Hroot; simpl; by rewrite Hpar.
  - intros y z Hy Hyz (cs & Hl & Hrun).
    exists (cs ++ [z]). split; [by eapply linked_snoc|].
    intros fuel n nodes Hn Hfuel.
    rewrite length_app in Hfuel. simpl in Hfuel.
    destruct fuel as [|fuel]; [lia|].
    destruct Hyz as (yd & Hyd & Hin).
    destruct (th_child h Htree y yd z Hyd Hin) as (_ & zd & Hzd & Hzp).
    simpl. case_decide; [lia|]. unfold deref. rewrite Hzd. simpl.
    rewrite Hzp. simpl.
    rewrite Hrun by lia. by rewrite <- app_assoc.
Qed.

Hypothesis Hnames : well_named h.

Lemma name_of_defined x :
  (x < length h)%nat -> exists n, name_of h x = Return n /\ segment n.
Proof.
  intros Hx. destruct (lookup_lt_is_Some_2 h x Hx) as [nd Hnd].
  destruct (proj1 Hnames x nd Hnd) as (n & Hn & Hsep).
  exists n. unfold name_of, deref. rewrite Hnd. simpl.
  split; [done|]. split; [by eapply _get_name_nonempty|done].
Qed.

Lemma names_of_chain r cs x :
  linked h r cs x ->
  exists ns,
    names_of h cs = Return ns /\ Forall segment ns /\
    Forall2 (fun c n => name_of h c = Return n) cs ns.
Proof.
  revert r. induction cs as [|c cs IH]; intros r; simpl.
  - intros _. exists []. repeat split; constructor.
  - intros [Hc Hl]. destruct (IH c Hl) as (ns & Hns & Hseg & Hall).
    destruct (name_of_defined c) as (n & Hn & Hsegn).
    { by eapply child_valid. }
    exists (n :: ns). rewrite Hn, Hns. simpl.
    repeat split; by constructor.
Qed.

Lemma find_child_unique nd c n :
  (exists p, h !! p = Some nd) ->
  c ∈ children nd -> name_of h c = Return n ->
  find_child h (children nd) n = Return (Some c).
Proof.
  intros [p Hp] Hc Hn.
  assert (forall l, (forall c', c' ∈ l -> c' ∈ children nd) -> c ∈ l ->
                    find_child h l n = Return (Some c)) as Hgen.
  { induction l as [|c' l IH]; intros Hsub Hin.
    - by apply elem_of_nil in Hin.
    - simpl. destruct (name_of_defined c') as (n' & Hn' & _).
      { apply (child_valid h Htree p). exists nd. split; [done|].
        apply Hsub. by left. }
      rewrite Hn'. simpl. case_decide as Heq.
      + subst n'. do 2 f_equal.
        apply (proj2 Hnames p nd c' c Hp); [apply Hsub; by left|done|].
        congruence.
      + apply IH; [intros; apply Hsub; by right|].
        apply elem_of_cons in Hin as [->|Hin]; [|done]. congruence. }
  by apply Hgen.
Qed.

(** The second loop of [__getitem__] follows a chain by its names. *)
Lemma walk_path_chain r cs x ns :
  linked h r cs x ->
  Forall2 (fun c n => name_of h c = Return n) cs ns ->
  walk_path h r ns = Return (Some x).
Proof.
  intros Hl Hall. revert r Hl.
  induction Hall as [|c n cs ns Hn Hall IH]; intros r; simpl.
  - by intros ->.
  - intros [(rd & Hrd & Hin) Hl]. unfold deref. rewrite Hrd. simpl.
    rewrite (find_child_unique rd c n) by eauto. simpl. by apply IH.
Qed.

End Lookup.

(** C2. After a scan and a build, in a tree whose display names are free
    of the separator and differ between the children of one node, the
    path of every node of the tree (the display names of the nodes from
    below the root down to it, joined by the separator) is defined, and
    indexing the root with it returns that node. *)
Theorem lookup_of_path_returns_node fuel1 fuel2 data records h root :
  scan fuel1 data = Return records ->
  directory_build fuel2 records [] None = Return (h, root) ->
  well_named h ->
  forall x,
    rtc (child h) root x ->
    exists path,
      (forall fuel, (length h <= fuel)%nat ->
                    pathOf fuel h x = Return path) /\
      (forall fuel, (length path <= fuel)%nat ->
                    __getitem__ fuel h root path = Return (Some x)).
Proof.
  intros _ Hbuild Hnames x Hx.
  destruct (directory_build_tree _ _ _ _ Hbuild) as (Htree & rd & Hrd & Hpar).
  destruct (get_parent_chain h Htree root rd x Hrd Hpar Hx)
    as (cs & Hl & Hclimb).
  destruct (names_of_chain h Htree Hnames root cs x Hl)
    as (ns & Hns & Hseg & Hall).
  exists (posixpath.join ns). split.
  - intros fuel Hfuel. unfold pathOf. rewrite Hclimb.
    + simpl. rewrite app_nil_r, Hns. done.
    + lia.
    + pose proof (linked_length h Htree root cs x Hl).
      assert (x < length h)%nat.
      { apply (descendant_valid h Htree root); [|done].
        by eapply lookup_lt_Some. }
      lia.
  - intros fuel Hfuel. unfold __getitem__.
    rewrite split_path_join.
    + simpl. rewrite app_nil_r.
      by apply (walk_path_chain h Htree Hnames root cs x ns).
    + done.
    + pose proof (length_join ns Hseg). lia.
Qed.

Lemma nested_tree_well_named : well_named nested_tree.
Proof.
  remember nested_tree as t eqn:E. vm_compute in E. subst t. split.
  - intros x nd H.
    do 4 (destruct x as [|x]; [simplify_eq/=; eexists; split;
                               [vm_compute; reflexivity | compute_done]|]).
    done.
  - intros p nd c1 c2 H H1 H2 Hn.
    do 4 (destruct p as [|p];
          [simplify_eq/=;
           repeat (apply elem_of_cons in H1 as [->|H1]);
           try (by apply elem_of_nil in H1);
           repeat (apply elem_of_cons in H2 as [->|H2]);
           try (by apply elem_of_nil in H2);
           try reflexivity; vm_compute in Hn; discriminate|]).
    done.
Qed.

(** The file [Art/a.dds] of [nested_archive] is found by its path. *)
Lemma lookup_of_path_returns_node_witness :
  pathOf 4 nested_tree 3 = Return (py "Art/a.dds") /\
  __getitem__ 9 nested_tree 0 (py "Art/a.dds") = Return (Some 3%nat).
Proof.
  assert (scan 8 nested_archive = Return nested_records) as Hscan
    by (vm_compute; reflexivity).
  assert (directory_build 8 nested_records [] None
          = Return (nested_tree, 0%nat)) as Hbuild
    by (vm_compute; reflexivity).
  assert (rtc (child nested_tree) 0%nat 3%nat) as Hreach.
  { apply rtc_l with 2%nat; [|apply rtc_once].
    - eexists. split; [vm_compute; reflexivity|compute_done].
    - eexists. split; [vm_compute; reflexivity|compute_done]. }
  destruct (lookup_of_path_returns_node 8 8 nested_archive nested_records
              nested_tree 0 Hscan Hbuild nested_tree_well_named 3 Hreach)
    as (path & Hpath & Hget).
  assert (path = py "Art/a.dds") as ->.
  { specialize (Hpath 4%nat (le_n 4)). vm_compute in Hpath.
    injection Hpath as <-. reflexivity. }
  split.
  - exact (Hpath 4%nat (le_n 4)).
  - apply Hget. vm_compute. lia.
Defined.

(* ===================================================================== *)
(** * Further properties                                                   *)
(* ===================================================================== *)

(** ** The table of a scan, on any input                                   *)

Lemma keeps_buffer_bind {A B} (c : io A) (k : A -> io B) :
  keeps_buffer c -> (forall a, keeps_buffer (k a)) -> keeps_buffer (bind c k).
Proof.
  intros Hc Hk f b f' H.
  apply bind_Return in H as (a & f1 & H1 & H2).
  destruct (Hc _ _ _ H1) as [E1 P1]. destruct (Hk a _ _ _ H2) as [E2 P2].
  split; [congruence|auto].
Qed.

Lemma keeps_buffer_ret {A} (a : A) : keeps_buffer (ret a).
Proof. intros f b f' H. unfold ret in H. by simplify_eq. Qed.

Lemma keeps_buffer_lift {A} (o : outcome A) : keeps_buffer (lift o).
Proof. intros f b f' H. apply lift_Return in H as [_ ->]. done. Qed.

Lemma keeps_buffer_read n : keeps_buffer (BytesIO_.read n).
Proof.
  intros f b f' H. unfold BytesIO_.read in H. simplify_eq. simpl.
  split; [done|lia].
Qed.

Lemma keeps_buffer_seek_cur k : keeps_buffer (BytesIO_.seek_cur k).
Proof.
  intros f b f' H. unfold BytesIO_.seek_cur in H. simplify_eq. simpl.
  split; [done|lia].
Qed.

Lemma keeps_buffer_tell : keeps_buffer BytesIO_.tell.
Proof. intros f b f' H. unfold BytesIO_.tell in H. by simplify_eq. Qed.

Lemma keeps_buffer_read_offsets n : keeps_buffer (read_offsets n).
Proof.
  induction n as [|n IH]; simpl; [apply keeps_buffer_ret|].
  repeat (apply keeps_buffer_bind; [|intros ?]);
    auto using keeps_buffer_read, keeps_buffer_lift, keeps_buffer_ret.
Qed.

Lemma keeps_buffer_read_entries n : keeps_buffer (read_entries n).
Proof.
  induction n as [|n IH]; simpl; [apply keeps_buffer_ret|].
  repeat (apply keeps_buffer_bind; [|intros ?]);
    auto using keeps_buffer_read, keeps_buffer_lift, keeps_buffer_ret.
Qed.

(** One step of a proof of [keeps_buffer]. *)
Ltac keeps_step :=
  first
    [ apply keeps_buffer_ret | apply keeps_buffer_read
    | apply keeps_buffer_seek_cur | apply keeps_buffer_tell
    | apply keeps_buffer_lift | apply keeps_buffer_read_offsets
    | apply keeps_buffer_read_entries
    | apply keeps_buffer_bind; [|intros ?] ].

(** The record a payload decoder returns has the length, the offset and
    the class it was called for. *)
Lemma read_tagged_sound L t o f r f' :
  read_tagged L t o f = Return (r, f') ->
  rec_length r = L /\ rec_offset r = o /\ tag r = t /\
  getvalue f' = getvalue f /\ ((0 <= pos f)%Z -> (0 <= pos f')%Z).
Proof.
  unfold read_tagged. intros H.
  repeat case_decide; subst.
  - assert (keeps_buffer (FileRecord_read L o)) as K
      by (unfold FileRecord_read; repeat keeps_step).
    destruct (K _ _ _ H). unfold FileRecord_read in H.
    repeat (apply bind_Return in H as (? & ? & _ & H)).
    unfold ret in H. by simplify_eq.
  - assert (keeps_buffer (FreeRecord_read L o)) as K
      by (unfold FreeRecord_read; repeat keeps_step).
    destruct (K _ _ _ H). unfold FreeRecord_read in H.
    repeat (apply bind_Return in H as (? & ? & _ & H)).
    unfold ret in H. by simplify_eq.
  - assert (keeps_buffer (DirectoryRecord_read L o)) as K
      by (unfold DirectoryRecord_read; repeat keeps_step).
    destruct (K _ _ _ H). unfold DirectoryRecord_read in H.
    repeat (apply bind_Return in H as (? & ? & _ & H)).
    unfold ret in H. by simplify_eq.
  - assert (keeps_buffer (GGPKRecord_read L o)) as K
      by (unfold GGPKRecord_read; repeat keeps_step).
    destruct (K _ _ _ H). unfold GGPKRecord_read in H.
    repeat (apply bind_Return in H as (? & ? & _ & H)).
    unfold ret in H. by simplify_eq.
  - by apply lift_Return in H as [? _].
Qed.

Lemma read_is_slice n data p :
  (0 <= n)%Z ->
  BytesIO_.read n (mkBytesIO data p)
  = Return (slice data p n,
            mkBytesIO data (p + Z.of_nat (length (slice data p n)))).
Proof.
  intros Hn. unfold BytesIO_.read, slice. simpl.
  by destruct (Z.ltb_spec n 0); [lia|].
Qed.

(** A record decoded at a position of the buffer is sound for it. *)
Lemma _read_record_sound rs o data rs' f' :
  (0 <= o < Z.of_nat (length data))%Z ->
  _read_record rs o (mkBytesIO data o) = Return (rs', f') ->
  exists r,
    rs' = <[o := r]> rs /\ entry_sound data o r /\
    getvalue f' = data /\ (0 <= pos f')%Z.
Proof.
  intros Ho H. unfold _read_record in H.
  apply bind_Return in H as ([L t] & f1 & Hh & H).
  apply bind_Return in H as (r & f2 & Hr & H).
  unfold ret in H. simplify_eq. simpl in Hr.
  unfold read_header in Hh.
  apply bind_Return in Hh as (bl & g1 & Hbl & Hh).
  apply bind_Return in Hh as (L' & g1' & HL & Hh).
  apply lift_Return in HL as [HL ->].
  apply bind_Return in Hh as (bt & g2 & Hbt & Hh).
  apply bind_Return in Hh as (t' & g2' & Ht & Hh).
  apply lift_Return in Ht as [Ht ->].
  unfold ret in Hh. simplify_eq.
  rewrite read_is_slice in Hbl by lia. simplify_eq.
  unfold struct.unpack_i in HL. case_decide as Hlen; [|done]. simplify_eq.
  rewrite Hlen in Hbt. rewrite read_is_slice in Hbt by lia. simplify_eq.
  destruct (read_tagged_sound _ _ _ _ _ _ Hr) as (E1 & E2 & E3 & E4 & E5).
  simpl in *. exists r. split; [done|]. split.
  - split; [done|]. split; [done|]. split; [done|].
    rewrite E3. replace (o + 4)%Z with (o + Z.of_nat 4)%Z by lia. done.
  - split; [done|]. apply E5. lia.
Qed.

Lemma _read_loop_sound fuel data :
  forall o rs rs' f',
    (0 <= o)%Z ->
    (forall k r, rs !! k = Some r -> entry_sound data k r) ->
    _read_loop fuel (Z.of_nat (length data)) o rs (mkBytesIO data o)
    = Return (rs', f') ->
    (forall k r, rs' !! k = Some r -> entry_sound data k r) /\
    (forall k, is_Some (rs !! k) -> is_Some (rs' !! k)) /\
    ((o < Z.of_nat (length data))%Z -> is_Some (rs' !! o)).
Proof.
  induction fuel as [|fuel IH]; intros o rs rs' f' Ho Hrs H; simpl in H.
  - destruct (Z.ltb_spec o (Z.of_nat (length data))); [done|].
    unfold ret in H. simplify_eq. split; [exact Hrs|]. split; [done|lia].
  - destruct (Z.ltb_spec o (Z.of_nat (length data))) as [Hlt|Hge].
    + apply bind_Return in H as (rs1 & f1 & Hrec & H).
      apply bind_Return in H as (o1 & f1' & Htell & H).
      unfold BytesIO_.tell in Htell. simplify_eq.
      destruct (_read_record_sound rs o data rs1 f1' (conj Ho Hlt) Hrec)
        as (r & -> & Hsound & Hdata & Hpos).
      destruct f1' as [d1 p1]. simpl in *. subst d1.
      destruct (IH p1 (<[o := r]> rs) rs' f' Hpos) as (H1 & H2 & H3);
        [|exact H|].
      * intros k r' Hk. apply lookup_insert_Some in Hk as [[<- <-]|[_ Hk]];
          [done|by apply Hrs].
      * split; [done|]. split.
        -- intros k Hk. apply H2.
           destruct (decide (o = k)) as [->|Hne];
             [by rewrite lookup_insert_eq|by rewrite lookup_insert_ne].
        -- intros _. apply H2. by rewrite lookup_insert_eq.
    + unfold ret in H. simplify_eq. split; [exact Hrs|]. split; [done|lia].
Qed.

(** X1. Whatever the bytes, when the scan returns, every entry of its
    table sits at a position inside the buffer, carries that position as
    its offset, has the length read at that position and the class of the
    tag read after it; and the table of a non-empty buffer has an entry at
    offset 0. *)
Theorem scan_table_is_sound fuel data rs :
  scan fuel data = Return rs ->
  (forall k r, rs !! k = Some r -> entry_sound data k r) /\
  (data <> [] -> is_Some (rs !! 0%Z)).
Proof.
  unfold scan, _read. intros H.
  destruct (bind BytesIO_.seek_end0 _ _) as [[rs' f']| |] eqn:E;
    simplify_eq.
  apply bind_Return in E as (size & f1 & Hend & E).
  apply bind_Return in E as ([] & f2 & Hset & E).
  unfold BytesIO_.seek_end0 in Hend. unfold BytesIO_.seek_set0 in Hset.
  simplify_eq. simpl in E.
  destruct (_read_loop_sound fuel data 0 ∅ rs f') as (H1 & _ & H3);
    [lia| |exact E|].
  - intros k r Hk. by rewrite lookup_empty in Hk.
  - split; [done|]. intros Hne. apply H3.
    destruct data; [done|]. simpl. lia.
Qed.

(** The table of [abstract_archive]: its entry at 272 is the directory
    record read there. *)
Lemma scan_table_is_sound_witness :
  exists r,
    abstract_records !! 272%Z = Some r /\
    entry_sound abstract_archive 272 r.
Proof.
  assert (scan 8 abstract_archive = Return abstract_records) as E
    by (vm_compute; reflexivity).
  destruct (abstract_records !! 272%Z) as [r|] eqn:Er;
    [|vm_compute in Er; discriminate].
  exists r. split; [done|].
  exact (proj1 (scan_table_is_sound 8 abstract_archive _ E) 272%Z r Er).
Defined.

(** ** Declared lengths are not checked                                    *)

(** Decoding a free or a file record moves the cursor to the declared end
    of the record, wherever that is. *)
Lemma skippable_decodes data o L :
  skippable_at data o L ->
  exists r,
    rec_length r = L /\ rec_offset r = o /\
    forall rs,
      _read_record rs o (mkBytesIO data o)
      = Return (<[o := r]> rs, mkBytesIO data (Z.max 0 (o + L))).
Proof.
  intros (Ho & HL & Hpay).
  assert (forall t rs (body : io BaseRecord) r,
             (o + 8 <= Z.of_nat (length data))%Z ->
             slice data (o + 4) 4 = synth.ascii_bytes t ->
             codecs.decode_ascii (synth.ascii_bytes t) = Return (py t) ->
             read_tagged L (py t) o = body ->
             body (mkBytesIO data (o + 4 + 4))
             = Return (r, mkBytesIO data (Z.max 0 (o + L))) ->
             _read_record rs o (mkBytesIO data o)
             = Return (<[o := r]> rs, mkBytesIO data (Z.max 0 (o + L))))
    as Hhead.
  { intros t rs body r Hfit Htag Hdec Hbody Hrun. unfold _read_record.
    assert (read_header (mkBytesIO data o)
            = Return ((L, py t), mkBytesIO data (o + 4 + 4))) as Hh.
    { unfold read_header. rewrite read_i32 by lia.
      erewrite bind_step by (by apply read_in_bounds; lia).
      unfold bind. rewrite Htag, Hdec, HL. done. }
    erewrite bind_step by exact Hh. simpl.
    rewrite Hbody. erewrite bind_step by exact Hrun. done. }
  destruct Hpay as [(Htag & Hfit)|(Htag & Hnl & Hfit & name & Hname)].
  - eexists (FreeRecord L o _). repeat split. intros rs.
    eapply (Hhead "FREE"); [lia|done|done|apply read_tagged_FREE|].
    unfold FreeRecord_read.
    erewrite bind_step by (by apply read_in_bounds; lia).
    unfold bind at 1. unfold struct.unpack_q.
    rewrite length_slice by lia. case_decide; [|done]. simpl.
    unfold bind, ret. simpl. do 2 f_equal. f_equal. lia.
  - set (nl := i32_at data (o + 8)) in *.
    eexists (FileRecord L o name nl _ _ _). repeat split. intros rs.
    eapply (Hhead "FILE"); [lia|done|done|apply read_tagged_FILE|].
    unfold FileRecord_read. replace (o + 4 + 4)%Z with (o + 8)%Z by lia.
    rewrite read_i32 by lia. fold nl.
    erewrite bind_step by (by apply read_in_bounds; lia).
    erewrite bind_step by (by apply read_in_bounds; lia).
    replace (o + 8 + 4 + 32)%Z with (o + 44)%Z by lia.
    unfold bind at 1. rewrite Hname. simpl.
    unfold bind, ret. simpl. do 2 f_equal. f_equal. lia.
Qed.

Lemma records_between_le data o ls o' :
  records_between data o ls o' -> (o <= o')%Z.
Proof.
  induction 1 as [|o L ls o' Hrec _ IH]; [lia|].
  apply record_at_length in Hrec. lia.
Qed.

(** The scan loop over a well-formed stretch of records reaches its end
    with one more entry for each, when it has the fuel for them. *)
Lemma _read_loop_between data o ls o' :
  records_between data o ls o' ->
  (o' < Z.of_nat (length data))%Z ->
  forall fuel (rs : gmap Z BaseRecord),
    exists rs' : gmap Z BaseRecord,
      _read_loop (length ls + fuel) (Z.of_nat (length data)) o rs
        (mkBytesIO data o)
      = _read_loop fuel (Z.of_nat (length data)) o' rs' (mkBytesIO data o')
      /\ dom rs' = dom rs ∪ list_to_set (offsets_from o ls).
Proof.
  induction 1 as [o|o L ls o' Hrec Hrest IH]; intros Hend fuel rs.
  - exists rs. split; [done|]. simpl. by rewrite (right_id_L ∅ (∪)).
  - pose proof (record_at_length _ _ _ Hrec) as HL.
    pose proof (records_between_le _ _ _ _ Hrest) as Hle.
    destruct (record_at_decodes _ _ _ Hrec) as (r & _ & _ & Hdec).
    destruct (IH Hend fuel (<[o := r]> rs)) as (rs' & Hrun & Hdom).
    exists rs'. split.
    + simpl. destruct (Z.ltb_spec o (Z.of_nat (length data))); [|lia].
      erewrite bind_step by apply Hdec.
      erewrite bind_step by reflexivity. exact Hrun.
    + rewrite Hdom, dom_insert_L. simpl.
      rewrite (assoc_L (∪)). f_equal. apply (comm_L (∪)).
Qed.

Lemma _read_loop_short data o ls o' :
  records_between data o ls o' ->
  (o' < Z.of_nat (length data))%Z ->
  forall fuel (rs : gmap Z BaseRecord),
    (fuel <= length ls)%nat ->
    _read_loop fuel (Z.of_nat (length data)) o rs (mkBytesIO data o)
    = Diverge.
Proof.
  induction 1 as [o|o L ls o' Hrec Hrest IH]; intros Hend fuel rs Hfuel.
  - simpl in Hfuel. assert (fuel = 0%nat) as -> by lia. simpl.
    by destruct (Z.ltb_spec o (Z.of_nat (length data))); [|lia].
  - pose proof (record_at_length _ _ _ Hrec) as HL.
    pose proof (records_between_le _ _ _ _ Hrest) as Hle.
    destruct (record_at_decodes _ _ _ Hrec) as (r & _ & _ & Hdec).
    destruct fuel as [|fuel]; simpl;
      (destruct (Z.ltb_spec o (Z.of_nat (length data))); [|lia]); [done|].
    erewrite bind_step by apply Hdec.
    erewrite bind_step by reflexivity.
    apply IH; [done|]. simpl in Hfuel. lia.
Qed.

Lemma zero_length_loops data o :
  skippable_at data o 0 ->
  forall fuel rs,
    _read_loop fuel (Z.of_nat (length data)) o rs (mkBytesIO data o)
    = Diverge.
Proof.
  intros Hskip.
  destruct (skippable_decodes data o 0 Hskip) as (r & _ & _ & Hdec).
  assert (0 <= o < Z.of_nat (length data))%Z as Ho.
  { destruct Hskip as (? & _ & [(_ & ?)|(_ & ? & ? & _)]); lia. }
  induction fuel as [|fuel IH]; intros rs; simpl;
    (destruct (Z.ltb_spec o (Z.of_nat (length data))); [|lia]); [done|].
  erewrite bind_step by apply Hdec.
  erewrite bind_step by reflexivity. simpl.
  replace (Z.max 0 (o + 0)) with o by lia. apply IH.
Qed.

(** X2. When, behind any number of well-formed records, a free record or
    a file record declares the length 0, the scan never ends: the decode
    seeks back to the start of that record and reads it again. *)
Theorem scan_hangs_on_zero_length data ls o :
  records_between data 0 ls o -> skippable_at data o 0 ->
  forall fuel, scan fuel data = Diverge.
Proof.
  intros Hpre Hskip fuel.
  assert (o < Z.of_nat (length data))%Z as Ho.
  { destruct Hskip as (? & _ & [(_ & ?)|(_ & ? & ? & _)]); lia. }
  unfold scan, _read.
  erewrite bind_step by reflexivity. erewrite bind_step by reflexivity.
  simpl.
  destruct (decide (fuel <= length ls)%nat) as [Hle|Hgt].
  - by rewrite (_read_loop_short data 0 ls o Hpre Ho).
  - replace fuel with (length ls + (fuel - length ls))%nat by lia.
    destruct (_read_loop_between data 0 ls o Hpre Ho (fuel - length ls) ∅)
      as (rs' & -> & _).
    by rewrite zero_length_loops.
Qed.

Lemma zero_length_stream_prefix :
  records_between zero_length_stream 0 [24%Z] 24.
Proof.
  apply (between_cons _ 0 24 [] 24); [|apply between_nil].
  repeat split; [lia|vm_compute; discriminate|].
  right; right; right. split; [reflexivity|lia].
Qed.

(** The scan of [zero_length_stream] is still running after 50 records. *)
Lemma scan_hangs_on_zero_length_witness :
  scan 50 zero_length_stream = Diverge.
Proof.
  apply (scan_hangs_on_zero_length zero_length_stream [24%Z] 24
           zero_length_stream_prefix).
  split; [lia|]. split; [reflexivity|].
  left. split; [reflexivity|]. vm_compute. discriminate.
Defined.

(** X3. The scan does not compare a declared length with the bytes that
    are left: when, behind any number of well-formed records, the head of
    a free or a file record declares more bytes than the buffer holds, the
    scan succeeds, and its table has that record, with the declared
    length, besides the records before it. *)
Theorem scan_accepts_truncated_record data ls o L fuel :
  records_between data 0 ls o -> skippable_at data o L ->
  (Z.of_nat (length data) < o + L)%Z ->
  (length ls < fuel)%nat ->
  exists (rs : gmap Z BaseRecord) r,
    scan fuel data = Return rs /\
    dom rs = list_to_set (offsets_from 0 ls) ∪ {[o]} /\
    rs !! o = Some r /\ rec_length r = L /\ rec_offset r = o.
Proof.
  intros Hpre Hskip Hlong Hfuel.
  assert (o < Z.of_nat (length data))%Z as Ho.
  { destruct Hskip as (? & _ & [(_ & ?)|(_ & ? & ? & _)]); lia. }
  destruct (skippable_decodes data o L Hskip) as (r & HrL & Hro & Hdec).
  replace fuel with (length ls + S (fuel - length ls - 1))%nat by lia.
  destruct (_read_loop_between data 0 ls o Hpre Ho
              (S (fuel - length ls - 1)) ∅) as (rs' & Hrun & Hdom).
  exists (<[o := r]> rs'), r. split; [|split; [|split]].
  - unfold scan, _read.
    erewrite bind_step by reflexivity. erewrite bind_step by reflexivity.
    simpl in Hrun |- *. rewrite Hrun.
    destruct (Z.ltb_spec o (Z.of_nat (length data))); [|lia].
    erewrite bind_step by apply Hdec.
    erewrite bind_step by reflexivity. simpl.
    destruct (fuel - length ls - 1)%nat; simpl;
      by destruct (Z.ltb_spec (Z.max 0 (o + L)) (Z.of_nat (length data)));
        [lia|].
  - rewrite dom_insert_L, Hdom, dom_empty_L, (left_id_L ∅ (∪)).
    apply (comm_L (∪)).
  - apply lookup_insert_eq.
  - done.
Qed.

Lemma truncated_stream_prefix :
  records_between truncated_stream 0 [16%Z] 16.
Proof.
  apply (between_cons _ 0 16 [] 16); [|apply between_nil].
  repeat split; [lia|vm_compute; discriminate|].
  right; right; right. split; [reflexivity|lia].
Qed.

(** The scan of [truncated_stream] keeps the file record of 1000 bytes. *)
Lemma scan_accepts_truncated_record_witness :
  exists (rs : gmap Z BaseRecord) r,
    scan 2 truncated_stream = Return rs /\
    rs !! 16%Z = Some r /\ rec_length r = 1000%Z.
Proof.
  destruct (scan_accepts_truncated_record truncated_stream [16%Z] 16 1000 2
              truncated_stream_prefix)
    as (rs & r & Hscan & _ & Hr & HL & _).
  - split; [lia|]. split; [reflexivity|]. right.
    split; [reflexivity|]. split; [vm_compute; discriminate|].
    split; [vm_compute; discriminate|]. eexists. vm_compute. reflexivity.
  - vm_compute. reflexivity.
  - simpl. lia.
  - exists rs, r. split; [exact Hscan|]. split; [exact Hr|exact HL].
Defined.

(** ** Counts and names of decoded records                                 *)

Lemma read_entries_length n f es f' :
  read_entries n f = Return (es, f') -> length es = n.
Proof.
  revert f es f'. induction n as [|n IH]; intros f es f' H; simpl in H.
  - unfold ret in H. by simplify_eq.
  - apply bind_Return in H as (bh & f1 & _ & H).
    apply bind_Return in H as (hv & f2 & _ & H).
    apply bind_Return in H as (bo & f3 & _ & H).
    apply bind_Return in H as (ov & f4 & _ & H).
    apply bind_Return in H as (es' & f5 & Hes & H).
    unfold ret in H. simplify_eq. simpl. f_equal. by eapply IH.
Qed.

Lemma read_offsets_length n f os f' :
  read_offsets n f = Return (os, f') -> length os = n.
Proof.
  revert f os f'. induction n as [|n IH]; intros f os f' H; simpl in H.
  - unfold ret in H. by simplify_eq.
  - apply bind_Return in H as (b & f1 & _ & H).
    apply bind_Return in H as (ov & f2 & _ & H).
    apply bind_Return in H as (os' & f3 & Hos & H).
    unfold ret in H. simplify_eq. simpl. f_equal. by eapply IH.
Qed.

(** X4. A decoded directory record has as many entries as its entry
    count says, and a decoded GGPK record as many offsets as its count
    says (none when the count is negative); the count of the directory
    record is kept in [entries_length]. *)
Theorem decoded_counts L o f r f' :
  (DirectoryRecord_read L o f = Return (r, f') ->
   exists name nl el hs es,
     r = DirectoryRecord L o name nl el hs es /\
     length es = Z.to_nat el) /\
  (GGPKRecord_read L o f = Return (r, f') ->
   exists b f1 count os,
     BytesIO_.read 4 f = Return (b, f1) /\
     struct.unpack_i b = Return count /\
     r = GGPKRecord L o os /\ length os = Z.to_nat count).
Proof.
  split; intros H.
  - unfold DirectoryRecord_read in H.
    apply bind_Return in H as (b1 & f1 & _ & H).
    apply bind_Return in H as (nl & f2 & _ & H).
    apply bind_Return in H as (b2 & f3 & _ & H).
    apply bind_Return in H as (el & f4 & _ & H).
    apply bind_Return in H as (bh & f5 & _ & H).
    apply bind_Return in H as (bn & f6 & _ & H).
    apply bind_Return in H as (name & f7 & _ & H).
    apply bind_Return in H as ([] & f8 & _ & H).
    apply bind_Return in H as (es & f9 & Hes & H).
    unfold ret in H. simplify_eq.
    eexists _, _, _, _, _. split; [reflexivity|].
    by eapply read_entries_length.
  - unfold GGPKRecord_read in H.
    apply bind_Return in H as (b & f1 & Hb & H).
    apply bind_Return in H as (count & f2 & Hc & H).
    apply lift_Return in Hc as [Hc ->].
    apply bind_Return in H as (os & f3 & Hos & H).
    unfold ret in H. simplify_eq.
    exists b, f1, count, os. repeat split; try done.
    by eapply read_offsets_length.
Qed.

(** The directory record behind [two_entry_cursor] has two entries. *)
Lemma decoded_counts_witness :
  exists r f' name nl hs es,
    DirectoryRecord_read 76 0 two_entry_cursor = Return (r, f') /\
    r = DirectoryRecord 76 0 name nl 2 hs es /\ length es = 2%nat.
Proof.
  destruct (DirectoryRecord_read 76 0 two_entry_cursor) as [[r f']| |] eqn:E;
    [|vm_compute in E; discriminate..].
  destruct (proj1 (decoded_counts 76 0 two_entry_cursor r f') E)
    as (name & nl & el & hs & es & -> & Hlen).
  assert (el = 2%Z) as -> by (vm_compute in E; by simplify_eq).
  exists (DirectoryRecord 76 0 name nl 2 hs es), f', name, nl, hs, es.
  split; [reflexivity|]. split; [reflexivity|exact Hlen].
Defined.

Lemma read_all data p n :
  (n < 0)%Z -> (0 <= p <= Z.of_nat (length data))%Z ->
  BytesIO_.read n (mkBytesIO data p)
  = Return (drop (Z.to_nat p) data, mkBytesIO data (Z.of_nat (length data))).
Proof.
  intros Hn Hp. unfold BytesIO_.read. simpl.
  destruct (Z.ltb_spec n 0); [|lia]. do 3 f_equal.
  rewrite length_drop. lia.
Qed.

Lemma read_entries_past_end data p n es f' :
  (Z.of_nat (length data) <= p)%Z ->
  read_entries n (mkBytesIO data p) = Return (es, f') ->
  es = [] /\ f' = mkBytesIO data p.
Proof.
  intros Hp H. destruct n as [|n]; simpl in H.
  - unfold ret in H. by simplify_eq.
  - apply bind_Return in H as (bh & f1 & Hbh & H).
    apply bind_Return in H as (hv & f2 & Hhv & H).
    apply lift_Return in Hhv as [Hhv _].
    unfold BytesIO_.read in Hbh. simpl in Hbh. simplify_eq.
    rewrite drop_ge in Hhv by lia. done.
Qed.

(** X5. The name of a decoded directory or file record, at a cursor whose
    fixed fields lie inside the buffer: with a name length of 1 the name
    is empty; with a name length of 0 or less the read of the name takes
    every byte that is left, so the name is the decoding of the whole rest
    of the buffer, a directory record then has no entries and a file
    record's data starts two bytes past the end of the buffer. *)
Theorem name_length_edge_cases L o data p r f' :
  (0 <= p)%Z ->
  ((p + 40 <= Z.of_nat (length data))%Z ->
   DirectoryRecord_read L o (mkBytesIO data p) = Return (r, f') ->
   exists name el hs es,
     r = DirectoryRecord L o name (i32_at data p) el hs es /\
     (i32_at data p = 1%Z -> name = []) /\
     ((i32_at data p <= 0)%Z ->
      codecs.decode_utf_16_le (drop (Z.to_nat (p + 40)) data) = Return name
      /\ es = [] /\ pos f' = (Z.of_nat (length data) + 2)%Z)) /\
  ((p + 36 <= Z.of_nat (length data))%Z ->
   FileRecord_read L o (mkBytesIO data p) = Return (r, f') ->
   exists name hs ds dl,
     r = FileRecord L o name (i32_at data p) hs ds dl /\
     (i32_at data p = 1%Z -> name = [] /\ ds = (p + 38)%Z) /\
     ((i32_at data p <= 0)%Z ->
      codecs.decode_utf_16 (drop (Z.to_nat (p + 36)) data) = Return name
      /\ ds = (Z.of_nat (length data) + 2)%Z)).
Proof.
  intros Hp. split; intros Hfit H.
  - unfold DirectoryRecord_read in H.
    rewrite read_i32 in H by lia. rewrite read_i32 in H by lia.
    erewrite bind_step in H by (by apply read_in_bounds; lia).
    replace (p + 4 + 4 + 32)%Z with (p + 40)%Z in H by lia.
    set (nl := i32_at data p) in *.
    apply bind_Return in H as (bn & f1 & Hbn & H).
    apply bind_Return in H as (name & f2 & Hname & H).
    apply lift_Return in Hname as [Hname ->].
    apply bind_Return in H as ([] & f3 & Hseek & H).
    apply bind_Return in H as (es & f4 & Hes & H).
    unfold ret in H. unfold BytesIO_.seek_cur in Hseek. simplify_eq.
    eexists name, _, _, es. split; [reflexivity|]. split.
    + intros E. rewrite E in Hbn.
      rewrite read_in_bounds in Hbn by lia. simplify_eq.
      unfold slice in Hname. simpl in Hname. rewrite take_0 in Hname.
      vm_compute in Hname. by simplify_eq.
    + intros Hneg. rewrite read_all in Hbn by lia. simplify_eq.
      split; [done|]. simpl in Hes.
      apply read_entries_past_end in Hes as [-> ->]; [|lia].
      split; [done|]. simpl. lia.
  - unfold FileRecord_read in H.
    rewrite read_i32 in H by lia.
    erewrite bind_step in H by (by apply read_in_bounds; lia).
    replace (p + 4 + 32)%Z with (p + 36)%Z in H by lia.
    set (nl := i32_at data p) in *.
    apply bind_Return in H as (bn & f1 & Hbn & H).
    apply bind_Return in H as (name & f2 & Hname & H).
    apply lift_Return in Hname as [Hname ->].
    apply bind_Return in H as ([] & f3 & Hseek & H).
    apply bind_Return in H as (ds & f4 & Htell & H).
    apply bind_Return in H as ([] & f5 & Hseek2 & H).
    unfold ret in H.
    unfold BytesIO_.seek_cur in Hseek, Hseek2. unfold BytesIO_.tell in Htell.
    simplify_eq.
    eexists name, _, _, _. split; [reflexivity|]. split.
    + intros E. rewrite E in Hbn.
      rewrite read_in_bounds in Hbn by lia. simplify_eq.
      unfold slice in Hname. simpl in Hname. rewrite take_0 in Hname.
      vm_compute in Hname. simplify_eq. split; [done|]. simpl. lia.
    + intros Hneg. rewrite read_all in Hbn by lia. simplify_eq.
      split; [done|]. simpl. lia.
Qed.

(** Behind [zero_name_cursor] the four bytes after the digest become the
    name [AB]. *)
Lemma name_length_edge_cases_witness :
  exists f' el hs,
    DirectoryRecord_read 52 0 zero_name_cursor
    = Return (DirectoryRecord 52 0 (py "AB") 0 el hs [], f').
Proof.
  destruct (DirectoryRecord_read 52 0 zero_name_cursor) as [[r f']| |] eqn:E;
    [|vm_compute in E; discriminate..].
  assert (0 <= 8)%Z as Hp by lia.
  destruct (proj1 (name_length_edge_cases 52 0 (getvalue zero_name_cursor)
                     8 r f' Hp))
    as (name & el & hs & es & -> & _ & Hneg).
  - vm_compute. discriminate.
  - exact E.
  - destruct Hneg as (Hname & -> & _); [vm_compute; discriminate|].
    vm_compute in Hname. simplify_eq.
    exists f', el, hs. reflexivity.
Defined.

(* ===================================================================== *)
(** ** What [directory_build] builds                                       *)
(* ===================================================================== *)

Lemma pend_app x l1 l2 : pend x (l1 ++ l2) = pend x l1 ++ pend x l2.
Proof. apply filter_app. Qed.

Lemma pend_own x (es : list DirectoryRecordEntry) :
  pend x (item_of x <$> es) = item_of x <$> es.
Proof.
  induction es as [|e es IH]; [done|].
  rewrite fmap_cons. unfold pend in *.
  rewrite filter_cons_True by done. by rewrite IH.
Qed.

Lemma pend_other x y (es : list DirectoryRecordEntry) :
  x <> y -> pend x (item_of y <$> es) = [].
Proof.
  intros Hxy. induction es as [|e es IH]; [done|].
  rewrite fmap_cons. unfold pend in *. rewrite filter_cons_False; [done|].
  simpl. congruence.
Qed.

Lemma pend_fresh x (l : list (Z * Z * ref)) n :
  Forall (fun it => (it.2 < n)%nat) l -> (n <= x)%nat -> pend x l = [].
Proof.
  intros Hl Hn. induction Hl as [|it l Hit _ IH]; [done|].
  unfold pend in *. rewrite filter_cons_False; [done|]. lia.
Qed.

Lemma push_entries_items es node l :
  push_entries es node l = (item_of node <$> reverse es) ++ l.
Proof. unfold push_entries. by rewrite fmap_reverse. Qed.

Lemma mirrors_step records item l h l1 h1 x c e :
  build_step records item l h = Return (l1, h1) ->
  mirrors records h x c e -> mirrors records h1 x c e.
Proof.
  intros Hs (cd & Hc & Hr & Hh & Hp).
  destruct (build_step_preserves _ _ _ _ _ _ _ _ Hs Hc)
    as (cd' & Hc' & Hrec & Hpar & Hhash).
  exists cd'. rewrite Hrec, Hpar, Hhash. done.
Qed.

Lemma build_step_inv records hs p0 item l h l1 h1 :
  build_inv records hs p0 (item :: l) h ->
  build_step records item l h = Return (l1, h1) ->
  build_inv records hs p0 l1 h1.
Proof.
  intros (Hlen & Hl & Hold & Hnodes) Hs.
  apply Forall_cons in Hl as [[Hp Hscope] Hl].
  destruct (build_step_lookup _ _ _ _ _ _ Hs Hp)
    as (r' & pd & Hpd & Hlen1 & Hnew & Hpar & Hother).
  pose proof (build_step_Return _ _ _ _ _ _ Hs) as (r & Hr & Hl1 & Hh1).
  assert (r' = r) as ->.
  { rewrite Hh1 in Hnew. rewrite lookup_append_child_ne in Hnew by lia.
    rewrite lookup_app_r, Nat.sub_diag in Hnew by lia. simpl in Hnew.
    by simplify_eq. }
  destruct item as [[o hsh] p]. simpl in *.
  set (n := length h) in *.
  assert (l1 = (item_of n <$> reverse (entries_of r)) ++ l) as Hl1'.
  { rewrite Hl1. destruct r; simpl; try done. apply push_entries_items. }
  assert (Forall (fun it : Z * Z * ref => (it.2 < n)%nat) l) as Hlt.
  { eapply Forall_impl; [exact Hl|]. by intros it [? _]. }
  split; [lia|]. split; [|split].
  - rewrite Hl1'. apply Forall_app. split.
    + apply Forall_fmap, Forall_forall. intros e _. simpl. lia.
    + eapply Forall_impl; [exact Hl|]. intros it [? ?]. split; [lia|done].
  - intros i Hi Hip. rewrite Hother by lia. by apply Hold.
  - intros x nd Hx Hnd.
    destruct (decide (x = n)) as [->|Hxn].
    + rewrite Hnew in Hnd. simplify_eq. simpl.
      exists [], (reverse (entries_of r)), []. split; [done|].
      split.
      { rewrite Hl1', pend_app, pend_own.
        rewrite (pend_fresh n l n) by done. by rewrite app_nil_r. }
      split.
      { unfold oldc. by rewrite lookup_ge_None_2 by lia. }
      split; constructor.
    + destruct (decide (x = p)) as [->|Hxp].
      * rewrite Hpar in Hnd. simplify_eq. simpl.
        destruct (Hnodes p pd Hx Hpd)
          as (done & todo & newc & Hes & Hpend & Hch & Hmir & Hge).
        unfold pend in Hpend. rewrite filter_cons_True in Hpend by done.
        destruct todo as [|e todo]; [done|]. simpl in Hpend.
        injection Hpend as He Hpend.
        exists (done ++ [e]), todo, (newc ++ [n]).
        split; [by rewrite <- app_assoc|]. split.
        { rewrite Hl1', pend_app, pend_other by lia. done. }
        split; [by rewrite Hch, app_assoc|]. split.
        { apply Forall2_app.
          - eapply Forall2_impl; [exact Hmir|].
            intros c e'.
            apply (mirrors_step records (o, hsh, p) l h _ _ _ _ _ Hs).
          - constructor; [|constructor].
            exists (mkNode [] (Some p) r (Some hsh)).
            unfold item_of in He. simplify_eq. done. }
        apply Forall_app. split; [done|]. constructor; [lia|constructor].
      * rewrite Hother in Hnd by done.
        destruct (Hnodes x nd Hx Hnd)
          as (done & todo & newc & Hes & Hpend & Hch & Hmir & Hge).
        unfold pend in Hpend.
        rewrite filter_cons_False in Hpend by (simpl; congruence).
        exists done, todo, newc. split; [done|]. split.
        { rewrite Hl1', pend_app, pend_other by done. done. }
        split; [done|]. split; [|done].
        eapply Forall2_impl; [exact Hmir|].
        intros c e'.
        apply (mirrors_step records (o, hsh, p) l h _ _ _ _ _ Hs).
Qed.

Lemma build_loop_inv records hs p0 fuel l h h' :
  build_inv records hs p0 l h ->
  build_loop fuel records l h = Return h' ->
  build_inv records hs p0 [] h'.
Proof.
  revert l h. induction fuel as [|fuel IH]; intros l h Hinv H.
  - destruct l; simpl in H; by simplify_eq.
  - destruct l as [|item l]; simpl in H; simplify_eq; [done|].
    apply obind_Return in H as ([l1 h1] & Hs & H). simpl in H.
    eapply IH; [|exact H]. by eapply build_step_inv.
Qed.

(** The loop starts in the state it keeps. *)
Lemma build_inv_start records hs p0 nd :
  hs !! p0 = Some nd ->
  build_inv records hs p0 (push_entries (entries_of (record nd)) p0 []) hs.
Proof.
  intros Hnd. split; [done|]. split; [|split].
  - rewrite push_entries_items, app_nil_r.
    apply Forall_fmap, Forall_forall. intros e _. simpl.
    split; [by eapply lookup_lt_Some|by left].
  - done.
  - intros x nd' Hx Hnd'.
    assert (x = p0) as ->.
    { destruct Hx as [->|Hx]; [done|]. apply lookup_lt_Some in Hnd'. lia. }
    simplify_eq.
    exists [], (reverse (entries_of (record nd))), [].
    split; [done|]. split.
    { by rewrite push_entries_items, app_nil_r, pend_own. }
    split; [by rewrite app_nil_r; unfold oldc; rewrite Hnd|].
    split; constructor.
Qed.

(** What the state says when the work list is empty. *)
Lemma build_inv_done records hs p0 h x nd :
  build_inv records hs p0 [] h ->
  x = p0 \/ (length hs <= x)%nat -> h !! x = Some nd ->
  exists newc,
    children nd = oldc hs x ++ newc /\
    Forall2 (mirrors records h x) newc (reverse (entries_of (record nd))) /\
    Forall (fun c => (length hs <= c)%nat) newc.
Proof.
  intros (_ & _ & _ & Hnodes) Hx Hnd.
  destruct (Hnodes x nd Hx Hnd)
    as (done & todo & newc & Hes & Hpend & Hch & Hmir & Hge).
  destruct todo; [|done]. rewrite app_nil_r in Hes. subst done.
  by exists newc.
Qed.

Lemma rec_entries_entries_of r es :
  rec_entries r = Return es -> entries_of r = es.
Proof. destruct r; simpl; intros; by simplify_eq. Qed.

Lemma directory_build_has_root fuel records h h' root :
  directory_build fuel records h None = Return (h', root) ->
  exists d, build_root records = Return d.
Proof.
  intros H. unfold directory_build in H.
  destruct (decide (records = ∅)); [done|].
  apply obind_Return in H as ([h1 r1] & H1 & _).
  apply obind_Return in H1 as (d & Hd & _). eauto.
Qed.

(** X6. The tree mirrors the table. After [directory_build()] every node
    made by the call has one child for each entry of its record, in the
    reverse of the order of the entries; the child wraps the record the
    table has at the entry's offset, whatever its class, carries the
    entry's hash and points back to the node. A node whose record is not a
    directory record has no children. *)
Theorem directory_build_mirrors_records fuel records h0 h root :
  directory_build fuel records h0 None = Return (h, root) ->
  root = length h0 /\
  forall x nd,
    (length h0 <= x)%nat -> h !! x = Some nd ->
    Forall2 (mirrors records h x) (children nd)
      (reverse (entries_of (record nd))) /\
    (is_DirectoryRecord (record nd) = false -> children nd = []).
Proof.
  intros H.
  destruct (directory_build_has_root _ _ _ _ _ H) as [d Hd].
  destruct (directory_build_unfold fuel records h0 d Hd) as (es & Hes & Hun).
  rewrite Hun in H. apply obind_Return in H as (h' & Hloop & H).
  simplify_eq. split; [done|].
  apply rec_entries_entries_of in Hes. subst es.
  set (hs := h0 ++ [mkNode [] None d None]) in *.
  assert (hs !! length h0 = Some (mkNode [] None d None)) as Hroot.
  { unfold hs. by rewrite lookup_app_r, Nat.sub_diag by lia. }
  pose proof (build_inv_start records hs (length h0) _ Hroot) as Hinv.
  simpl in Hinv.
  pose proof (build_loop_inv _ _ _ _ _ _ _ Hinv Hloop) as Hfin.
  intros x nd Hx Hnd.
  assert (length hs = S (length h0)) as Hlen.
  { unfold hs. rewrite length_app. simpl. lia. }
  destruct (build_inv_done _ _ _ _ x nd Hfin) as (newc & Hch & Hmir & _);
    [lia|done|].
  assert (oldc hs x = []) as Hold.
  { unfold oldc. destruct (decide (x = length h0)) as [->|Hne].
    - by rewrite Hroot.
    - by rewrite lookup_ge_None_2 by lia. }
  rewrite Hold in Hch. simpl in Hch. subst newc. split; [done|].
  intros Hdir. destruct (record nd); simpl in *; try done;
    by apply Forall2_nil_inv_r in Hmir.
Qed.

(** The root of [nested_tree] has its two children in the reverse of the
    order of its entries. *)
Lemma directory_build_mirrors_records_witness :
  exists nd,
    nested_tree !! 0%nat = Some nd /\
    Forall2 (mirrors nested_records nested_tree 0) (children nd)
      (reverse (entries_of (record nd))).
Proof.
  assert (directory_build 8 nested_records [] None
          = Return (nested_tree, 0%nat)) as H by (vm_compute; reflexivity).
  destruct (directory_build_mirrors_records _ _ _ _ _ H) as [_ Hall].
  destruct (nested_tree !! 0%nat) as [nd|] eqn:E;
    [|vm_compute in E; discriminate].
  exists nd. split; [done|].
  destruct (Hall 0%nat nd) as [Hm _]; [simpl; lia|exact E|exact Hm].
Defined.

(** X7. [directory_build(parent=node)] adds to the tree and changes
    nothing else: the node returned is [node], every other node of the
    heap is as it was, [node] keeps its record, parent and hash, and its
    children are those it had, followed by one new node for each entry of
    its record (last entry first). The children are not reset, so building
    the same node again lists every entry once more. *)
Theorem directory_build_extends fuel records h p h' r nd :
  directory_build fuel records h (Some p) = Return (h', r) ->
  h !! p = Some nd ->
  r = p /\
  (forall i ndi, i <> p -> h !! i = Some ndi -> h' !! i = Some ndi) /\
  exists nd' new,
    h' !! p = Some nd' /\
    record nd' = record nd /\ parent nd' = parent nd /\ hash nd' = hash nd /\
    children nd' = children nd ++ new /\
    Forall2 (mirrors records h' p) new (reverse (entries_of (record nd))) /\
    Forall (fun c => (length h <= c)%nat) new.
Proof.
  intros H Hnd. unfold directory_build in H.
  destruct (decide (records = ∅)); [done|]. simpl in H.
  unfold deref in H. rewrite Hnd in H. simpl in H.
  apply obind_Return in H as (es & Hes & H).
  apply obind_Return in H as (h1 & Hloop & H). injection H as <- <-.
  split; [done|].
  apply rec_entries_entries_of in Hes. subst es.
  pose proof (build_inv_start records h p nd Hnd) as Hinv.
  pose proof (build_loop_inv _ _ _ _ _ _ _ Hinv Hloop) as Hfin.
  split.
  - intros i ndi Hip Hi. destruct Hfin as (_ & _ & Hold & _).
    rewrite Hold; [done| |done]. by eapply lookup_lt_Some.
  - destruct (build_loop_preserves _ _ _ _ _ _ _ Hloop Hnd)
      as (nd' & Hnd' & Hrec & Hpar & Hhash).
    destruct (build_inv_done _ _ _ _ p nd' Hfin) as (new & Hch & Hmir & Hge);
      [by left|done|].
    exists nd', new. unfold oldc in Hch. rewrite Hnd in Hch.
    rewrite Hrec in Hmir. done.
Qed.

(** Building the root of [nested_tree] a second time leaves it with four
    children. *)
Lemma directory_build_extends_witness :
  exists h' nd',
    directory_build 8 nested_records nested_tree (Some 0%nat)
    = Return (h', 0%nat) /\
    h' !! 0%nat = Some nd' /\ length (children nd') = 4%nat.
Proof.
  destruct (directory_build 8 nested_records nested_tree (Some 0%nat))
    as [[h' r]| |] eqn:E; [|vm_compute in E; discriminate..].
  destruct (nested_tree !! 0%nat) as [nd|] eqn:End;
    [|vm_compute in End; discriminate].
  destruct (directory_build_extends _ _ _ _ _ _ _ E End)
    as (-> & _ & nd' & new & Hnd' & Hrec & _ & _ & Hch & Hmir & _).
  exists h', nd'. split; [done|]. split; [done|].
  rewrite Hch, length_app. apply Forall2_length in Hmir. rewrite Hmir.
  vm_compute in End. injection End as <-. reflexivity.
Defined.

(** ** Termination of [directory_build]                                    *)

Lemma mapM_tree_size_mono records n :
  (forall o s, tree_size records n o = Some s ->
               tree_size records (S n) o = Some s) ->
  forall (es : list DirectoryRecordEntry) ss,
    mapM (fun e => tree_size records n (entry_offset e)) es = Some ss ->
    mapM (fun e => tree_size records (S n) (entry_offset e)) es = Some ss.
Proof.
  intros Hn es ss H. apply mapM_Some in H. apply mapM_Some.
  eapply Forall2_impl; [exact H|]. intros e s. apply Hn.
Qed.

Lemma tree_size_mono records n o s :
  tree_size records n o = Some s -> tree_size records (S n) o = Some s.
Proof.
  revert o s. induction n as [|n IH]; intros o s H; [done|].
  change (tree_size records (S n) o) with
    (match records !! o with
     | None => None
     | Some r =>
         match mapM (fun e => tree_size records n (entry_offset e))
                 (entries_of r) with
         | Some sizes => Some (S (sum_list sizes))
         | None => None
         end
     end) in H.
  change (tree_size records (S (S n)) o) with
    (match records !! o with
     | None => None
     | Some r =>
         match mapM (fun e => tree_size records (S n) (entry_offset e))
                 (entries_of r) with
         | Some sizes => Some (S (sum_list sizes))
         | None => None
         end
     end).
  destruct (records !! o) as [r|]; [|done].
  destruct (mapM _ (entries_of r)) as [ss|] eqn:E; [|done].
  by rewrite (mapM_tree_size_mono records n IH _ _ E).
Qed.

Lemma sum_list_reverse (l : list nat) : sum_list (reverse l) = sum_list l.
Proof.
  induction l as [|x l IH]; [done|].
  rewrite reverse_cons, sum_list_with_app. simpl. rewrite IH. lia.
Qed.

(** With fuel for every node to come the loop returns, and it has made
    that many nodes. *)
Lemma build_loop_terminates records n fuel :
  forall l ss h,
    Forall2 (fun it s => tree_size records n it.1.1 = Some s) l ss ->
    (sum_list ss <= fuel)%nat ->
    exists h',
      build_loop fuel records l h = Return h' /\
      length h' = (length h + sum_list ss)%nat.
Proof.
  induction fuel as [|fuel IH]; intros l ss h Hl Hfuel.
  - destruct Hl as [|it s l ss Hit Hl].
    + exists h. split; [done|]. simpl. lia.
    + destruct n; [done|]. simpl in Hit.
      destruct (records !! it.1.1); [|done].
      destruct (mapM _ _); [|done]. simplify_eq. simpl in Hfuel. lia.
  - destruct Hl as [|it s l ss Hit Hl].
    + exists h. split; [done|]. simpl. lia.
    + destruct n as [|n]; [done|].
      destruct it as [[o hsh] p]. simpl in Hit.
      destruct (records !! o) as [r|] eqn:Hr; [|done].
      destruct (mapM _ (entries_of r)) as [sz|] eqn:Hsz; [|done].
      injection Hit as <-.
      assert (build_step records (o, hsh, p) l h
              = Return ((item_of (length h) <$> reverse (entries_of r)) ++ l,
                        append_child p (length h)
                          (h ++ [mkNode [] (Some p) r (Some hsh)]))) as Hs.
      { unfold build_step, getrecord. rewrite Hr. simpl.
        destruct r; simpl; try done. by rewrite push_entries_items. }
      change (build_loop (S fuel) records ((o, hsh, p) :: l) h) with
        (let! s := build_step records (o, hsh, p) l h in
         build_loop fuel records s.1 s.2).
      rewrite Hs. simpl.
      destruct (IH ((item_of (length h) <$> reverse (entries_of r)) ++ l)
                  (reverse sz ++ ss)
                  (append_child p (length h)
                     (h ++ [mkNode [] (Some p) r (Some hsh)])))
        as (h' & Hh' & Hlen).
      * apply Forall2_app.
        -- apply Forall2_fmap_l. apply Forall2_reverse.
           apply mapM_Some in Hsz.
           eapply Forall2_impl; [exact Hsz|].
           intros e s He. simpl. by apply tree_size_mono.
        -- done.
      * rewrite sum_list_with_app, sum_list_reverse. simpl in Hfuel. lia.
      * exists h'. split; [done|].
        rewrite Hlen, length_append_child, length_app.
        rewrite sum_list_with_app, sum_list_reverse. simpl. lia.
Qed.

(** X8. [directory_build()] returns on a table whose entries form a
    finite tree: when the root record is found, every entry below it
    resolves and the nesting is less than [n] deep, the call returns as
    soon as the fuel covers one iteration for each node, and the tree has
    the root and one node for each entry reached, counted as often as it
    is reached. *)
Theorem directory_build_terminates records d n ss fuel h :
  build_root records = Return d ->
  mapM (fun e => tree_size records n (entry_offset e)) (entries_of d)
  = Some ss ->
  (sum_list ss <= fuel)%nat ->
  exists h',
    directory_build fuel records h None = Return (h', length h) /\
    length h' = S (length h + sum_list ss).
Proof.
  intros Hd Hss Hfuel.
  destruct (directory_build_unfold fuel records h d Hd) as (es & Hes & ->).
  apply rec_entries_entries_of in Hes. subst es.
  rewrite push_entries_items, app_nil_r.
  destruct (build_loop_terminates records n fuel
              (item_of (length h) <$> reverse (entries_of d)) (reverse ss)
              (h ++ [mkNode [] None d None])) as (h' & Hh' & Hlen).
  - apply Forall2_fmap_l, Forall2_reverse. by apply mapM_Some in Hss.
  - by rewrite sum_list_reverse.
  - exists h'. rewrite Hh'. split; [done|].
    rewrite Hlen, length_app, sum_list_reverse. simpl. lia.
Qed.

(** The table of [nested_archive] gives a tree of four nodes. *)
Lemma directory_build_terminates_witness :
  exists h',
    directory_build 3 nested_records [] None = Return (h', 0%nat) /\
    length h' = 4%nat.
Proof.
  destruct (build_root nested_records) as [d| |] eqn:Hd;
    [|vm_compute in Hd; discriminate..].
  destruct (mapM (fun e => tree_size nested_records 2 (entry_offset e))
              (entries_of d)) as [ss|] eqn:Hss.
  - assert (sum_list ss = 3%nat) as Hsum.
    { vm_compute in Hd. injection Hd as <-. vm_compute in Hss.
      injection Hss as <-. reflexivity. }
    destruct (directory_build_terminates nested_records d 2 ss 3 [] Hd Hss)
      as (h' & Hh' & Hlen); [lia|].
    exists h'. split; [exact Hh'|]. rewrite Hlen, Hsum. reflexivity.
  - vm_compute in Hd. injection Hd as <-. vm_compute in Hss. discriminate.
Defined.

(* ===================================================================== *)
(** ** Every node is reached from the root, by one chain                   *)
(* ===================================================================== *)

Lemma linked_rtc (h : heap) r cs x : linked h r cs x -> rtc (child h) r x.
Proof.
  revert r. induction cs as [|c cs IH]; intros r; simpl.
  - by intros ->.
  - intros [Hc Hl]. eapply rtc_l; [exact Hc|]. by apply IH.
Qed.

Lemma rtc_linked (h : heap) r x :
  rtc (child h) r x -> exists cs, linked h r cs x.
Proof.
  induction 1 as [r|r c x Hc _ [cs IH]].
  - by exists [].
  - exists (c :: cs). by split.
Qed.

Lemma linked_unique (h : heap) r cs cs' x :
  tree_heap h -> linked h r cs x -> linked h r cs' x -> cs = cs'.
Proof.
  intros Htree. revert r cs'.
  induction cs as [|c cs IH]; intros r [|c' cs']; simpl.
  - done.
  - intros -> [Hc Hl]. apply (linked_length h Htree) in Hl.
    apply (child_lt h Htree) in Hc. simpl in Hl. lia.
  - intros [Hc Hl] ->. apply (linked_length h Htree) in Hl.
    apply (child_lt h Htree) in Hc. simpl in Hl. lia.
  - intros [Hc Hl] [Hc' Hl'].
    assert (c = c') as <-.
    { apply (siblings_disjoint h Htree r c c' x); try done;
        by eapply linked_rtc. }
    f_equal. by eapply IH.
Qed.

(** The loop makes no node without a parent. *)
Lemma build_loop_roots fuel records b : forall l h h',
  build_loop fuel records l h = Return h' ->
  Forall (fun it => (it.2 < length h)%nat) l ->
  (forall i nd, h !! i = Some nd -> parent nd = None -> (i < b)%nat) ->
  (forall i nd, h' !! i = Some nd -> parent nd = None -> (i < b)%nat).
Proof.
  induction fuel as [|fuel IH]; intros l h h' H Hl Hb.
  - destruct l; simpl in H; by simplify_eq.
  - destruct l as [|item l]; simpl in H; simplify_eq; [done|].
    apply obind_Return in H as ([l1 h1] & Hs & H). simpl in H.
    apply Forall_cons in Hl as [Hp Hl].
    eapply IH; [exact H|by eapply build_step_worklist|].
    destruct (build_step_lookup _ _ _ _ _ _ Hs Hp)
      as (r & pd & Hpd & Hlen & Hnew & Hpar & Hother).
    intros i nd Hi Hnone.
    destruct (decide (i = length h)) as [->|Hn].
    { rewrite Hnew in Hi. by simplify_eq. }
    destruct (decide (i = item.2)) as [->|Hip].
    { rewrite Hpar in Hi. simplify_eq. simpl in Hnone. by eapply Hb. }
    rewrite Hother in Hi by done. by eapply Hb.
Qed.

(** Every node of the heap built from nothing hangs below the root. *)
Lemma directory_build_reachable fuel records h root :
  directory_build fuel records [] None = Return (h, root) ->
  root = 0%nat /\
  (forall i nd, h !! i = Some nd -> parent nd = None -> i = 0%nat) /\
  (forall x, (x < length h)%nat -> rtc (child h) 0%nat x).
Proof.
  intros H.
  destruct (directory_build_tree _ _ _ _ H) as (Htree & _).
  destruct (directory_build_has_root _ _ _ _ _ H) as [d Hd].
  destruct (directory_build_unfold fuel records [] d Hd) as (es & Hes & Hun).
  rewrite Hun in H. apply obind_Return in H as (h' & Hloop & H).
  injection H as <- <-. simpl in *.
  assert (forall i nd, h' !! i = Some nd -> parent nd = None -> (i < 1)%nat)
    as Hroots.
  { eapply build_loop_roots; [exact Hloop| |].
    - unfold push_entries. rewrite app_nil_r, Forall_reverse, Forall_fmap.
      apply Forall_forall. intros e _. simpl. lia.
    - intros [|i] nd Hi _; [lia|]. by simplify_eq/=. }
  split; [done|]. split.
  { intros i nd Hi Hp. specialize (Hroots i nd Hi Hp). lia. }
  intros x. induction (lt_wf x) as [x _ IH]. intros Hx.
  destruct (lookup_lt_is_Some_2 h' x Hx) as [nd Hnd].
  destruct (parent nd) as [p|] eqn:Hp.
  - destruct (th_parent h' Htree x nd p Hnd Hp) as (pd & Hpd & Hin).
    destruct (th_child h' Htree p pd x Hpd Hin) as [Hlt _].
    eapply rtc_r; [apply IH; [done|by eapply lookup_lt_Some]|].
    exists pd. by split.
  - specialize (Hroots x nd Hnd Hp). by replace x with 0%nat by lia.
Qed.

(** X9. The heap [directory_build()] makes from nothing is one tree:
    every node of it is reached from the root through children, by
    exactly one chain, and the root is the only node without a parent. *)
Theorem directory_build_reaches_all fuel records h root :
  directory_build fuel records [] None = Return (h, root) ->
  root = 0%nat /\
  (forall x nd, h !! x = Some nd -> (parent nd = None <-> x = root)) /\
  (forall x, (x < length h)%nat <-> rtc (child h) root x) /\
  (forall x, (x < length h)%nat ->
             exists cs, linked h root cs x /\
                        forall cs', linked h root cs' x -> cs' = cs).
Proof.
  intros H.
  destruct (directory_build_tree _ _ _ _ H) as (Htree & rd & Hrd & Hrp).
  destruct (directory_build_reachable _ _ _ _ H) as (-> & Hroots & Hreach).
  split; [done|]. split; [|split].
  - intros x nd Hnd. split.
    + by apply Hroots.
    + intros ->. by simplify_eq.
  - intros x. split; [apply Hreach|].
    apply (descendant_valid h Htree). by eapply lookup_lt_Some.
  - intros x Hx. destruct (rtc_linked h 0%nat x (Hreach x Hx)) as [cs Hcs].
    exists cs. split; [done|]. intros cs' Hcs'.
    by eapply (linked_unique h 0%nat cs' cs x).
Qed.

(** In [nested_tree] the file under [Art] is reached from the root. *)
Lemma directory_build_reaches_all_witness :
  rtc (child nested_tree) 0%nat 3%nat.
Proof.
  assert (directory_build 8 nested_records [] None
          = Return (nested_tree, 0%nat)) as H by (vm_compute; reflexivity).
  destruct (directory_build_reaches_all _ _ _ _ H) as (_ & _ & Hall & _).
  apply Hall. vm_compute. lia.
Defined.

(* ===================================================================== *)
(** ** [walk]                                                              *)
(* ===================================================================== *)

Lemma fmap_flat_map {A B C} (g : B -> C) (f : A -> list B) (l : list A) :
  g <$> flat_map f l = flat_map (fun x => g <$> f x) l.
Proof.
  induction l as [|x l IH]; [done|]. simpl. by rewrite fmap_app, IH.
Qed.

Lemma flat_map_fmap {A B C} (f : B -> list C) (g : A -> B) (l : list A) :
  flat_map f (g <$> l) = flat_map (fun x => f (g x)) l.
Proof.
  induction l as [|x l IH]; [done|].
  rewrite fmap_cons. simpl. by rewrite IH.
Qed.

Lemma walk_order_nodes k (h : heap) r d :
  (walk_order k h r d).*1 = subtree k h r.
Proof.
  revert r d. induction k as [|k IH]; intros r d; simpl; [done|].
  destruct (h !! r) as [nd|]; [|done]. simpl. f_equal.
  rewrite fmap_flat_map. apply flat_map_ext_elem. intros c _. apply IH.
Qed.

Lemma walk_order_depths k (h : heap) r d x dx :
  (x, dx) ∈ walk_order k h r d ->
  exists cs, linked h r cs x /\ dx = (d + Z.of_nat (length cs))%Z.
Proof.
  revert r d. induction k as [|k IH]; intros r d; simpl.
  - by intros ?%elem_of_nil.
  - destruct (h !! r) as [nd|] eqn:Hr; [|by intros ?%elem_of_nil].
    intros [Hx|Hx]%elem_of_cons.
    + injection Hx as -> ->. exists []. split; [done|]. simpl. lia.
    + apply elem_of_flat_map in Hx as (c & Hx & Hc).
      rewrite elem_of_reverse in Hc.
      destruct (IH _ _ Hx) as (cs & Hcs & ->).
      exists (c :: cs). split; [|simpl; lia].
      split; [|done]. exists nd. by split.
Qed.

Lemma app_split_mid {A} (l1 l2 pre post : list A) x :
  l1 ++ l2 = pre ++ x :: post ->
  (exists p2, l1 = pre ++ x :: p2 /\ post = p2 ++ l2) \/
  (exists p1, pre = l1 ++ p1 /\ l2 = p1 ++ x :: post).
Proof.
  revert pre. induction l1 as [|a l1 IH]; intros pre H; simpl in H.
  - right. by exists pre.
  - destruct pre as [|b pre]; simpl in H.
    + injection H as -> H. left. by exists l1.
    + injection H as -> H.
      destruct (IH pre H) as [(p2 & -> & ->)|(p1 & -> & ->)].
      * left. by exists p2.
      * right. by exists p1.
Qed.

Lemma flat_map_split_mid {A B} (f : A -> list B) (l : list A) pre x post :
  flat_map f l = pre ++ x :: post ->
  exists l1 a l2 p1 p2,
    l = l1 ++ a :: l2 /\ f a = p1 ++ x :: p2 /\
    pre = flat_map f l1 ++ p1 /\ post = p2 ++ flat_map f l2.
Proof.
  revert pre. induction l as [|a l IH]; intros pre H; simpl in H.
  - by destruct pre.
  - apply app_split_mid in H as [(p2 & Ha & ->)|(p1 & -> & H)].
    + by exists [], a, l, pre, p2.
    + destruct (IH p1 H) as (l1 & a' & l2 & q1 & q2 & -> & Ha' & -> & ->).
      exists (a :: l1), a', l2, q1, q2. simpl. by rewrite app_assoc.
Qed.

(** In the order of [subtree] a node comes before its children. *)
Lemma subtree_preorder (h : heap) k r pre x post y :
  tree_heap h ->
  subtree k h r = pre ++ x :: post -> child h x y ->
  y ∈ subtree k h r -> y ∈ post.
Proof.
  intros Htree. revert r pre post.
  induction k as [|k IH]; intros r pre post H Hxy Hy; simpl in *.
  - by destruct pre.
  - destruct (h !! r) as [nd|] eqn:Hr; [|by destruct pre].
    destruct pre as [|r' pre]; simpl in H.
    + injection H as -> <-.
      apply elem_of_cons in Hy as [->|Hy]; [|done].
      apply (child_lt h Htree) in Hxy. lia.
    + injection H as <- H.
      apply flat_map_split_mid in H
        as (cs1 & c & cs2 & p1 & p2 & Hcs & Hc & -> & ->).
      apply elem_of_app. left.
      assert (c ∈ reverse (children nd)) as Hcin.
      { rewrite Hcs. apply elem_of_app. right. by left. }
      rewrite elem_of_reverse in Hcin.
      assert (rtc (child h) c x) as Hcx.
      { apply (subtree_descendant h k). rewrite Hc.
        apply elem_of_app. right. by left. }
      apply elem_of_cons in Hy as [->|Hy].
      { apply (descendant_le h Htree) in Hcx.
        apply (child_lt h Htree) in Hxy.
        assert (r < c)%nat by (apply (child_lt h Htree); exists nd; by split).
        lia. }
      apply elem_of_flat_map in Hy as (c' & Hy & Hc'in).
      rewrite elem_of_reverse in Hc'in.
      assert (c' = c) as ->.
      { apply (siblings_disjoint h Htree r c' c y);
          try (exists nd; by split).
        - by eapply subtree_descendant.
        - eapply rtc_r; [exact Hcx|exact Hxy]. }
      by eapply IH.
Qed.

Section Walk.

Variable h : heap.
Hypothesis Htree : tree_heap h.

Lemma walk_order_depth k k' r d :
  (length h <= k + r)%nat -> (length h <= k' + r)%nat ->
  walk_order k h r d = walk_order k' h r d.
Proof.
  revert k' r d. induction k as [|k IH]; intros k' r d Hk Hk'.
  - destruct k'; simpl; [done|]. by rewrite (lookup_ge_None_2 h r) by lia.
  - destruct k' as [|k'].
    + simpl. by rewrite (lookup_ge_None_2 h r) by lia.
    + simpl. destruct (h !! r) as [nd|] eqn:Hr; [|done]. f_equal.
      apply flat_map_ext_elem.
      intros c Hc. rewrite elem_of_reverse in Hc.
      assert (r < c)%nat by (apply (child_lt h Htree); exists nd; by split).
      apply IH; lia.
Qed.

Lemma walk_order_unfold r nd d :
  h !! r = Some nd ->
  walk_order (length h) h r d
  = (r, d) :: flat_map (fun c => walk_order (length h) h c (d + 1))
                (reverse (children nd)).
Proof.
  intros Hr. pose proof (lookup_lt_Some _ _ _ Hr) as Hlt.
  rewrite (walk_order_depth (length h) (S (length h)) r) by lia.
  simpl. by rewrite Hr.
Qed.

Lemma walk_loop_order fuel : forall q calls,
  Forall (fun it : ref * Z => (it.1 < length h)%nat) q ->
  (length (flat_map (fun it => walk_order (length h) h it.1 it.2) q)
   <= fuel)%nat ->
  walk_loop fuel h q calls
  = Return (calls
            ++ flat_map (fun it => walk_order (length h) h it.1 it.2) q).
Proof.
  induction fuel as [|fuel IH]; intros q calls Hq Hfuel.
  - destruct q as [|[x d] q]; simpl; [by rewrite app_nil_r|].
    apply Forall_cons in Hq as [Hx _]. simpl in Hx.
    destruct (lookup_lt_is_Some_2 h x Hx) as [nd Hnd].
    simpl in Hfuel. rewrite (walk_order_unfold x nd d Hnd) in Hfuel.
    simpl in Hfuel. lia.
  - destruct q as [|[x d] q]; simpl; [by rewrite app_nil_r|].
    apply Forall_cons in Hq as [Hx Hq]. simpl in Hx.
    destruct (lookup_lt_is_Some_2 h x Hx) as [nd Hnd].
    unfold deref. rewrite Hnd. simpl.
    simpl in Hfuel.
    rewrite (walk_order_unfold x nd d Hnd) in Hfuel |- *.
    simpl in Hfuel. rewrite IH.
    + rewrite flat_map_app, <- fmap_reverse, flat_map_fmap.
      simpl. by rewrite <- app_assoc.
    + apply Forall_app. split; [|done].
      rewrite Forall_reverse, Forall_fmap. apply Forall_forall.
      intros c Hc. simpl.
      apply (child_valid h Htree x). exists nd. by split.
    + rewrite flat_map_app, <- fmap_reverse, flat_map_fmap.
      simpl. rewrite length_app in *. lia.
Qed.

End Walk.

(** X10. In a tree, [walk] calls the function once for every node of the
    subtree of [self] and for no other node, [self] first and a node
    always before the nodes below it; the depth it passes with a node is
    the number of steps from [self] down to it. *)
Theorem walk_visits_subtree (h : heap) self fuel :
  tree_heap h -> (self < length h)%nat -> (length h <= fuel)%nat ->
  exists calls,
    walk fuel h self = Return calls /\
    NoDup calls.*1 /\
    (forall x, x ∈ calls.*1 <-> rtc (child h) self x) /\
    (forall x d, (x, d) ∈ calls ->
                 exists cs, linked h self cs x /\ d = Z.of_nat (length cs)) /\
    (exists rest, calls = (self, 0%Z) :: rest) /\
    (forall pre x dx post y,
        calls = pre ++ (x, dx) :: post -> child h x y -> y ∈ post.*1).
Proof.
  intros Htree Hself Hfuel.
  exists (walk_order (length h) h self 0).
  assert (NoDup (subtree (length h) h self)) as Hnd
    by apply (NoDup_subtree h Htree).
  split; [|split; [|split; [|split; [|split]]]].
  - unfold walk. rewrite (walk_loop_order h Htree).
    + simpl. by rewrite app_nil_r.
    + by repeat constructor.
    + simpl. rewrite app_nil_r.
      rewrite <- (length_fmap fst), walk_order_nodes.
      etransitivity; [|exact Hfuel].
      apply NoDup_bounded_length; [done|].
      intros x Hx. apply (descendant_valid h Htree self); [done|].
      by eapply subtree_descendant.
  - by rewrite walk_order_nodes.
  - intros x. rewrite walk_order_nodes. split.
    + by apply subtree_descendant.
    + by apply descendant_subtree.
  - intros x d Hx. destruct (walk_order_depths _ _ _ _ _ _ Hx) as (cs & ? & ->).
    exists cs. split; [done|]. lia.
  - destruct (lookup_lt_is_Some_2 h self Hself) as [nd Hself'].
    rewrite (walk_order_unfold h Htree self nd 0 Hself'). eauto.
  - intros pre x dx post y Hcalls Hxy.
    assert (subtree (length h) h self = pre.*1 ++ x :: post.*1) as Hsub.
    { rewrite <- (walk_order_nodes _ _ _ 0), Hcalls, fmap_app. done. }
    eapply (subtree_preorder h _ _ _ _ _ y Htree Hsub Hxy).
    apply (descendant_subtree h Htree); [done|].
    eapply rtc_r; [|exact Hxy].
    apply (subtree_descendant h (length h)). rewrite Hsub.
    apply elem_of_app. right. by left.
Qed.

(** On [abstract_tree] the four nodes below the root are visited after
    it. *)
Lemma walk_visits_subtree_witness :
  exists calls,
    walk 5 abstract_tree 0 = Return calls /\ NoDup calls.*1 /\
    length calls = 5%nat.
Proof.
  destruct (walk_visits_subtree abstract_tree 0 5 abstract_tree_is_tree)
    as (calls & Hw & Hnd & _); [vm_compute; lia..|].
  exists calls. split; [done|]. split; [done|].
  vm_compute in Hw. injection Hw as <-. reflexivity.
Defined.

(** X11. [search] returns its matches in the order in which [walk] visits
    the nodes: the result of [search] is the sequence of the nodes [walk]
    hands to its function, with those that fail the test of [search] left
    out. *)
Theorem search_follows_walk (h : heap) self matches sf sd fuel calls :
  tree_heap h -> (self < length h)%nat -> (length h <= fuel)%nat ->
  walk fuel h self = Return calls ->
  search fuel h self matches sf sd
  = Return (filter (fun x => hits matches sf sd h x) calls.*1).
Proof.
  intros Htree Hself Hfuel Hw.
  assert (length (subtree (length h) h self) <= fuel)%nat as Hlen.
  { etransitivity; [|exact Hfuel].
    apply NoDup_bounded_length; [apply (NoDup_subtree h Htree)|].
    intros x Hx. apply (descendant_valid h Htree self); [done|].
    by eapply subtree_descendant. }
  unfold walk in Hw. rewrite (walk_loop_order h Htree) in Hw.
  - simpl in Hw. rewrite app_nil_r in Hw. injection Hw as <-.
    rewrite walk_order_nodes.
    unfold search. rewrite (search_loop_subtrees matches sf sd h Htree).
    + simpl. by rewrite app_nil_r.
    + by repeat constructor.
    + simpl. by rewrite app_nil_r.
  - by repeat constructor.
  - simpl. rewrite app_nil_r.
    by rewrite <- (length_fmap fst), walk_order_nodes.
Qed.

(** On [abstract_tree], searching [^Abstract] among the files keeps the
    second and the third node of the walk. *)
Lemma search_follows_walk_witness :
  walk 5 abstract_tree 0
  = Return [(0%nat, 0%Z); (4%nat, 1%Z); (3%nat, 1%Z); (1%nat, 1%Z);
            (2%nat, 2%Z)] /\
  search 5 abstract_tree 0 (starts_with (py "Abstract")) true false
  = Return [4; 3]%nat.
Proof.
  assert (walk 5 abstract_tree 0
          = Return [(0%nat, 0%Z); (4%nat, 1%Z); (3%nat, 1%Z); (1%nat, 1%Z);
                    (2%nat, 2%Z)]) as Hw
    by (vm_compute; reflexivity).
  split; [exact Hw|].
  rewrite (search_follows_walk abstract_tree 0 (starts_with (py "Abstract"))
             true false 5 _ abstract_tree_is_tree
             ltac:(vm_compute; lia) ltac:(vm_compute; lia) Hw).
  vm_compute. reflexivity.
Defined.

(* ===================================================================== *)
(** ** [get_parent] climbs the chain of parents                            *)
(* ===================================================================== *)

Lemma linked_snoc_inv (h : heap) a cs z x :
  linked h a (cs ++ [z]) x ->
  x = z /\ exists y, linked h a cs y /\ child h y z.
Proof.
  revert a. induction cs as [|c cs IH]; intros a; simpl.
  - intros [Hc ->]. split; [done|]. by exists a.
  - intros [Hc Hl]. destruct (IH c Hl) as (-> & y & Hy & Hyz).
    split; [done|]. exists y. by split.
Qed.

(** Climbing from [x] along the chain [cs] that hangs below [a] brings
    the loop to [a], when the count does not run out on the way and the
    node to stop at, if any, is [a]. *)
Lemma get_parent_loop_climb (h : heap) a stop_at make_list :
  tree_heap h -> stop_at = None \/ stop_at = Some a ->
  forall cs x fuel n nodes,
    linked h a cs x -> (length cs <= fuel)%nat ->
    (n < 0 \/ Z.of_nat (length cs) <= n)%Z ->
    get_parent_loop fuel h x n stop_at make_list nodes
    = get_parent_loop (fuel - length cs) h a (n - Z.of_nat (length cs))
        stop_at make_list (if make_list then cs ++ nodes else nodes).
Proof.
  intros Htree Hstop cs. induction cs as [|z cs IH] using rev_ind;
    intros x fuel n nodes Hl Hfuel Hn.
  - simpl in *. subst x. rewrite Nat.sub_0_r, Z.sub_0_r.
    by destruct make_list.
  - pose proof (linked_length h Htree _ _ _ Hl) as Hlt.
    apply linked_snoc_inv in Hl as (-> & y & Hy & Hyz).
    rewrite length_app in Hfuel, Hn, Hlt |- *. simpl in Hfuel, Hn, Hlt |- *.
    destruct fuel as [|fuel]; [lia|].
    destruct Hyz as (yd & Hyd & Hin).
    destruct (th_child h Htree y yd z Hyd Hin) as (_ & zd & Hzd & Hzp).
    simpl. case_decide; [lia|]. unfold deref. rewrite Hzd. simpl.
    rewrite Hzp. simpl.
    case_decide as Hs.
    { destruct Hstop as [->| ->]; [done|]. simplify_eq. lia. }
    rewrite (IH y fuel (n - 1)%Z) by (done || lia).
    replace (S fuel - (length cs + 1))%nat with (fuel - length cs)%nat by lia.
    replace (n - 1 - Z.of_nat (length cs))%Z
      with (n - Z.of_nat (length cs + 1))%Z by lia.
    f_equal. destruct make_list; [|done]. by rewrite <- app_assoc.
Qed.

Lemma get_parent_loop_0 fuel (h : heap) a stop_at make_list nodes :
  get_parent_loop fuel h a 0 stop_at make_list nodes = Return (nodes, a).
Proof. by destruct fuel. Qed.

Lemma get_parent_loop_stop fuel (h : heap) a ad n stop_at make_list nodes :
  h !! a = Some ad -> parent ad = None \/ stop_at = Some a ->
  get_parent_loop fuel h a n stop_at make_list nodes = Return (nodes, a).
Proof.
  intros Ha Hend.
  destruct fuel; simpl; (case_decide; [done|]);
    unfold deref; rewrite Ha; simpl;
    (destruct (parent ad); [|done]);
    (destruct Hend as [?| ->]; [done|]); by rewrite decide_True.
Qed.

(** X12. In a tree, let [cs] be the chain of nodes that leads from below
    [a] down to [x]. Then [get_parent] from [x] with [n] the length of the
    chain returns [a]; so does every call that asks for more steps, or
    for all of them with a negative [n], when it is told to stop at [a] or
    when [a] has no parent. With [make_list] the result is the chain
    itself, from the child of [a] down to [x]. *)
Theorem get_parent_climbs (h : heap) a ad cs x fuel make_list :
  tree_heap h -> h !! a = Some ad -> linked h a cs x ->
  (length cs <= fuel)%nat ->
  get_parent fuel h x (Z.of_nat (length cs)) None make_list
  = Return (if make_list then inl cs else inr a) /\
  (forall n stop_at,
      (n < 0 \/ Z.of_nat (length cs) <= n)%Z ->
      stop_at = Some a \/ (stop_at = None /\ parent ad = None) ->
      get_parent fuel h x n stop_at make_list
      = Return (if make_list then inl cs else inr a)).
Proof.
  intros Htree Ha Hl Hfuel. split.
  - unfold get_parent.
    rewrite (get_parent_loop_climb h a None make_list Htree (or_introl eq_refl)
               cs x fuel _ [] Hl Hfuel) by lia.
    rewrite Z.sub_diag, get_parent_loop_0. simpl.
    destruct make_list; simpl; [by rewrite app_nil_r|done].
  - intros n stop_at Hn Hstop. unfold get_parent.
    rewrite (get_parent_loop_climb h a stop_at make_list Htree) with (cs := cs)
      by (done || destruct Hstop as [->|[-> _]]; auto).
    rewrite (get_parent_loop_stop _ h a ad).
    + simpl. destruct make_list; simpl; [by rewrite app_nil_r|done].
    + done.
    + destruct Hstop as [->|[_ ?]]; auto.
Qed.

(** In [nested_tree] the file under [Art] is two steps below the root. *)
Lemma get_parent_climbs_witness :
  get_parent 2 nested_tree 3 2 None false = Return (inr 0%nat) /\
  get_parent 2 nested_tree 3 2 None true = Return (inl [2; 3]%nat).
Proof.
  assert (directory_build 8 nested_records [] None
          = Return (nested_tree, 0%nat)) as Hbuild
    by (vm_compute; reflexivity).
  destruct (directory_build_tree _ _ _ _ Hbuild) as (Htree & rd & Hrd & _).
  assert (linked nested_tree 0 [2; 3]%nat 3) as Hl.
  { split; [|split; [|done]].
    - eexists. split; [vm_compute; reflexivity|compute_done].
    - eexists. split; [vm_compute; reflexivity|compute_done]. }
  split.
  - exact (proj1 (get_parent_climbs nested_tree 0 rd [2; 3]%nat 3 2 false
                    Htree Hrd Hl (le_n 2))).
  - exact (proj1 (get_parent_climbs nested_tree 0 rd [2; 3]%nat 3 2 true
                    Htree Hrd Hl (le_n 2))).
Defined.

(* ===================================================================== *)
(** ** [__getitem__]: what a lookup returns                                *)
(* ===================================================================== *)

Lemma find_child_Some (h : heap) l n c :
  find_child h l n = Return (Some c) -> c ∈ l /\ name_of h c = Return n.
Proof.
  induction l as [|c' l IH]; simpl; [done|].
  intros H. apply obind_Return in H as (n' & Hn' & H).
  case_decide as Heq.
  - simplify_eq. split; [by left|done].
  - destruct (IH H) as [Hin Hn]. split; [by right|done].
Qed.

Lemma find_child_None (h : heap) l n :
  find_child h l n = Return None ->
  forall c, c ∈ l -> exists n', name_of h c = Return n' /\ n' <> n.
Proof.
  induction l as [|c' l IH]; simpl; intros H c Hc.
  - by apply elem_of_nil in Hc.
  - apply obind_Return in H as (n' & Hn' & H).
    case_decide as Heq; [done|].
    apply elem_of_cons in Hc as [->|Hc]; [by exists n'|by apply IH].
Qed.

Lemma walk_path_app (h : heap) r ns1 ns2 :
  walk_path h r (ns1 ++ ns2)
  = let! o := walk_path h r ns1 in
    match o with
    | Some y => walk_path h y ns2
    | None => Return None
    end.
Proof.
  revert r. induction ns1 as [|n ns1 IH]; intros r; simpl; [done|].
  destruct (deref h r) as [nd| |]; simpl; try done.
  destruct (find_child h (children nd) n) as [[c|]| |]; simpl; try done.
Qed.

Lemma walk_path_Some (h : heap) r ns x :
  walk_path h r ns = Return (Some x) ->
  exists cs, linked h r cs x /\
             Forall2 (fun c n => name_of h c = Return n) cs ns.
Proof.
  revert r. induction ns as [|n ns IH]; intros r; simpl.
  - intros H. simplify_eq. by exists [].
  - intros H. apply obind_Return in H as (nd & Hnd & H).
    apply obind_Return in H as (o & Ho & H).
    destruct o as [c|]; [|done].
    apply find_child_Some in Ho as [Hin Hn].
    destruct (IH c H) as (cs & Hcs & Hall).
    exists (c :: cs). split; [|by constructor].
    split; [|done]. exists nd. split; [|done].
    unfold deref in Hnd. destruct (h !! r); by simplify_eq.
Qed.

Lemma walk_path_None (h : heap) r ns :
  walk_path h r ns = Return None ->
  exists pre n post y cs,
    ns = pre ++ n :: post /\ linked h r cs y /\
    Forall2 (fun c n => name_of h c = Return n) cs pre /\
    forall c, child h y c -> exists n', name_of h c = Return n' /\ n' <> n.
Proof.
  revert r. induction ns as [|n ns IH]; intros r; simpl; [done|].
  intros H. apply obind_Return in H as (nd & Hnd & H).
  apply obind_Return in H as (o & Ho & H).
  assert (h !! r = Some nd) as Hr.
  { unfold deref in Hnd. destruct (h !! r); by simplify_eq. }
  destruct o as [c|].
  - apply find_child_Some in Ho as [Hin Hn].
    destruct (IH c H) as (pre & n' & post & y & cs & -> & Hcs & Hall & Hno).
    exists (n :: pre), n', post, y, (c :: cs).
    split; [done|]. split; [|split; [by constructor|done]].
    split; [|done]. exists nd. by split.
  - exists [], n, ns, r, []. split; [done|]. split; [done|].
    split; [constructor|].
    intros c (nd' & Hnd' & Hc). simplify_eq.
    by eapply find_child_None.
Qed.

Lemma getitem_join (h : heap) self ns fuel :
  Forall segment ns -> (length ns <= fuel)%nat ->
  __getitem__ fuel h self (posixpath.join ns) = walk_path h self ns.
Proof.
  intros Hseg Hfuel. unfold __getitem__.
  rewrite split_path_join by done. simpl. by rewrite app_nil_r.
Qed.

(** X13. A lookup by a path of segments returns what is at the path. When
    it returns a node, the node is reached from [self] through children
    whose display names are the segments, one after the other; when it
    returns [None], some segment is the display name of no child of the
    node reached by the segments before it. *)
Theorem getitem_finds_by_name (h : heap) self ns fuel :
  Forall segment ns -> (length ns <= fuel)%nat ->
  (forall x,
      __getitem__ fuel h self (posixpath.join ns) = Return (Some x) ->
      exists cs, linked h self cs x /\
                 Forall2 (fun c n => name_of h c = Return n) cs ns) /\
  (__getitem__ fuel h self (posixpath.join ns) = Return None ->
   exists pre n post y cs,
     ns = pre ++ n :: post /\ linked h self cs y /\
     Forall2 (fun c n => name_of h c = Return n) cs pre /\
     forall c, child h y c -> exists n', name_of h c = Return n' /\ n' <> n).
Proof.
  intros Hseg Hfuel. rewrite getitem_join by done. split.
  - intros x. apply walk_path_Some.
  - apply walk_path_None.
Qed.

(** In [nested_tree] the node found by [Art/a.dds] hangs below the root
    by a chain of two nodes. *)
Lemma getitem_finds_by_name_witness :
  exists cs, linked nested_tree 0 cs 3 /\ length cs = 2%nat.
Proof.
  assert (Forall segment [py "Art"; py "a.dds"]) as Hseg.
  { repeat constructor; try discriminate; compute_done. }
  destruct (getitem_finds_by_name nested_tree 0 [py "Art"; py "a.dds"] 2
              Hseg (le_n 2)) as [Hsome _].
  destruct (Hsome 3%nat) as (cs & Hcs & Hall); [vm_compute; reflexivity|].
  exists cs. split; [done|]. by apply Forall2_length in Hall.
Defined.

(** X14. Lookups compose. For paths of segments, when the lookup of the
    first path from [self] returns the node [y], the lookup of the joined
    path from [self] is the lookup of the second path from [y]; when it
    returns [None], so does the lookup of the joined path. *)
Theorem getitem_composes (h : heap) self ns1 ns2 fuel :
  Forall segment ns1 -> Forall segment ns2 ->
  (length (ns1 ++ ns2) <= fuel)%nat ->
  (forall y,
      __getitem__ fuel h self (posixpath.join ns1) = Return (Some y) ->
      __getitem__ fuel h self (posixpath.join (ns1 ++ ns2))
      = __getitem__ fuel h y (posixpath.join ns2)) /\
  (__getitem__ fuel h self (posixpath.join ns1) = Return None ->
   __getitem__ fuel h self (posixpath.join (ns1 ++ ns2)) = Return None).
Proof.
  intros H1 H2 Hfuel.
  rewrite (getitem_join h self (ns1 ++ ns2)) by (done || by apply Forall_app).
  rewrite length_app in Hfuel.
  rewrite (getitem_join h self ns1) by (done || lia).
  rewrite walk_path_app. split.
  - intros y Hy. rewrite Hy. simpl. by rewrite getitem_join by (done || lia).
  - intros Hy. by rewrite Hy.
Qed.

(** In [nested_tree], [root['Art']['a.dds']] is [root['Art/a.dds']]. *)
Lemma getitem_composes_witness :
  __getitem__ 2 nested_tree 0 (py "Art/a.dds")
  = __getitem__ 2 nested_tree 2 (py "a.dds").
Proof.
  assert (Forall segment [py "Art"]) as H1.
  { repeat constructor; try discriminate; compute_done. }
  assert (Forall segment [py "a.dds"]) as H2.
  { repeat constructor; try discriminate; compute_done. }
  destruct (getitem_composes nested_tree 0 [py "Art"] [py "a.dds"] 2 H1 H2
              (le_n 2)) as [Hsome _].
  apply (Hsome 2%nat). vm_compute. reflexivity.
Defined.

(* ===================================================================== *)
(** ** Paths [__getitem__] cannot use                                      *)
(* ===================================================================== *)

Lemma lstrip_run c run y rest :
  Forall (fun x => x = c) run -> y <> c ->
  posixpath.lstrip c (run ++ y :: rest) = y :: rest.
Proof.
  intros Hrun Hy. induction Hrun as [|x run -> _ IH]; simpl.
  - by rewrite decide_False.
  - by rewrite decide_True.
Qed.

Lemma Forall_repeat {A} (P : A -> Prop) x n : P x -> Forall P (repeat x n).
Proof. intros Hx. induction n; simpl; by constructor. Qed.

Lemma rstrip_run c pre y k :
  y <> c -> posixpath.rstrip c (pre ++ y :: repeat c k) = pre ++ [y].
Proof.
  intros Hy. unfold posixpath.rstrip.
  rewrite reverse_app, reverse_cons, <- app_assoc. simpl.
  rewrite lstrip_run; [|by apply Forall_reverse, Forall_repeat|done].
  by rewrite reverse_cons, reverse_involutive.
Qed.

Lemma run_or_last (c : N) (l : str) :
  l = repeat c (length l) \/
  exists pre y k, y <> c /\ l = pre ++ y :: repeat c k.
Proof.
  induction l as [|x l [IH|(pre & y & k & Hy & IH)]].
  - by left.
  - destruct (decide (x = c)) as [->|Hx].
    + left. simpl. by rewrite <- IH.
    + right. exists [], x, (length l). split; [done|]. simpl. by rewrite <- IH.
  - right. exists (x :: pre), y, k. split; [done|]. by rewrite IH.
Qed.

(** The head [posixpath.split] gives for a path that starts with the
    separator starts with the separator. *)
Lemma split_absolute rest :
  exists rest',
    (posixpath.split (posixpath.sep :: rest)).1 = posixpath.sep :: rest'.
Proof.
  unfold posixpath.split.
  set (i := (posixpath.rfind posixpath.sep (posixpath.sep :: rest) + 1)%Z).
  assert (1 <= i)%Z as Hi.
  { unfold i. simpl.
    destruct (Z.leb_spec 0 (posixpath.rfind posixpath.sep rest)); lia. }
  destruct (Z.to_nat i) as [|k] eqn:Hk; [lia|]. simpl fst.
  set (t := take k rest).
  case_decide as Hd; [|by eexists].
  destruct Hd as [_ Hrun].
  destruct (run_or_last posixpath.sep (posixpath.sep :: t))
    as [Hall|(pre & y & n & Hy & Hhead)]; [by simpl in Hall|].
  rewrite Hhead, rstrip_run by done.
  destruct pre as [|x pre]; simpl in Hhead;
    injection Hhead as <- _; [done|by eexists].
Qed.

Lemma split_path_absolute fuel : forall rest path,
  split_path fuel (posixpath.sep :: rest) path = Diverge.
Proof.
  induction fuel as [|fuel IH]; intros rest path; [done|].
  rewrite split_path_step by done.
  destruct (split_absolute rest) as [rest' ->]. apply IH.
Qed.

(** X15. A path that starts with the separator hangs the lookup. The
    loop that takes the path apart keeps the leading separator as what is
    left of the path at every turn, so it never sees the empty string
    that ends it: for no amount of fuel does [__getitem__] return or
    raise. *)
Theorem getitem_absolute_path_hangs fuel (h : heap) self rest :
  __getitem__ fuel h self (posixpath.sep :: rest) = Diverge.
Proof. unfold __getitem__. by rewrite split_path_absolute. Qed.

Lemma name_of_nonempty (h : heap) c n : name_of h c = Return n -> n <> [].
Proof.
  unfold name_of. intros H. apply obind_Return in H as (nd & _ & H).
  by eapply _get_name_nonempty.
Qed.

Lemma split_trailing ns :
  ns <> [] -> Forall segment ns ->
  posixpath.split (posixpath.join ns ++ [posixpath.sep])
  = (posixpath.join ns, []).
Proof.
  intros Hne Hns. unfold posixpath.split.
  rewrite rfind_last by apply not_elem_of_nil.
  replace (Z.to_nat (Z.of_nat (length (posixpath.join ns)) + 1))
    with (length (posixpath.join ns ++ [posixpath.sep]))
    by (rewrite length_app; simpl; lia).
  rewrite firstn_all, drop_all.
  destruct (join_last ns Hne Hns) as (init & c & Hj & Hc).
  destruct (join_first ns Hne Hns) as (c0 & rest & Hj0 & Hc0).
  case_decide as Hd.
  - by rewrite Hj, rstrip_sep_snoc, <- Hj.
  - exfalso. apply Hd. rewrite Hj0. split; [done|].
    simpl. intros H. by simplify_eq.
Qed.

(** X16. A path of segments with a separator after the last one finds no
    node: the lookup then asks for a child with the empty name, which no
    node has. It returns [None] when the path without that separator
    finds nothing, and it never returns a node. *)
Theorem getitem_trailing_separator (h : heap) self ns fuel :
  ns <> [] -> Forall segment ns -> (length ns < fuel)%nat ->
  (forall x, __getitem__ fuel h self (posixpath.join ns ++ [posixpath.sep])
             <> Return (Some x)) /\
  (__getitem__ (fuel - 1) h self (posixpath.join ns) = Return None ->
   __getitem__ fuel h self (posixpath.join ns ++ [posixpath.sep])
   = Return None).
Proof.
  intros Hne Hns Hfuel.
  destruct fuel as [|fuel]; [lia|].
  assert (__getitem__ (S fuel) h self (posixpath.join ns ++ [posixpath.sep])
          = walk_path h self (ns ++ [[]])) as ->.
  { unfold __getitem__.
    rewrite split_path_step by (by destruct (posixpath.join ns)).
    rewrite split_trailing by done. simpl fst. simpl snd.
    by rewrite split_path_join by (done || lia). }
  rewrite walk_path_app. split.
  - intros x H. apply obind_Return in H as (o & _ & H).
    destruct o as [y|]; [|done]. simpl in H.
    apply obind_Return in H as (nd & _ & H).
    apply obind_Return in H as (o & Ho & H).
    destruct o as [c|]; [|done].
    apply find_child_Some in Ho as [_ Hn].
    by apply name_of_nonempty in Hn.
  - replace (S fuel - 1)%nat with fuel by lia.
    rewrite getitem_join by (done || lia). by intros ->.
Qed.

(** In [nested_tree], [Art/] finds nothing where [Art] finds the
    directory. *)
Lemma getitem_trailing_separator_witness :
  __getitem__ 2 nested_tree 0 (py "Art") = Return (Some 2%nat) /\
  forall x, __getitem__ 2 nested_tree 0 (py "Art/") <> Return (Some x).
Proof.
  split; [vm_compute; reflexivity|].
  assert (Forall segment [py "Art"]) as Hseg.
  { repeat constructor; try discriminate; compute_done. }
  apply (getitem_trailing_separator nested_tree 0 [py "Art"] 2);
    [done|exact Hseg|simpl; lia].
Defined.

(* ===================================================================== *)
(** ** [FileRecord.extract]                                                *)
(* ===================================================================== *)

(** X17. What [extract] hands out for a file record that [read] decoded
    at a cursor whose name lies inside the buffer. The memory file starts
    at position 0 and holds the bytes of the buffer that follow the name
    and the two bytes ending it: as many as the data length
    [length - 44 - 2 * name_length] says, fewer when the buffer ends
    before, and all that are left when the data length is negative. When
    the data lies inside the buffer the memory file has exactly that many
    bytes, and the buffer is left at the end of the record. *)
Theorem extract_returns_data L o data p r f' :
  (0 <= p)%Z -> (1 <= i32_at data p)%Z ->
  (p + 34 + 2 * i32_at data p <= Z.of_nat (length data))%Z ->
  FileRecord_read L o (mkBytesIO data p) = Return (r, f') ->
  let ds := (p + 36 + 2 * i32_at data p)%Z in
  let dl := (L - 44 - 2 * i32_at data p)%Z in
  let payload :=
    if (dl <? 0)%Z then drop (Z.to_nat ds) data else slice data ds dl in
  (forall q,
      extract r (mkBytesIO data q)
      = Return (mkBytesIO payload 0,
                mkBytesIO data (ds + Z.of_nat (length payload)))) /\
  ((0 <= dl)%Z -> (ds + dl <= Z.of_nat (length data))%Z ->
   length payload = Z.to_nat dl /\ (ds + dl = p - 8 + L)%Z).
Proof.
  intros Hp Hnl Hfit H ds dl payload.
  unfold FileRecord_read in H.
  rewrite read_i32 in H by lia.
  erewrite bind_step in H by (by apply read_in_bounds; lia).
  erewrite bind_step in H by (by apply read_in_bounds; lia).
  apply bind_Return in H as (name & f2 & Hname & H).
  apply lift_Return in Hname as [Hname ->].
  unfold bind, BytesIO_.seek_cur, BytesIO_.tell, ret in H. simpl in H.
  injection H as <- _.
  replace (Z.max 0 (p + 4 + 32 + 2 * (i32_at data p - 1) + 2)) with ds
    by (unfold ds; lia).
  replace (L - 44 - i32_at data p * 2)%Z with dl by (unfold dl; lia).
  split.
  - intros q. unfold extract, bind, seek_set, BytesIO_.read, ret. simpl.
    destruct (Z.ltb_spec ds 0); [unfold ds in *; lia|]. simpl.
    unfold payload, slice. done.
  - intros Hdl Hend. split; [|unfold ds, dl; lia].
    unfold payload. destruct (Z.ltb_spec dl 0); [lia|].
    apply length_slice; unfold ds in *; lia.
Qed.

(** From [hundred_byte_file], a record of 100 bytes with a name length of
    6, [extract] hands out the last 44 bytes. *)
Lemma extract_returns_data_witness :
  exists r f' f'',
    FileRecord_read 100 0 (mkBytesIO hundred_byte_file 8) = Return (r, f') /\
    extract r (mkBytesIO hundred_byte_file 0)
    = Return (mkBytesIO (slice hundred_byte_file 56 44) 0, f'').
Proof.
  destruct (FileRecord_read 100 0 (mkBytesIO hundred_byte_file 8))
    as [[r f']| |] eqn:E; [|vm_compute in E; discriminate..].
  assert (0 <= 8)%Z as Hp by lia.
  assert (i32_at hundred_byte_file 8 = 6%Z) as Hnl by (vm_compute; reflexivity).
  destruct (extract_returns_data 100 0 hundred_byte_file 8 r f' Hp)
    as [Hex _];
    [rewrite Hnl; lia|rewrite Hnl; vm_compute; discriminate|exact E|].
  rewrite Hnl in Hex. simpl in Hex.
  exists r, f'. eexists. split; [done|]. apply (Hex 0%Z).
Defined.

(* ===================================================================== *)
(** ** The container                                                       *)
(* ===================================================================== *)

(** X18. Lookups through the container. Before [directory_build] every
    lookup raises [ValueError]. After a read and a build the container is
    parsed and [ROOT] gives the root; in a tree whose display names are
    free of the separator and differ between the children of one node,
    the container finds every node of the tree by its path, except that a
    child of the root displayed as [ROOT] is hidden by the root. *)
Theorem container_lookup fuel data g (h : heap) :
  GGPKFile_load fuel data = Return (g, h) ->
  (forall fuel' (h' : heap) item,
      GGPKFile_getitem fuel' h' GGPKFile_new item = Raise ValueError) /\
  _is_parsed GGPKFile_new = false /\ _is_parsed g = true /\
  scan fuel data = Return (records g) /\
  directory g = Some 0%nat /\
  (forall fuel',
      GGPKFile_getitem fuel' h g (py "ROOT") = Return (Some 0%nat)) /\
  (well_named h ->
   forall x, (x < length h)%nat ->
     exists path,
       (forall fuel', (length h <= fuel')%nat ->
                      pathOf fuel' h x = Return path) /\
       (forall fuel', (length path <= fuel')%nat ->
                      GGPKFile_getitem fuel' h g path
                      = Return (Some (if decide (path = py "ROOT")
                                      then 0%nat else x)))).
Proof.
  intros H. unfold GGPKFile_load in H.
  apply obind_Return in H as (rs & Hscan & H).
  apply obind_Return in H as ([h1 root] & Hbuild & H).
  injection H as <- <-. simpl.
  destruct (directory_build_tree _ _ _ _ Hbuild) as (Htree & rd & Hrd & Hpar).
  destruct (directory_build_reachable _ _ _ _ Hbuild) as (-> & _ & Hreach).
  split; [done|]. split; [done|]. split; [done|]. split; [done|].
  split; [done|]. split.
  { intros fuel'. unfold GGPKFile_getitem. simpl. reflexivity. }
  intros Hnames x Hx.
  destruct (get_parent_chain h1 Htree 0%nat rd x Hrd Hpar (Hreach x Hx))
    as (cs & Hl & Hclimb).
  destruct (names_of_chain h1 Htree Hnames 0%nat cs x Hl)
    as (ns & Hns & Hseg & Hall).
  exists (posixpath.join ns). split.
  - intros fuel' Hfuel. unfold pathOf. rewrite Hclimb.
    + simpl. rewrite app_nil_r, Hns. done.
    + lia.
    + pose proof (linked_length h1 Htree 0%nat cs x Hl). lia.
  - intros fuel' Hfuel. unfold GGPKFile_getitem. simpl.
    case_decide; [done|].
    rewrite getitem_join.
    + by apply (walk_path_chain h1 Htree Hnames 0%nat cs x ns).
    + done.
    + pose proof (length_join ns Hseg). lia.
Qed.

(** The container of [nested_archive] finds the file [Art/a.dds]. *)
Lemma container_lookup_witness :
  GGPKFile_load 8 nested_archive
  = Return (mkGGPKFile (Some 0%nat) nested_records, nested_tree) /\
  GGPKFile_getitem 9 nested_tree (mkGGPKFile (Some 0%nat) nested_records)
    (py "Art/a.dds") = Return (Some 3%nat).
Proof.
  assert (GGPKFile_load 8 nested_archive
          = Return (mkGGPKFile (Some 0%nat) nested_records, nested_tree))
    as E by (vm_compute; reflexivity).
  split; [exact E|].
  destruct (container_lookup 8 nested_archive _ nested_tree E)
    as (_ & _ & _ & _ & _ & _ & Hfind).
  destruct (Hfind nested_tree_well_named 3%nat) as (path & Hpath & Hget);
    [vm_compute; lia|].
  assert (path = py "Art/a.dds") as ->.
  { specialize (Hpath 4%nat). vm_compute in Hpath.
    specialize (Hpath (le_n 4)). by injection Hpath as <-. }
  rewrite Hget; [|vm_compute; lia]. reflexivity.
Defined.

(* ===================================================================== *)
(** ** Children by class, and children without a name                      *)
(* ===================================================================== *)




Lemma find_child_nameless (h : heap) pre c post cd n :
  h !! c = Some cd ->
  is_DirectoryRecord (record cd) = false ->
  is_FileRecord (record cd) = false ->
  (forall c', c' ∈ pre -> exists n', name_of h c' = Return n' /\ n' <> n) ->
  find_child h (pre ++ c :: post) n = Raise AttributeError.
Proof.
  intros Hc Hd Hf. induction pre as [|c' pre IH]; intros Hpre; simpl.
  - unfold name_of, deref. rewrite Hc. simpl.
    unfold _get_name. by destruct (record cd).
  - destruct (Hpre c') as (n' & -> & Hne); [by left|]. simpl.
    rewrite decide_False by done. apply IH.
    intros c'' Hin. apply Hpre. by right.
Qed.

(** X20. [directory_build] makes a node for every entry, also for one
    that points at a record that is neither a directory nor a file
    record. Such a node has no name: a lookup from its parent for a
    segment that no child listed before it answers to raises
    [AttributeError], while the test of [search] passes over it. *)
Theorem nameless_child_breaks_lookup (h : heap) y nd pre c post cd n ns fuel :
  h !! y = Some nd -> children nd = pre ++ c :: post -> h !! c = Some cd ->
  is_DirectoryRecord (record cd) = false ->
  is_FileRecord (record cd) = false ->
  Forall segment (n :: ns) -> (length (n :: ns) <= fuel)%nat ->
  (forall c', c' ∈ pre -> exists n', name_of h c' = Return n' /\ n' <> n) ->
  name_of h c = Raise AttributeError /\
  __getitem__ fuel h y (posixpath.join (n :: ns)) = Raise AttributeError /\
  (forall matches sf sd, search_hit matches sf sd cd = Return false).
Proof.
  intros Hy Hch Hc Hd Hf Hseg Hfuel Hpre. split; [|split].
  - unfold name_of, deref. rewrite Hc. simpl.
    unfold _get_name. by destruct (record cd).
  - rewrite getitem_join by done.
    change (walk_path h y (n :: ns)) with
      (let! nd := deref h y in
       let! c := find_child h (children nd) n in
       match c with
       | Some child => walk_path h child ns
       | None => Return None
       end).
    unfold deref. rewrite Hy. simpl.
    by rewrite Hch, (find_child_nameless h pre c post cd n).
  - intros matches sf sd. unfold search_hit. rewrite Hd, Hf.
    by rewrite !andb_false_r.
Qed.

(** The tree of [free_entry_table] has a node for the free record after
    the node of the file; the file is found, any other name raises. *)
Lemma nameless_child_breaks_lookup_witness :
  directory_build 4 free_entry_table [] None
  = Return (free_entry_tree, 0%nat) /\
  __getitem__ 1 free_entry_tree 0 (py "a") = Return (Some 1%nat) /\
  __getitem__ 1 free_entry_tree 0 (py "b") = Raise AttributeError.
Proof.
  split; [vm_compute; reflexivity|]. split; [vm_compute; reflexivity|].
  assert (Forall segment [py "b"]) as Hseg.
  { repeat constructor; try discriminate; compute_done. }
  assert (exists nd, free_entry_tree !! 0%nat = Some nd /\
                     children nd = [1; 2]%nat) as (nd & Hnd & Hch)
    by (eexists; split; vm_compute; reflexivity).
  assert (exists cd, free_entry_tree !! 2%nat = Some cd /\
                     is_DirectoryRecord (record cd) = false /\
                     is_FileRecord (record cd) = false)
    as (cd & Hcd & Hd & Hf)
    by (eexists; repeat split; vm_compute; reflexivity).
  refine (proj1 (proj2 (nameless_child_breaks_lookup free_entry_tree 0 nd
                          [1%nat] 2 [] cd (py "b") [] 1 Hnd Hch Hcd Hd Hf
                          Hseg (le_n 1) _))).
  intros c' ->%list_elem_of_singleton. exists (py "a").
  split; [vm_compute; reflexivity|discriminate].
Defined.

Lemma find_child_first (h : heap) pre c post n :
  name_of h c = Return n ->
  (forall c', c' ∈ pre -> exists n', name_of h c' = Return n' /\ n' <> n) ->
  find_child h (pre ++ c :: post) n = Return (Some c).
Proof.
  intros Hc. induction pre as [|c' pre IH]; intros Hpre; simpl.
  - rewrite Hc. simpl. by rewrite decide_True.
  - destruct (Hpre c') as (n' & -> & Hne); [by left|]. simpl.
    rewrite decide_False by done. apply IH.
    intros c'' Hin. apply Hpre. by right.
Qed.

(** X25. Among children with the same display name the lookup takes the
    first in the order of [children]: a path whose first segment is the
    name of the child [c], and of no child listed before [c], goes on
    from [c], whatever the children listed after it are called. *)
Theorem getitem_first_match (h : heap) y nd pre c post n ns fuel :
  h !! y = Some nd -> children nd = pre ++ c :: post ->
  name_of h c = Return n ->
  (forall c', c' ∈ pre -> exists n', name_of h c' = Return n' /\ n' <> n) ->
  Forall segment (n :: ns) -> (length (n :: ns) <= fuel)%nat ->
  __getitem__ fuel h y n = Return (Some c) /\
  __getitem__ fuel h y (posixpath.join (n :: ns))
  = __getitem__ fuel h c (posixpath.join ns).
Proof.
  intros Hy Hch Hc Hpre Hseg Hfuel.
  pose proof (Forall_inv Hseg) as Hn.
  pose proof (Forall_inv_tail Hseg) as Hns.
  simpl in Hfuel.
  assert (forall ms, walk_path h y (n :: ms) = walk_path h c ms) as Hstep.
  { intros ms.
    change (walk_path h y (n :: ms)) with
      (let! nd := deref h y in
       let! c := find_child h (children nd) n in
       match c with
       | Some child => walk_path h child ms
       | None => Return None
       end).
    unfold deref. rewrite Hy. simpl.
    by rewrite Hch, (find_child_first h pre c post n). }
  split.
  - assert (Forall segment [n]) as H1 by (by constructor).
    change n with (posixpath.join [n]) at 1.
    rewrite (getitem_join h y [n] fuel H1) by (simpl; lia).
    by rewrite Hstep.
  - rewrite getitem_join by done. rewrite Hstep.
    by rewrite getitem_join by (done || lia).
Qed.

(** In [nested_tree] the root lists the file [b.dds] before the directory
    [Art]; [Art/a.dds] goes on from the directory. *)
Lemma getitem_first_match_witness :
  __getitem__ 2 nested_tree 0 (py "Art") = Return (Some 2%nat) /\
  __getitem__ 2 nested_tree 0 (posixpath.join [py "Art"; py "a.dds"])
  = __getitem__ 2 nested_tree 2 (posixpath.join [py "a.dds"]).
Proof.
  assert (Forall segment [py "Art"; py "a.dds"]) as Hseg.
  { repeat constructor; try discriminate; compute_done. }
  assert (py "b.dds" <> py "Art") as Hne by discriminate.
  assert (exists nd, nested_tree !! 0%nat = Some nd /\
                     children nd = [1%nat] ++ 2%nat :: [])
    as (nd & Hnd & Hch) by (eexists; split; vm_compute; reflexivity).
  assert (name_of nested_tree 2 = Return (py "Art")) as Hc
    by (vm_compute; reflexivity).
  assert (forall c', c' ∈ [1%nat] ->
            exists n', name_of nested_tree c' = Return n' /\ n' <> py "Art")
    as Hpre.
  { intros c' ->%list_elem_of_singleton. exists (py "b.dds").
    split; [vm_compute; reflexivity|exact Hne]. }
  exact (getitem_first_match nested_tree 0 nd [1%nat] 2 [] (py "Art")
           [py "a.dds"] 2 Hnd Hch Hc Hpre Hseg (le_n 2)).
Defined.

(* ===================================================================== *)
(** ** The errors of a scan                                                *)
(* ===================================================================== *)

Lemma raises_only_weaken {A} (P Q : exn -> Prop) (c : io A) :
  (forall e, P e -> Q e) -> raises_only P c -> raises_only Q c.
Proof. intros HPQ Hc f e He. apply HPQ. by eapply Hc. Qed.

Lemma _read_record_raises rs o :
  raises_only (fun e => payload_error e \/ UnknownRecordKind e)
    (_read_record rs o).
Proof.
  unfold _read_record, read_header.
  apply raises_only_bind.
  - repeat (apply raises_only_bind; [|intros ?]);
      try apply raises_only_read; try apply raises_only_ret.
    + apply raises_only_lift. intros e He%unpack_i_Raise. by left.
    + apply raises_only_lift. intros e He%decode_ascii_Raise.
      right. by right.
  - intros [L t]. apply raises_only_bind; [|intros r; apply raises_only_ret].
    unfold read_tagged. simpl.
    repeat case_decide;
      try (eapply raises_only_weaken;
           [|first [apply FileRecord_read_raises
                   |apply FreeRecord_read_raises
                   |apply DirectoryRecord_read_raises
                   |apply GGPKRecord_read_raises]];
           intros e He; by left).
    apply raises_only_lift. intros e He. simplify_eq. right. by left.
Qed.

Lemma _read_loop_raises fuel size : forall o rs,
  raises_only (fun e => payload_error e \/ UnknownRecordKind e)
    (_read_loop fuel size o rs).
Proof.
  induction fuel as [|fuel IH]; intros o rs; simpl;
    destruct (o <? size)%Z; try apply raises_only_ret.
  - by intros f e.
  - apply raises_only_bind; [apply _read_record_raises|intros rs'].
    apply raises_only_bind; [apply raises_only_tell|intros o']. apply IH.
Qed.

(** X21. A scan raises nothing but [struct.error] (a field cut short by
    the end of the buffer), a [UnicodeDecodeError] (a tag that is not
    ASCII, a name that is not UTF-16) and the [ValueError] of an unknown
    tag. *)
Theorem scan_errors fuel data e :
  scan fuel data = Raise e ->
  e = struct_error \/ e = ValueError \/ exists c, e = UnicodeDecodeError c.
Proof.
  intros H. unfold scan in H.
  destruct (_read fuel (mkBytesIO data 0)) as [[rs f]|e'|] eqn:E; try done.
  injection H as ->.
  unfold _read in E.
  assert (raises_only (fun e => payload_error e \/ UnknownRecordKind e)
            (_read fuel)) as Hraises.
  { unfold _read. apply raises_only_bind; [by intros f0 e0|intros size].
    apply raises_only_bind; [by intros f0 e0|intros _].
    apply _read_loop_raises. }
  destruct (Hraises _ _ E) as [[->|[->| ->]]|[->| ->]]; eauto.
Qed.

(** A cursor on [unknown_tag_buffer] is refused with [ValueError]. *)
Lemma scan_errors_witness :
  scan 1 (getvalue unknown_tag_buffer) = Raise ValueError /\
  (ValueError = struct_error \/ ValueError = ValueError
   \/ exists c, ValueError = UnicodeDecodeError c).
Proof.
  assert (scan 1 (getvalue unknown_tag_buffer) = Raise ValueError) as H
    by (vm_compute; reflexivity).
  split; [exact H|]. exact (scan_errors _ _ _ H).
Defined.

(** A header cut short by the end of the buffer is an error. *)
Lemma partial_header_raises data o rs :
  (0 <= o)%Z ->
  (o < Z.of_nat (length data) < o + 8)%Z ->
  exists e,
    _read_record rs o (mkBytesIO data o) = Raise e /\
    ((Z.of_nat (length data) < o + 4)%Z -> e = struct_error) /\
    ((o + 4 <= Z.of_nat (length data))%Z -> UnknownRecordKind e).
Proof.
  intros Ho Hlen.
  destruct (decide (Z.of_nat (length data) < o + 4)%Z) as [Hshort|Hlong].
  - exists struct_error. split; [|split; [done|lia]].
    unfold _read_record, read_header, bind, BytesIO_.read, lift. simpl.
    unfold struct.unpack_i. rewrite decide_False; [done|].
    rewrite length_take, length_drop. lia.
  - assert (read_tagged (i32_at data o)
              (Byte.to_N <$> slice data (o + 4) 4) o
            = lift (Raise ValueError)) as Htag.
    { apply read_tagged_unknown. intros Hin.
      assert (length (slice data (o + 4) 4) = 4%nat) as Hl4.
      { unfold known_tags in Hin. rewrite !fmap_cons in Hin.
        repeat (apply elem_of_cons in Hin as [->|Hin]; [done|]).
        by apply elem_of_nil in Hin. }
      unfold slice in Hl4. rewrite length_take, length_drop in Hl4. lia. }
    assert (read_header (mkBytesIO data o)
            = match codecs.decode_ascii (slice data (o + 4) 4) with
              | Return t =>
                  Return ((i32_at data o, t),
                          mkBytesIO data
                            (o + 4 + Z.of_nat (length (slice data (o + 4) 4))))
              | Raise e => Raise e
              | Diverge => Diverge
              end) as Hh.
    { unfold read_header. rewrite read_i32 by lia.
      unfold bind, BytesIO_.read, lift, ret, slice. simpl.
      by destruct (codecs.decode_ascii _). }
    unfold _read_record. unfold bind at 1. rewrite Hh.
    destruct (codecs.decode_ascii (slice data (o + 4) 4)) as [t|e|] eqn:Hdec.
    + exists ValueError. split; [|split; [lia|by left]].
      apply decode_ascii_Return in Hdec as ->. simpl.
      unfold bind. by rewrite Htag.
    + exists e. split; [done|]. split; [lia|].
      apply decode_ascii_Raise in Hdec as ->. by right.
    + by apply decode_ascii_not_Diverge in Hdec.
Qed.

(** X22. Bytes left over after the last record are an error: when fewer
    than eight bytes follow any number of well-formed records, the scan
    raises, with [struct.error] when not even the length field is whole
    and with the error of an unknown tag otherwise. *)
Theorem scan_rejects_trailing_bytes data ls o fuel :
  records_between data 0 ls o ->
  (o < Z.of_nat (length data) < o + 8)%Z ->
  (length ls < fuel)%nat ->
  exists e,
    scan fuel data = Raise e /\
    ((Z.of_nat (length data) < o + 4)%Z -> e = struct_error) /\
    ((o + 4 <= Z.of_nat (length data))%Z -> UnknownRecordKind e).
Proof.
  intros Hpre Hlen Hfuel.
  pose proof (records_between_le _ _ _ _ Hpre) as Ho.
  replace fuel with (length ls + S (fuel - length ls - 1))%nat by lia.
  destruct (_read_loop_between data 0 ls o Hpre (proj1 Hlen)
              (S (fuel - length ls - 1)) ∅) as (rs' & Hrun & _).
  destruct (partial_header_raises data o rs' Ho Hlen) as (e & He & Hcases).
  exists e. split; [|done].
  unfold scan, _read.
  erewrite bind_step by reflexivity. erewrite bind_step by reflexivity.
  simpl in Hrun |- *. rewrite Hrun.
  destruct (Z.ltb_spec o (Z.of_nat (length data))); [|lia].
  unfold bind at 1. by rewrite He.
Qed.

(** Three stray bytes after the records of [three_records]. *)
Lemma scan_rejects_trailing_bytes_witness :
  scan 4 (three_records ++ [x00; x00; x00]) = Raise struct_error.
Proof.
  destruct (scan_rejects_trailing_bytes (three_records ++ [x00; x00; x00])
              [40; 24; 56]%Z 120 4) as (e & He & Hshort & _).
  - apply (between_cons _ 0 40 _ 120).
    { repeat split; [lia|vm_compute; discriminate|].
      right; right; right. split; [reflexivity|lia]. }
    apply (between_cons _ 40 24 _ 120).
    { repeat split; [lia|vm_compute; discriminate|].
      right; right; right. split; [reflexivity|lia]. }
    apply (between_cons _ 64 56 _ 120); [|apply between_nil].
    repeat split; [lia|vm_compute; discriminate|].
    right; left. split; [reflexivity|].
    split; [vm_compute; discriminate|]. split; [vm_compute; discriminate|].
    split; [reflexivity|]. eexists. vm_compute. reflexivity.
  - replace (length (three_records ++ [x00; x00; x00])) with 123%nat
      by (vm_compute; reflexivity).
    lia.
  - simpl. lia.
  - rewrite He. f_equal. apply Hshort.
    replace (length (three_records ++ [x00; x00; x00])) with 123%nat
      by (vm_compute; reflexivity).
    lia.
Defined.

(* ===================================================================== *)
(** ** The fields of a decoded record, by their place in the buffer        *)
(* ===================================================================== *)

Lemma read_i64 {B} data p (k : Z -> io B) :
  (0 <= p)%Z -> (p + 8 <= Z.of_nat (length data))%Z ->
  bind (BytesIO_.read 8) (fun b => bind (lift (struct.unpack_q b)) k)
    (mkBytesIO data p)
  = k (i64_at data p) (mkBytesIO data (p + 8)).
Proof.
  intros Hp Hfit. erewrite bind_step by (by apply read_in_bounds; lia).
  unfold bind at 1. unfold lift, struct.unpack_q.
  rewrite length_slice by lia. by rewrite decide_True by done.
Qed.

Lemma read_u32 {B} data p (k : Z -> io B) :
  (0 <= p)%Z -> (p + 4 <= Z.of_nat (length data))%Z ->
  bind (BytesIO_.read 4) (fun b => bind (lift (struct.unpack_I b)) k)
    (mkBytesIO data p)
  = k (u32_at data p) (mkBytesIO data (p + 4)).
Proof.
  intros Hp Hfit. erewrite bind_step by (by apply read_in_bounds; lia).
  unfold bind at 1. unfold lift, struct.unpack_I.
  rewrite length_slice by lia. by rewrite decide_True by done.
Qed.

Lemma fmap_seq_shift {A} (f : nat -> A) n :
  f <$> seq 1 n = (fun i => f (S i)) <$> seq 0 n.
Proof. by rewrite <- fmap_S_seq, <- list_fmap_compose. Qed.

Lemma read_entries_layout data n : forall p,
  (0 <= p)%Z -> (p + 12 * Z.of_nat n <= Z.of_nat (length data))%Z ->
  read_entries n (mkBytesIO data p)
  = Return ((fun i => entry_at data (p + 12 * Z.of_nat i)) <$> seq 0 n,
            mkBytesIO data (p + 12 * Z.of_nat n)).
Proof.
  induction n as [|n IH]; intros p Hp Hfit.
  - simpl. unfold ret. do 3 f_equal. lia.
  - change (read_entries (S n)) with
      (do bh <- BytesIO_.read 4;
       do h <- lift (struct.unpack_I bh);
       do bo <- BytesIO_.read 8;
       do o <- lift (struct.unpack_q bo);
       do es <- read_entries n;
       ret (mkEntry h o :: es)).
    rewrite read_u32 by lia. rewrite read_i64 by lia.
    erewrite bind_step by (apply IH; lia).
    unfold ret. f_equal. f_equal.
    + simpl seq. rewrite fmap_cons, fmap_seq_shift. f_equal.
      * unfold entry_at. do 2 f_equal; lia.
      * apply list_fmap_ext. intros _ i _. f_equal. lia.
    + f_equal. lia.
Qed.

Lemma read_offsets_layout data n : forall p,
  (0 <= p)%Z -> (p + 8 * Z.of_nat n <= Z.of_nat (length data))%Z ->
  read_offsets n (mkBytesIO data p)
  = Return ((fun i => i64_at data (p + 8 * Z.of_nat i)) <$> seq 0 n,
            mkBytesIO data (p + 8 * Z.of_nat n)).
Proof.
  induction n as [|n IH]; intros p Hp Hfit.
  - simpl. unfold ret. do 3 f_equal. lia.
  - change (read_offsets (S n)) with
      (do b <- BytesIO_.read 8;
       do o <- lift (struct.unpack_q b);
       do os <- read_offsets n;
       ret (o :: os)).
    rewrite read_i64 by lia.
    erewrite bind_step by (apply IH; lia).
    unfold ret. f_equal. f_equal.
    + simpl seq. rewrite fmap_cons, fmap_seq_shift. f_equal.
      * f_equal. lia.
      * apply list_fmap_ext. intros _ i _. f_equal. lia.
    + f_equal. lia.
Qed.

(** X23. The fields of a directory record by their place in the buffer.
    With the cursor [p] behind the eight header bytes and the record
    inside the buffer: the name length and the entry count are the
    integers at [p] and [p + 4], the hash is the big-endian value of the
    32 bytes at [p + 8], the name is the UTF-16-LE text of the
    [2 * (name_length - 1)] bytes at [p + 40], and the entry [i] is the
    twelve bytes at [p + 40 + 2 * name_length + 12 * i], an unsigned hash
    of four bytes and then a signed offset of eight; the cursor is left
    behind the last entry, whatever the declared length. A name that is
    not UTF-16-LE text is the only error. *)
Theorem DirectoryRecord_read_layout L o data p :
  (0 <= p)%Z ->
  (1 <= i32_at data p)%Z -> (0 <= i32_at data (p + 4))%Z ->
  (p + 40 + 2 * i32_at data p + 12 * i32_at data (p + 4)
   <= Z.of_nat (length data))%Z ->
  let nl := i32_at data p in
  let el := i32_at data (p + 4) in
  let bn := slice data (p + 40) (2 * (nl - 1)) in
  (forall name,
      codecs.decode_utf_16_le bn = Return name ->
      DirectoryRecord_read L o (mkBytesIO data p)
      = Return (DirectoryRecord L o name nl el
                  (struct.from_bytes_big (slice data (p + 8) 32))
                  ((fun i => entry_at data
                               (p + 40 + 2 * nl + 12 * Z.of_nat i))
                     <$> seq 0 (Z.to_nat el)),
                mkBytesIO data (p + 40 + 2 * nl + 12 * el))) /\
  (forall e,
      codecs.decode_utf_16_le bn = Raise e ->
      DirectoryRecord_read L o (mkBytesIO data p) = Raise e /\
      e = UnicodeDecodeError utf_16_le).
Proof.
  intros Hp Hnl Hel Hfit nl el bn.
  assert (forall k : str -> io BaseRecord,
            DirectoryRecord_read L o (mkBytesIO data p)
            = match codecs.decode_utf_16_le bn with
              | Return name =>
                  bind (BytesIO_.seek_cur 2)
                    (fun _ =>
                       bind (read_entries (Z.to_nat el))
                         (fun entries =>
                            ret (DirectoryRecord L o name nl el
                                   (struct.from_bytes_big
                                      (slice data (p + 8) 32)) entries)))
                    (mkBytesIO data (p + 40 + 2 * (nl - 1)))
              | Raise e => Raise e
              | Diverge => Diverge
              end) as Hrun.
  { intros _. unfold DirectoryRecord_read.
    rewrite read_i32 by lia. rewrite read_i32 by lia.
    erewrite bind_step by (by apply read_in_bounds; lia).
    erewrite bind_step by (by apply read_in_bounds; fold nl; lia).
    replace (p + 4 + 4 + 32)%Z with (p + 40)%Z by lia.
    replace (p + 4 + 4)%Z with (p + 8)%Z by lia.
    fold nl el bn. unfold bind at 1. unfold lift.
    by destruct (codecs.decode_utf_16_le bn). }
  specialize (Hrun (fun _ => ret (FreeRecord 0 0 0))). split.
  - intros name Hname. rewrite Hrun, Hname.
    unfold bind at 1. unfold BytesIO_.seek_cur. simpl.
    replace (Z.max 0 (p + 40 + 2 * (nl - 1) + 2)) with (p + 40 + 2 * nl)%Z
      by lia.
    erewrite bind_step by (apply read_entries_layout; lia).
    unfold ret. do 3 f_equal. fold el. lia.
  - intros e He. rewrite Hrun, He. split; [done|].
    by apply decode_units_Raise in He.
Qed.

(** The record behind [two_entry_cursor] has the entries written
    there. *)
Lemma DirectoryRecord_read_layout_witness :
  exists name hs f',
    DirectoryRecord_read 76 0 two_entry_cursor
    = Return (DirectoryRecord 76 0 name 3 2 hs [mkEntry 1 100; mkEntry 2 200],
              f').
Proof.
  assert (0 <= 8)%Z as Hp by lia.
  assert (i32_at (getvalue two_entry_cursor) 8 = 3%Z) as Hnl
    by (vm_compute; reflexivity).
  assert (i32_at (getvalue two_entry_cursor) (8 + 4) = 2%Z) as Hel
    by (vm_compute; reflexivity).
  destruct (DirectoryRecord_read_layout 76 0 (getvalue two_entry_cursor) 8 Hp)
    as [Hok _].
  - rewrite Hnl. lia.
  - rewrite Hel. lia.
  - rewrite Hnl, Hel. vm_compute. discriminate.
  - rewrite Hnl, Hel in Hok.
    destruct (codecs.decode_utf_16_le
                (slice (getvalue two_entry_cursor) (8 + 40) (2 * (3 - 1))))
      as [name| |] eqn:Hname; [|vm_compute in Hname; discriminate..].
    exists name. eexists. eexists.
    change two_entry_cursor with (mkBytesIO (getvalue two_entry_cursor) 8).
    rewrite (Hok name eq_refl). do 2 f_equal.
Defined.

(** X24. The fields of a GGPK record and of a free record by their place
    in the buffer, the cursor [p] behind the eight header bytes. A GGPK
    record has as its offsets the signed integers of eight bytes each that
    follow the count at [p], as many as the count says and none when the
    count is negative, and the cursor is left behind them, whatever the
    declared length. A free record has the signed integer of the eight
    bytes at [p] as its next pointer, and the cursor is left at the
    declared end of the record, or at 0 when that is negative. *)
Theorem GGPKRecord_and_FreeRecord_layout L o data p :
  (0 <= p)%Z ->
  ((p + 4 <= Z.of_nat (length data))%Z ->
   (p + 4 + 8 * Z.max 0 (i32_at data p) <= Z.of_nat (length data))%Z ->
   GGPKRecord_read L o (mkBytesIO data p)
   = Return (GGPKRecord L o
               ((fun i => i64_at data (p + 4 + 8 * Z.of_nat i))
                  <$> seq 0 (Z.to_nat (i32_at data p))),
             mkBytesIO data (p + 4 + 8 * Z.max 0 (i32_at data p)))) /\
  ((p + 8 <= Z.of_nat (length data))%Z ->
   FreeRecord_read L o (mkBytesIO data p)
   = Return (FreeRecord L o (i64_at data p),
             mkBytesIO data (Z.max 0 (p - 8 + L)))).
Proof.
  intros Hp. split.
  - intros Hfit4 Hfit. unfold GGPKRecord_read. rewrite read_i32 by lia.
    erewrite bind_step by (apply read_offsets_layout; lia).
    unfold ret. do 3 f_equal. lia.
  - intros Hfit. unfold FreeRecord_read. rewrite read_i64 by lia.
    unfold bind, BytesIO_.seek_cur, ret. simpl. do 3 f_equal. lia.
Qed.

(** The GGPK record at the head of [abstract_archive] lists the offsets
    28 and 420. *)
Lemma GGPKRecord_and_FreeRecord_layout_witness :
  exists f',
    GGPKRecord_read 28 0 (mkBytesIO abstract_archive 8)
    = Return (GGPKRecord 28 0 [28; 420]%Z, f').
Proof.
  assert (0 <= 8)%Z as Hp by lia.
  assert (i32_at abstract_archive 8 = 2%Z) as Hc by (vm_compute; reflexivity).
  destruct (GGPKRecord_and_FreeRecord_layout 28 0 abstract_archive 8 Hp)
    as [Hok _].
  exists (mkBytesIO abstract_archive 28). rewrite Hok.
  - rewrite Hc. vm_compute. reflexivity.
  - vm_compute. discriminate.
  - rewrite Hc. vm_compute. discriminate.
Defined.
